(** * goqdsl: placeholder numbering of the SQL statement composer

    A shallow embedding of the Go package [goqdsl].  The repository carries
    the package in two addressing schemes that share every name:

    - the positional scheme ([predicate.go], [insert.go], [delete.go],
      [internal/goqdsl/*.go] and the positional debug helper), where
      [Predicate.ToSQL] takes the next free [$N] and returns the advanced one;
    - the named scheme (the second predicate file, [builder.go], the named
      UPDATE and DELETE builders, [namedToPositional] and the named debug
      helper), where [Predicate.ToSQL] takes a pointer to a counter and mints
      [@pN] names.

    The two schemes live in the modules [Positional] and [Named] below.  Go
    strings are byte strings and are modelled by [string]; Go's [int] is the
    64-bit two's complement integer, modelled by [Z] with the wrap-around
    written out in [wrap64]; [any] values are modelled by [value]; a
    [map[string]any] is a [gmap string value]; a method with a pointer
    receiver that assigns fields is a function from builder to builder.

    Each module ends with the descriptions its statements are compared
    with ([thread], [shifted_fragment], [bridge_text], ...).  After the two
    modules come the descriptions shared by both schemes: rendered texts as
    skeletons of fixed text and placeholders ([seg], [flatten]), the
    predicates and statements built without [Raw] ([Condition],
    [Statement]), and [sortedKeys].  The lemmas follow in [PositionalFacts]
    and [NamedFacts], the repository's own tests in [PositionalTests] and
    [NamedTests], then the properties C1 to C10 of the specification, the
    lemmas on skeletons, and the further properties X1 to X13 of the code
    at the end. *)

From Stdlib Require Import ZArith Ascii String Lia.
From Equations Require Import Equations.
From stdpp Require Import gmap strings list fin_maps pretty sorting.

Local Open Scope string_scope.
Local Open Scope Z_scope.

(** ** Go's [int] *)

Definition int_max : Z := 2 ^ 63 - 1.
Definition int_min : Z := - 2 ^ 63.

(** Two's complement wrap-around of a mathematical integer into [int]. *)
Definition wrap64 (z : Z) : Z := (z + 2 ^ 63) mod 2 ^ 64 - 2 ^ 63.

Definition is_int (z : Z) : Prop := int_min <= z <= int_max.

(** [a + b] and [a - b] on [int]. *)
Definition iadd (a b : Z) : Z := wrap64 (a + b).
Definition isub (a b : Z) : Z := wrap64 (a - b).

(** [len(xs)] of a slice. *)
Definition len {A} (xs : list A) : Z := Z.of_nat (List.length xs).

(** ** Values carried as [any] *)

(** The dynamic types [formatValue] tells apart ([string], [nil], [bool]),
    integers, and every other type, which is represented by the text that
    [fmt.Sprintf("%v", v)] prints for it. *)
Inductive value : Type :=
| VNil
| VBool (b : bool)
| VStr (s : string)
| VInt (n : Z)
| VOther (repr : string).

Global Instance value_eq_dec : EqDecision value.
Proof. solve_decision. Defined.

(** ** Text helpers: [fmt], [strconv], [strings] *)

(** [fmt.Sprintf("%d", n)]. *)
Definition itoa (n : Z) : string := pretty n.

(** [\d] of Go's regexp syntax: [0-9]. *)
Definition is_digit (c : ascii) : bool :=
  let n := N_of_ascii c in ((48 <=? n) && (n <=? 57))%N.

(** [\w] of Go's regexp syntax: [0-9A-Za-z_]. *)
Definition is_word (c : ascii) : bool :=
  let n := N_of_ascii c in
  (((48 <=? n) && (n <=? 57)) || ((65 <=? n) && (n <=? 90))
   || ((97 <=? n) && (n <=? 122)) || (n =? 95))%N.

Definition digit_val (c : ascii) : Z := Z.of_N (N_of_ascii c) - 48.

(** The number a string of decimal digits denotes. *)
Fixpoint digits_value_from (acc : Z) (s : string) : Z :=
  match s with
  | EmptyString => acc
  | String c r => digits_value_from (acc * 10 + digit_val c) r
  end.
Definition digits_value (s : string) : Z := digits_value_from 0 s.

(** [strconv.Atoi] on a non-empty string of decimal digits (the only
    strings the pattern [\$(\d+)] captures): the value and no error when it
    fits [int]; on overflow [ParseInt] returns the largest [int] together
    with a range error.  The boolean is [true] when the error is non-nil. *)
Definition Atoi (s : string) : Z * bool :=
  let v := digits_value s in
  if v <=? int_max then (v, false) else (int_max, true).

(** [strings.Join(elems, sep)]. *)
Definition Join (elems : list string) (sep : string) : string :=
  String.concat sep elems.

(** [s[1:]]. *)
Definition tail1 (s : string) : string :=
  match s with
  | EmptyString => EmptyString
  | String _ r => r
  end.

(** ** Regular expressions of the shape [X(C+)]

    The package compiles three patterns, [\$(\d+)] and [@(\w+)] (twice): one
    literal byte followed by a non-empty greedy run of a byte class.  Go's
    matcher returns the leftmost match and continues after its end. *)
Record regexp : Type := MustCompile {
  sigil : ascii;
  class : ascii -> bool
}.

(** The longest prefix of bytes of a class, and what follows it. *)
Fixpoint take_class (cls : ascii -> bool) (s : string) : string :=
  match s with
  | EmptyString => EmptyString
  | String c r => if cls c then String c (take_class cls r) else EmptyString
  end.

Fixpoint drop_class (cls : ascii -> bool) (s : string) : string :=
  match s with
  | EmptyString => EmptyString
  | String c r => if cls c then drop_class cls r else s
  end.

(** A text cut into the pieces the matcher sees: bytes outside any match,
    and whole matches (sigil included, as the callback receives them). *)
Inductive piece : Type :=
| Lit (c : ascii)
| Match (m : string).

(** A match starts at byte [c], followed by [r], when [c] is the sigil and
    [r] starts with a byte of the class. *)
Definition starts_match (re : regexp) (c : ascii) (r : string) : bool :=
  bool_decide (c = sigil re) &&
  match take_class (class re) r with
  | EmptyString => false
  | String _ _ => true
  end.

(** Some byte of the text starts a match. *)
Fixpoint has_match (re : regexp) (s : string) : bool :=
  match s with
  | EmptyString => false
  | String c r => starts_match re c r || has_match re r
  end.

Equations? pieces (re : regexp) (s : string) : list piece
  by wf (String.length s) lt :=
  pieces re EmptyString := [];
  pieces re (String c r) :=
    if starts_match re c r
    then Match (String c (take_class (class re) r))
         :: pieces re (drop_class (class re) r)
    else Lit c :: pieces re r.
Proof.
  - assert (String.length (drop_class (class re) r) <= String.length r)%nat;
      [|simpl; lia].
    clear. induction r as [|c r IH]; simpl; [lia|].
    destruct (class re c); simpl; lia.
  - simpl. lia.
Qed.

Definition piece_text (p : piece) : string :=
  match p with
  | Lit c => String c EmptyString
  | Match m => m
  end.

Fixpoint concat_strings (l : list string) : string :=
  match l with
  | [] => EmptyString
  | x :: r => x +:+ concat_strings r
  end.

(** [re.ReplaceAllStringFunc(src, repl)] for a pure callback. *)
Definition ReplaceAllStringFunc (re : regexp) (src : string)
    (repl : string -> string) : string :=
  concat_strings
    (map (fun p => match p with Lit c => String c EmptyString | Match m => repl m end)
         (pieces re src)).

(** [re.ReplaceAllStringFunc(src, repl)] for a callback that is a closure
    over mutable variables of the caller: the callback runs once per match,
    left to right, and the captured variables [St] are threaded through. *)
Fixpoint replace_pieces {St} (repl : string -> St -> string * St)
    (ps : list piece) (st : St) : string * St :=
  match ps with
  | [] => (EmptyString, st)
  | Lit c :: r =>
      let '(out, st') := replace_pieces repl r st in (String c out, st')
  | Match m :: r =>
      let '(txt, st1) := repl m st in
      let '(out, st2) := replace_pieces repl r st1 in
      (txt +:+ out, st2)
  end.

Definition ReplaceAllStringFuncSt {St} (re : regexp) (src : string)
    (repl : string -> St -> string * St) (st : St) : string * St :=
  replace_pieces repl (pieces re src) st.

(** [regexp.MustCompile(`\$(\d+)`)] and, twice, [regexp.MustCompile(`@(\w+)`)]. *)
Definition placeholderRe : regexp := MustCompile "$" is_digit.
Definition namedParamRe : regexp := MustCompile "@" is_word.
Definition debugParamRe : regexp := MustCompile "@" is_word.

(** [strings.HasPrefix(s, p)]. *)
Fixpoint is_prefix (p s : string) : bool :=
  match p, s with
  | EmptyString, _ => true
  | String a p', String b s' => bool_decide (a = b) && is_prefix p' s'
  | String _ _, EmptyString => false
  end.

(** [s[n:]], the empty string when [s] is shorter. *)
Fixpoint drop_bytes (n : nat) (s : string) : string :=
  match n, s with
  | O, _ => s
  | S n', String _ r => drop_bytes n' r
  | S _, EmptyString => EmptyString
  end.

(** [strings.Replace(s, old, new, 1)] for a non-empty [old]: the leftmost
    occurrence of [old] is replaced, the rest of [s] is kept. *)
Fixpoint Replace1 (s old new : string) : string :=
  match s with
  | EmptyString => EmptyString
  | String c r =>
      if is_prefix old s then new +:+ drop_bytes (String.length old) s
      else String c (Replace1 r old new)
  end.

(** [strings.ReplaceAll(s, "'", "''")]: every quote byte is doubled. *)
Fixpoint ReplaceAll_quote (s : string) : string :=
  match s with
  | EmptyString => EmptyString
  | String c r =>
      if bool_decide (c = "'"%char)
      then String "'" (String "'" (ReplaceAll_quote r))
      else String c (ReplaceAll_quote r)
  end.

(** [formatValue]: the SQL literal of a value for debug output (the same
    function in both schemes). *)
Definition formatValue (v : value) : string :=
  match v with
  | VStr val => "'" +:+ ReplaceAll_quote val +:+ "'"
  | VNil => "NULL"
  | VBool val => if val then "TRUE" else "FALSE"
  | VInt n => itoa n
  | VOther repr => repr
  end.

(** ** Enumerations and clause records shared by both schemes *)

Inductive JoinType : Type :=
| InnerJoinType | LeftJoinType | RightJoinType | FullJoinType.

Definition JoinType_String (jt : JoinType) : string :=
  match jt with
  | LeftJoinType => "LEFT JOIN"
  | RightJoinType => "RIGHT JOIN"
  | FullJoinType => "FULL JOIN"
  | InnerJoinType => "INNER JOIN"
  end.

Inductive OrderDir : Type := Asc | Desc.

Definition OrderDir_String (d : OrderDir) : string :=
  match d with
  | Desc => "DESC"
  | Asc => "ASC"
  end.

Record join : Type := mk_join {
  joinType : JoinType;
  join_table : string;
  join_left : string;
  join_right : string
}.

Record orderBy : Type := mk_orderBy {
  ob_col : string;
  ob_dir : OrderDir
}.

Record setClause : Type := mk_setClause {
  set_col : string;
  set_val : value
}.

(** The text written by the JOIN loop and by the ORDER BY block of
    [SelectBuilder.Build]; both are free of placeholders. *)
Definition write_joins (sb : string) (joins : list join) : string :=
  fold_left
    (fun sb j =>
       sb +:+ " " +:+ JoinType_String (joinType j) +:+ " " +:+ join_table j
          +:+ " ON " +:+ join_left j +:+ " = " +:+ join_right j)
    joins sb.

Definition order_parts (obs : list orderBy) : list string :=
  map (fun o => ob_col o +:+ " " +:+ OrderDir_String (ob_dir o)) obs.

(** The blocks [if len(items) > 0 { sb.WriteString(kw);
    sb.WriteString(strings.Join(items, ", ")) }] of every [Build]
    (GROUP BY, ORDER BY, RETURNING). *)
Definition write_list (kw : string) (items : list string) (sb : string) : string :=
  if (0 <? len items) then sb +:+ kw +:+ Join items ", " else sb.

(** The text of GROUP BY, ORDER BY and RETURNING: nothing without items. *)
Definition list_text (kw : string) (items : list string) : string :=
  match items with
  | [] => EmptyString
  | _ => kw +:+ Join items ", "
  end.

(** ** The positional scheme *)

Module Positional.

#[local] Set Warnings "-register-all".

(** The structs implementing [Predicate]; the exported constructor of each
    ([Raw], [Eq], ..., [Not]) only fills the struct. *)
Inductive Predicate : Type :=
| rawPred (sql : string) (args : list value)
| eqPred (col : string) (val : value)
| neqPred (col : string) (val : value)
| gtPred (col : string) (val : value)
| gtePred (col : string) (val : value)
| ltPred (col : string) (val : value)
| ltePred (col : string) (val : value)
| likePred (col : string) (pattern : string)
| ilikePred (col : string) (pattern : string)
| inPred (col : string) (vals : list value)
| betweenPred (col : string) (low high : value)
| isNullPred (col : string)
| isNotNullPred (col : string)
| andPred (preds : list Predicate)
| orPred (preds : list Predicate)
| notPred (pred : Predicate).

Definition Raw (sql : string) (args : list value) : Predicate := rawPred sql args.
Definition Eq (col : string) (val : value) : Predicate := eqPred col val.
Definition Neq (col : string) (val : value) : Predicate := neqPred col val.
Definition Gt (col : string) (val : value) : Predicate := gtPred col val.
Definition Gte (col : string) (val : value) : Predicate := gtePred col val.
Definition Lt (col : string) (val : value) : Predicate := ltPred col val.
Definition Lte (col : string) (val : value) : Predicate := ltePred col val.
Definition Like (col pattern : string) : Predicate := likePred col pattern.
Definition ILike (col pattern : string) : Predicate := ilikePred col pattern.
Definition In (col : string) (vals : list value) : Predicate := inPred col vals.
Definition Between (col : string) (low high : value) : Predicate :=
  betweenPred col low high.
Definition IsNull (col : string) : Predicate := isNullPred col.
Definition IsNotNull (col : string) : Predicate := isNotNullPred col.
Definition And (preds : list Predicate) : Predicate := andPred preds.
Definition Or (preds : list Predicate) : Predicate := orPred preds.
Definition Not (pred : Predicate) : Predicate := notPred pred.

(** The callback of [rawPred.ToSQL]: the error of [Atoi] is discarded. *)
Definition shift_marker (offset : Z) (m : string) : string :=
  let n := fst (Atoi (tail1 m)) in
  "$" +:+ itoa (isub (iadd n offset) 1).

(** The loop of [combinePredicates] over two or more predicates. *)
Definition combine_step {P} (toSQL : P -> Z -> string * list value * Z)
    (acc : list string * list value * Z) (p : P) : list string * list value * Z :=
  let '(parts, allArgs, cur) := acc in
  let '(sql, args, next) := toSQL p cur in
  ((parts ++ [sql])%list, (allArgs ++ args)%list, next).

Definition combinePredicates {P} (toSQL : P -> Z -> string * list value * Z)
    (preds : list P) (op : string) (offset : Z) : string * list value * Z :=
  match preds with
  | [] => ("", [], offset)
  | [p] => toSQL p offset
  | _ =>
      let '(parts, allArgs, cur) :=
        fold_left (combine_step toSQL) preds ([], [], offset) in
      let joined := Join parts (" " +:+ op +:+ " ") in
      ("(" +:+ joined +:+ ")", allArgs, cur)
  end.

Fixpoint ToSQL (p : Predicate) (offset : Z) {struct p} : string * list value * Z :=
  match p with
  | rawPred sql args =>
      (ReplaceAllStringFunc placeholderRe sql (shift_marker offset),
       args, iadd offset (len args))
  | eqPred col val => (col +:+ " = $" +:+ itoa offset, [val], iadd offset 1)
  | neqPred col val => (col +:+ " != $" +:+ itoa offset, [val], iadd offset 1)
  | gtPred col val => (col +:+ " > $" +:+ itoa offset, [val], iadd offset 1)
  | gtePred col val => (col +:+ " >= $" +:+ itoa offset, [val], iadd offset 1)
  | ltPred col val => (col +:+ " < $" +:+ itoa offset, [val], iadd offset 1)
  | ltePred col val => (col +:+ " <= $" +:+ itoa offset, [val], iadd offset 1)
  | likePred col pattern =>
      (col +:+ " LIKE $" +:+ itoa offset, [VStr pattern], iadd offset 1)
  | ilikePred col pattern =>
      (col +:+ " ILIKE $" +:+ itoa offset, [VStr pattern], iadd offset 1)
  | inPred col vals =>
      let placeholders :=
        imap (fun i _ => "$" +:+ itoa (iadd offset (Z.of_nat i))) vals in
      (col +:+ " IN (" +:+ Join placeholders ", " +:+ ")",
       vals, iadd offset (len vals))
  | betweenPred col low high =>
      (col +:+ " BETWEEN $" +:+ itoa offset +:+ " AND $" +:+ itoa (iadd offset 1),
       [low; high], iadd offset 2)
  | isNullPred col => (col +:+ " IS NULL", [], offset)
  | isNotNullPred col => (col +:+ " IS NOT NULL", [], offset)
  | andPred preds => combinePredicates ToSQL preds "AND" offset
  | orPred preds => combinePredicates ToSQL preds "OR" offset
  | notPred pred =>
      let '(sql, args, newOffset) := ToSQL pred offset in
      ("NOT (" +:+ sql +:+ ")", args, newOffset)
  end.

(** [writePredicates]: the loop body at index [i]. *)
Fixpoint writePredicates_from (i : nat) (sb : string) (preds : list Predicate)
    (offset : Z) (args : list value) : string * Z * list value :=
  match preds with
  | [] => (sb, offset, args)
  | p :: rest =>
      let sb := if (0 <? i)%nat then sb +:+ " AND " else sb in
      let '(sql, pArgs, newOffset) := ToSQL p offset in
      writePredicates_from (S i) (sb +:+ sql) rest newOffset (args ++ pArgs)%list
  end.

Definition writePredicates (sb : string) (preds : list Predicate)
    (offset : Z) (args : list value) : string * Z * list value :=
  writePredicates_from 0 sb preds offset args.


(** *** Statement builders *)

Record SelectBuilder : Type := mk_SelectBuilder {
  sel_distinct : bool;
  sel_fields : list string;
  sel_from : string;
  sel_joins : list join;
  sel_where : list Predicate;
  sel_groupBy : list string;
  sel_having : list Predicate;
  sel_orderBy : list orderBy;
  sel_limit : option Z;
  sel_offset : option Z
}.

Record InsertBuilder : Type := mk_InsertBuilder {
  ins_table : string;
  ins_columns : list string;
  ins_values : list (list value);
  ins_onConflict : string;
  ins_returning : list string
}.

Record UpdateBuilder : Type := mk_UpdateBuilder {
  upd_table : string;
  upd_sets : list setClause;
  upd_where : list Predicate;
  upd_returning : list string
}.

Record DeleteBuilder : Type := mk_DeleteBuilder {
  del_table : string;
  del_where : list Predicate;
  del_returning : list string
}.

(** Entry points and chain methods.  Each method assigns fields of the
    receiver and returns the receiver. *)
Definition Select (fields : list string) : SelectBuilder :=
  mk_SelectBuilder false fields "" [] [] [] [] [] None None.

Definition sel_Where (preds : list Predicate) (b : SelectBuilder) : SelectBuilder :=
  mk_SelectBuilder (sel_distinct b) (sel_fields b) (sel_from b) (sel_joins b)
    (sel_where b ++ preds)%list (sel_groupBy b) (sel_having b) (sel_orderBy b)
    (sel_limit b) (sel_offset b).

Definition sel_From (table : string) (b : SelectBuilder) : SelectBuilder :=
  mk_SelectBuilder (sel_distinct b) (sel_fields b) table (sel_joins b)
    (sel_where b) (sel_groupBy b) (sel_having b) (sel_orderBy b)
    (sel_limit b) (sel_offset b).

Definition sel_Distinct (b : SelectBuilder) : SelectBuilder :=
  mk_SelectBuilder true (sel_fields b) (sel_from b) (sel_joins b)
    (sel_where b) (sel_groupBy b) (sel_having b) (sel_orderBy b)
    (sel_limit b) (sel_offset b).

Definition sel_join (jt : JoinType) (table left right : string)
    (b : SelectBuilder) : SelectBuilder :=
  mk_SelectBuilder (sel_distinct b) (sel_fields b) (sel_from b)
    (sel_joins b ++ [mk_join jt table left right])%list
    (sel_where b) (sel_groupBy b) (sel_having b) (sel_orderBy b)
    (sel_limit b) (sel_offset b).

Definition sel_InnerJoin := sel_join InnerJoinType.
Definition sel_LeftJoin := sel_join LeftJoinType.
Definition sel_RightJoin := sel_join RightJoinType.
Definition sel_FullJoin := sel_join FullJoinType.

Definition sel_GroupBy (cols : list string) (b : SelectBuilder) : SelectBuilder :=
  mk_SelectBuilder (sel_distinct b) (sel_fields b) (sel_from b) (sel_joins b)
    (sel_where b) (sel_groupBy b ++ cols)%list (sel_having b) (sel_orderBy b)
    (sel_limit b) (sel_offset b).

Definition sel_OrderBy (col : string) (dir : OrderDir) (b : SelectBuilder)
    : SelectBuilder :=
  mk_SelectBuilder (sel_distinct b) (sel_fields b) (sel_from b) (sel_joins b)
    (sel_where b) (sel_groupBy b) (sel_having b)
    (sel_orderBy b ++ [mk_orderBy col dir])%list
    (sel_limit b) (sel_offset b).

Definition sel_Having (preds : list Predicate) (b : SelectBuilder) : SelectBuilder :=
  mk_SelectBuilder (sel_distinct b) (sel_fields b) (sel_from b) (sel_joins b)
    (sel_where b) (sel_groupBy b) (sel_having b ++ preds)%list (sel_orderBy b)
    (sel_limit b) (sel_offset b).

Definition sel_Limit (n : Z) (b : SelectBuilder) : SelectBuilder :=
  mk_SelectBuilder (sel_distinct b) (sel_fields b) (sel_from b) (sel_joins b)
    (sel_where b) (sel_groupBy b) (sel_having b) (sel_orderBy b)
    (Some n) (sel_offset b).

Definition sel_Offset (n : Z) (b : SelectBuilder) : SelectBuilder :=
  mk_SelectBuilder (sel_distinct b) (sel_fields b) (sel_from b) (sel_joins b)
    (sel_where b) (sel_groupBy b) (sel_having b) (sel_orderBy b)
    (sel_limit b) (Some n).

Definition InsertInto (table : string) : InsertBuilder :=
  mk_InsertBuilder table [] [] "" [].

Definition ins_Columns (cols : list string) (b : InsertBuilder) : InsertBuilder :=
  mk_InsertBuilder (ins_table b) cols (ins_values b) (ins_onConflict b)
    (ins_returning b).

Definition ins_Values (vals : list value) (b : InsertBuilder) : InsertBuilder :=
  mk_InsertBuilder (ins_table b) (ins_columns b) (ins_values b ++ [vals])%list
    (ins_onConflict b) (ins_returning b).

Definition ins_OnConflict (action : string) (b : InsertBuilder) : InsertBuilder :=
  mk_InsertBuilder (ins_table b) (ins_columns b) (ins_values b) action
    (ins_returning b).

Definition ins_Returning (cols : list string) (b : InsertBuilder) : InsertBuilder :=
  mk_InsertBuilder (ins_table b) (ins_columns b) (ins_values b)
    (ins_onConflict b) cols.

Definition Update (table : string) : UpdateBuilder :=
  mk_UpdateBuilder table [] [] [].

Definition upd_Set (col : string) (val : value) (b : UpdateBuilder) : UpdateBuilder :=
  mk_UpdateBuilder (upd_table b) (upd_sets b ++ [mk_setClause col val])%list
    (upd_where b) (upd_returning b).

Definition upd_Where (preds : list Predicate) (b : UpdateBuilder) : UpdateBuilder :=
  mk_UpdateBuilder (upd_table b) (upd_sets b) (upd_where b ++ preds)%list
    (upd_returning b).

Definition upd_Returning (cols : list string) (b : UpdateBuilder) : UpdateBuilder :=
  mk_UpdateBuilder (upd_table b) (upd_sets b) (upd_where b) cols.

Definition DeleteFrom (table : string) : DeleteBuilder :=
  mk_DeleteBuilder table [] [].

Definition del_Where (preds : list Predicate) (b : DeleteBuilder) : DeleteBuilder :=
  mk_DeleteBuilder (del_table b) (del_where b ++ preds)%list (del_returning b).

Definition del_Returning (cols : list string) (b : DeleteBuilder) : DeleteBuilder :=
  mk_DeleteBuilder (del_table b) (del_where b) cols.

(** The interface [Builder]. *)
Class Builder (B : Type) : Type := Build : B -> string * list value.

(** The three locals of every [Build]: the string builder, the argument
    slice and the next placeholder number. *)
Definition frame : Type := (string * Z * list value)%type.

(** [if len(preds) > 0 { sb.WriteString(kw); offset, args =
    writePredicates(&sb, preds, offset, args) }]. *)
Definition write_where (kw : string) (preds : list Predicate) (fr : frame) : frame :=
  let '(sb, offset, args) := fr in
  if (0 <? len preds) then writePredicates (sb +:+ kw) preds offset args
  else fr.

(** The LIMIT and OFFSET blocks: [if bound != nil { fmt.Fprintf(&sb, kw,
    offset); args = append(args, *bound); offset++ }]. *)
Definition write_bound (kw : string) (bound : option Z) (fr : frame) : frame :=
  let '(sb, offset, args) := fr in
  match bound with
  | Some n => (sb +:+ kw +:+ itoa offset, iadd offset 1, (args ++ [VInt n])%list)
  | None => fr
  end.

Definition SelectBuilder_Build (b : SelectBuilder) : string * list value :=
  let sb := "" in
  let args : list value := [] in
  let offset := 1 in
  let sb := sb +:+ (if sel_distinct b then "SELECT DISTINCT " else "SELECT ") in
  let sb := sb +:+ Join (sel_fields b) ", " in
  let sb := sb +:+ " FROM " in
  let sb := sb +:+ sel_from b in
  let sb := write_joins sb (sel_joins b) in
  let '(sb, offset, args) := write_where " WHERE " (sel_where b) (sb, offset, args) in
  let sb := write_list " GROUP BY " (sel_groupBy b) sb in
  let '(sb, offset, args) := write_where " HAVING " (sel_having b) (sb, offset, args) in
  let sb := write_list " ORDER BY " (order_parts (sel_orderBy b)) sb in
  let '(sb, offset, args) := write_bound " LIMIT $" (sel_limit b) (sb, offset, args) in
  let '(sb, offset, args) := write_bound " OFFSET $" (sel_offset b) (sb, offset, args) in
  (sb, args).

(** The inner loop of [InsertBuilder.Build] over one row. *)
Definition insert_cell (acc : list string * Z * list value) (v : value)
    : list string * Z * list value :=
  let '(placeholders, offset, args) := acc in
  ((placeholders ++ ["$" +:+ itoa offset])%list, iadd offset 1, (args ++ [v])%list).

Fixpoint insert_rows (i : nat) (rows : list (list value)) (fr : frame) : frame :=
  match rows with
  | [] => fr
  | row :: rest =>
      let '(sb, offset, args) := fr in
      let sb := if (0 <? i)%nat then sb +:+ ", " else sb in
      let '(placeholders, offset, args) :=
        fold_left insert_cell row ([], offset, args) in
      let sb := sb +:+ "(" +:+ Join placeholders ", " +:+ ")" in
      insert_rows (S i) rest (sb, offset, args)
  end.

Definition InsertBuilder_Build (b : InsertBuilder) : string * list value :=
  let sb := "" in
  let args : list value := [] in
  let offset := 1 in
  let sb := sb +:+ "INSERT INTO " +:+ ins_table b in
  let sb :=
    if (0 <? len (ins_columns b))
    then sb +:+ " (" +:+ Join (ins_columns b) ", " +:+ ")" else sb in
  let sb := sb +:+ " VALUES " in
  let '(sb, offset, args) := insert_rows 0 (ins_values b) (sb, offset, args) in
  let sb :=
    if bool_decide (ins_onConflict b <> "")
    then sb +:+ " ON CONFLICT " +:+ ins_onConflict b else sb in
  let sb := write_list " RETURNING " (ins_returning b) sb in
  (sb, args).

(** The SET loop of [UpdateBuilder.Build]. *)
Definition update_set (acc : list string * Z * list value) (s : setClause)
    : list string * Z * list value :=
  let '(setParts, offset, args) := acc in
  ((setParts ++ [set_col s +:+ " = $" +:+ itoa offset])%list,
   iadd offset 1, (args ++ [set_val s])%list).

Definition UpdateBuilder_Build (b : UpdateBuilder) : string * list value :=
  let sb := "" in
  let args : list value := [] in
  let offset := 1 in
  let sb := sb +:+ "UPDATE " +:+ upd_table b +:+ " SET " in
  let '(setParts, offset, args) :=
    fold_left update_set (upd_sets b) ([], offset, args) in
  let sb := sb +:+ Join setParts ", " in
  let '(sb, offset, args) := write_where " WHERE " (upd_where b) (sb, offset, args) in
  let sb := write_list " RETURNING " (upd_returning b) sb in
  (sb, args).

Definition DeleteBuilder_Build (b : DeleteBuilder) : string * list value :=
  let sb := "" in
  let args : list value := [] in
  let offset := 1 in
  let sb := sb +:+ "DELETE FROM " +:+ del_table b in
  let '(sb, offset, args) := write_where " WHERE " (del_where b) (sb, offset, args) in
  let sb := write_list " RETURNING " (del_returning b) sb in
  (sb, args).

#[global] Instance SelectBuilder_Builder : Builder SelectBuilder := SelectBuilder_Build.
#[global] Instance InsertBuilder_Builder : Builder InsertBuilder := InsertBuilder_Build.
#[global] Instance UpdateBuilder_Builder : Builder UpdateBuilder := UpdateBuilder_Build.
#[global] Instance DeleteBuilder_Builder : Builder DeleteBuilder := DeleteBuilder_Build.

(** A call [b.Build()] through the pointer receiver [b]: what it returns,
    and the builder [b] points to when it returns.  No [Build] assigns to a
    field of its receiver; its cursor is the local [offset]. *)
Definition call_Build {B} `{Builder B} (b : B) : (string * list value) * B :=
  (Build b, b).

(** *** The debug helper *)

(** The loop [for i := len(args) - 1; i >= 0; i--] with [n = i + 1]
    iterations still to run. *)
Fixpoint inline_loop (n : nat) (args : list value) (result : string) : string :=
  match n with
  | O => result
  | S i =>
      match args !! i with
      | Some v =>
          let placeholder := "$" +:+ itoa (iadd (Z.of_nat i) 1) in
          let val := formatValue v in
          inline_loop i args (Replace1 result placeholder val)
      | None => result
      end
  end.

Definition ToSQL_debug {B} `{Builder B} (b : B) : string :=
  let '(query, args) := Build b in
  inline_loop (List.length args) args query.

(** *** Descriptions the statements below compare the code with *)

(** Children rendered in the order given, each from the cursor its
    predecessor returned. *)
Fixpoint thread (preds : list Predicate) (cursor : Z)
    : list (string * list value * Z) :=
  match preds with
  | [] => []
  | p :: rest =>
      let r := ToSQL p cursor in
      r :: thread rest (snd r)
  end.

Definition fragments (rs : list (string * list value * Z)) : list string :=
  map (fun r => fst (fst r)) rs.

Definition contributed (rs : list (string * list value * Z)) : list value :=
  concat (map (fun r => snd (fst r)) rs).

Definition final_cursor (rs : list (string * list value * Z)) (cursor : Z) : Z :=
  default cursor (last (map snd rs)).

(** The cursor a rendering returns is the cursor it was given plus the
    number of values it contributed, in [int] arithmetic. *)
Definition advances_by_args (p : Predicate) : Prop :=
  forall c, is_int c ->
    snd (ToSQL p c) = iadd c (len (snd (fst (ToSQL p c)))).

(** A fragment with every marker [$n] rewritten to [$(n + c - 1)], the sum
    taken in [int]. *)
Definition shifted_fragment (s : string) (c : Z) : string :=
  ReplaceAllStringFunc placeholderRe s
    (fun m => "$" +:+ itoa (wrap64 (digits_value (tail1 m) + c - 1))).

(** A SET assignment, a LIMIT and an OFFSET take the cursor like a
    predicate does: the text written, the value appended, the cursor left. *)
Fixpoint set_renderings (sets : list setClause) (cursor : Z)
    : list (string * list value * Z) :=
  match sets with
  | [] => []
  | s :: rest =>
      (set_col s +:+ " = $" +:+ itoa cursor, [set_val s], iadd cursor 1)
      :: set_renderings rest (iadd cursor 1)
  end.

Definition bound_rendering (kw : string) (bound : option Z) (cursor : Z)
    : list (string * list value * Z) :=
  match bound with
  | Some n => [(kw +:+ itoa cursor, [VInt n], iadd cursor 1)]
  | None => []
  end.

(** The text of a WHERE or HAVING clause: nothing without predicates. *)
Definition clause_text (kw : string) (rs : list (string * list value * Z)) : string :=
  match rs with
  | [] => EmptyString
  | _ => kw +:+ Join (fragments rs) " AND "
  end.

Definition select_head (b : SelectBuilder) : string :=
  write_joins
    ((((EmptyString +:+ (if sel_distinct b then "SELECT DISTINCT " else "SELECT "))
       +:+ Join (sel_fields b) ", ") +:+ " FROM ") +:+ sel_from b)
    (sel_joins b).

(** The values of a VALUES row take the cursor one after the other, and
    the rows one after the other. *)
Fixpoint row_renderings (row : list value) (cursor : Z)
    : list (string * list value * Z) :=
  match row with
  | [] => []
  | v :: rest =>
      ("$" +:+ itoa cursor, [v], iadd cursor 1)
      :: row_renderings rest (iadd cursor 1)
  end.

Fixpoint rows_renderings (rows : list (list value)) (cursor : Z)
    : list (list (string * list value * Z)) :=
  match rows with
  | [] => []
  | row :: rest =>
      let r := row_renderings row cursor in
      r :: rows_renderings rest (final_cursor r cursor)
  end.

Definition row_text (r : list (string * list value * Z)) : string :=
  "(" +:+ Join (fragments r) ", " +:+ ")".

Definition insert_head (b : InsertBuilder) : string :=
  ((EmptyString +:+ "INSERT INTO " +:+ ins_table b)
   +:+ match ins_columns b with
       | [] => EmptyString
       | _ => " (" +:+ Join (ins_columns b) ", " +:+ ")"
       end) +:+ " VALUES ".

Definition conflict_text (action : string) : string :=
  match action with
  | EmptyString => EmptyString
  | _ => " ON CONFLICT " +:+ action
  end.

(** The numbers written in the markers of a fragment, in text order. *)
Definition marker_numbers (s : string) : list Z :=
  omap (fun p => match p with
                 | Lit _ => None
                 | Match m => Some (digits_value (tail1 m))
                 end)
       (pieces placeholderRe s).

End Positional.


(** ** The named scheme *)

Module Named.

#[local] Set Warnings "-register-all".

(** A [map[string]any] is a finite map; the nil map and the empty map are
    both [∅] (they differ in Go only under a comparison with [nil]). *)
Inductive Predicate : Type :=
| rawPred (sql : string) (args : gmap string value)
| eqPred (col : string) (val : value)
| neqPred (col : string) (val : value)
| gtPred (col : string) (val : value)
| gtePred (col : string) (val : value)
| ltPred (col : string) (val : value)
| ltePred (col : string) (val : value)
| likePred (col : string) (pattern : string)
| ilikePred (col : string) (pattern : string)
| inPred (col : string) (vals : list value)
| betweenPred (col : string) (low high : value)
| isNullPred (col : string)
| isNotNullPred (col : string)
| andPred (preds : list Predicate)
| orPred (preds : list Predicate)
| notPred (pred : Predicate).

Definition Raw (sql : string) (args : gmap string value) : Predicate := rawPred sql args.
Definition Eq (col : string) (val : value) : Predicate := eqPred col val.
Definition Neq (col : string) (val : value) : Predicate := neqPred col val.
Definition Gt (col : string) (val : value) : Predicate := gtPred col val.
Definition Gte (col : string) (val : value) : Predicate := gtePred col val.
Definition Lt (col : string) (val : value) : Predicate := ltPred col val.
Definition Lte (col : string) (val : value) : Predicate := ltePred col val.
Definition Like (col pattern : string) : Predicate := likePred col pattern.
Definition ILike (col pattern : string) : Predicate := ilikePred col pattern.
Definition In (col : string) (vals : list value) : Predicate := inPred col vals.
Definition Between (col : string) (low high : value) : Predicate :=
  betweenPred col low high.
Definition IsNull (col : string) : Predicate := isNullPred col.
Definition IsNotNull (col : string) : Predicate := isNotNullPred col.
Definition And (preds : list Predicate) : Predicate := andPred preds.
Definition Or (preds : list Predicate) : Predicate := orPred preds.
Definition Not (pred : Predicate) : Predicate := notPred pred.

(** [mergeArgs(dst, src)]: [for k, v := range src { dst[k] = v }].  The
    result is [dst] after the call. *)
Definition mergeArgs (dst src : gmap string value) : gmap string value :=
  map_fold (fun k v d => <[k:=v]> d) dst src.

(** [nextParam(counter)]: the counter after the call and the name. *)
Definition nextParam (counter : Z) : Z * string :=
  let counter := iadd counter 1 in
  (counter, "p" +:+ itoa counter).

(** [ToSQL(counter *int)] returns the fragment and the arguments; the
    third component is the value [*counter] holds when the call returns. *)
Definition rendering : Type := (string * gmap string value * Z)%type.

Definition compare_ToSQL (col op : string) (val : value) (counter : Z) : rendering :=
  let '(counter, name) := nextParam counter in
  (col +:+ op +:+ name, {[ name := val ]}, counter).

(** The loop of [inPred.ToSQL]. *)
Definition in_step (acc : list string * gmap string value * Z) (v : value)
    : list string * gmap string value * Z :=
  let '(placeholders, args, counter) := acc in
  let '(counter, name) := nextParam counter in
  ((placeholders ++ ["@" +:+ name])%list, <[name := v]> args, counter).

(** The loop of [combinePredicates] over two or more predicates. *)
Definition combine_step {P} (toSQL : P -> Z -> rendering)
    (acc : list string * gmap string value * Z) (p : P)
    : list string * gmap string value * Z :=
  let '(parts, allArgs, counter) := acc in
  let '(sql, args, counter) := toSQL p counter in
  ((parts ++ [sql])%list, mergeArgs allArgs args, counter).

Definition combinePredicates {P} (toSQL : P -> Z -> rendering)
    (preds : list P) (op : string) (counter : Z) : rendering :=
  match preds with
  | [] => ("", ∅, counter)
  | [p] => toSQL p counter
  | _ =>
      let '(parts, allArgs, counter) :=
        fold_left (combine_step toSQL) preds ([], ∅, counter) in
      let joined := Join parts (" " +:+ op +:+ " ") in
      ("(" +:+ joined +:+ ")", allArgs, counter)
  end.

Fixpoint ToSQL (p : Predicate) (counter : Z) {struct p} : rendering :=
  match p with
  | rawPred sql args => (sql, args, counter)
  | eqPred col val => compare_ToSQL col " = @" val counter
  | neqPred col val => compare_ToSQL col " != @" val counter
  | gtPred col val => compare_ToSQL col " > @" val counter
  | gtePred col val => compare_ToSQL col " >= @" val counter
  | ltPred col val => compare_ToSQL col " < @" val counter
  | ltePred col val => compare_ToSQL col " <= @" val counter
  | likePred col pattern => compare_ToSQL col " LIKE @" (VStr pattern) counter
  | ilikePred col pattern => compare_ToSQL col " ILIKE @" (VStr pattern) counter
  | inPred col vals =>
      let '(placeholders, args, counter) :=
        fold_left in_step vals ([], ∅, counter) in
      (col +:+ " IN (" +:+ Join placeholders ", " +:+ ")", args, counter)
  | betweenPred col low high =>
      let '(counter, lowName) := nextParam counter in
      let '(counter, highName) := nextParam counter in
      (col +:+ " BETWEEN @" +:+ lowName +:+ " AND @" +:+ highName,
       <[highName := high]> {[ lowName := low ]}, counter)
  | isNullPred col => (col +:+ " IS NULL", ∅, counter)
  | isNotNullPred col => (col +:+ " IS NOT NULL", ∅, counter)
  | andPred preds => combinePredicates ToSQL preds "AND" counter
  | orPred preds => combinePredicates ToSQL preds "OR" counter
  | notPred pred =>
      let '(sql, args, counter) := ToSQL pred counter in
      ("NOT (" +:+ sql +:+ ")", args, counter)
  end.

(** The three locals of every [Build]: the string builder, the counter and
    the argument map. *)
Definition frame : Type := (string * Z * gmap string value)%type.

Fixpoint writePredicates_from (i : nat) (sb : string) (preds : list Predicate)
    (counter : Z) (args : gmap string value) : frame :=
  match preds with
  | [] => (sb, counter, args)
  | p :: rest =>
      let sb := if (0 <? i)%nat then sb +:+ " AND " else sb in
      let '(sql, pArgs, counter) := ToSQL p counter in
      writePredicates_from (S i) (sb +:+ sql) rest counter (mergeArgs args pArgs)
  end.

Definition writePredicates (sb : string) (preds : list Predicate)
    (counter : Z) (args : gmap string value) : frame :=
  writePredicates_from 0 sb preds counter args.

(** *** Statement builders *)

Record SelectBuilder : Type := mk_SelectBuilder {
  sel_distinct : bool;
  sel_fields : list string;
  sel_from : string;
  sel_joins : list join;
  sel_where : list Predicate;
  sel_groupBy : list string;
  sel_having : list Predicate;
  sel_orderBy : list orderBy;
  sel_limit : option Z;
  sel_offset : option Z
}.

Record UpdateBuilder : Type := mk_UpdateBuilder {
  upd_table : string;
  upd_sets : list setClause;
  upd_where : list Predicate;
  upd_returning : list string
}.

Record DeleteBuilder : Type := mk_DeleteBuilder {
  del_table : string;
  del_where : list Predicate;
  del_returning : list string
}.

Definition Select (fields : list string) : SelectBuilder :=
  mk_SelectBuilder false fields "" [] [] [] [] [] None None.

Definition sel_From (table : string) (b : SelectBuilder) : SelectBuilder :=
  mk_SelectBuilder (sel_distinct b) (sel_fields b) table (sel_joins b)
    (sel_where b) (sel_groupBy b) (sel_having b) (sel_orderBy b)
    (sel_limit b) (sel_offset b).

Definition sel_Where (preds : list Predicate) (b : SelectBuilder) : SelectBuilder :=
  mk_SelectBuilder (sel_distinct b) (sel_fields b) (sel_from b) (sel_joins b)
    (sel_where b ++ preds)%list (sel_groupBy b) (sel_having b) (sel_orderBy b)
    (sel_limit b) (sel_offset b).

Definition sel_Distinct (b : SelectBuilder) : SelectBuilder :=
  mk_SelectBuilder true (sel_fields b) (sel_from b) (sel_joins b)
    (sel_where b) (sel_groupBy b) (sel_having b) (sel_orderBy b)
    (sel_limit b) (sel_offset b).

Definition sel_join (jt : JoinType) (table left right : string)
    (b : SelectBuilder) : SelectBuilder :=
  mk_SelectBuilder (sel_distinct b) (sel_fields b) (sel_from b)
    (sel_joins b ++ [mk_join jt table left right])%list
    (sel_where b) (sel_groupBy b) (sel_having b) (sel_orderBy b)
    (sel_limit b) (sel_offset b).

Definition sel_InnerJoin := sel_join InnerJoinType.
Definition sel_LeftJoin := sel_join LeftJoinType.
Definition sel_RightJoin := sel_join RightJoinType.
Definition sel_FullJoin := sel_join FullJoinType.

Definition sel_GroupBy (cols : list string) (b : SelectBuilder) : SelectBuilder :=
  mk_SelectBuilder (sel_distinct b) (sel_fields b) (sel_from b) (sel_joins b)
    (sel_where b) (sel_groupBy b ++ cols)%list (sel_having b) (sel_orderBy b)
    (sel_limit b) (sel_offset b).

Definition sel_OrderBy (col : string) (dir : OrderDir) (b : SelectBuilder)
    : SelectBuilder :=
  mk_SelectBuilder (sel_distinct b) (sel_fields b) (sel_from b) (sel_joins b)
    (sel_where b) (sel_groupBy b) (sel_having b)
    (sel_orderBy b ++ [mk_orderBy col dir])%list
    (sel_limit b) (sel_offset b).

Definition sel_Having (preds : list Predicate) (b : SelectBuilder) : SelectBuilder :=
  mk_SelectBuilder (sel_distinct b) (sel_fields b) (sel_from b) (sel_joins b)
    (sel_where b) (sel_groupBy b) (sel_having b ++ preds)%list (sel_orderBy b)
    (sel_limit b) (sel_offset b).

Definition sel_Limit (n : Z) (b : SelectBuilder) : SelectBuilder :=
  mk_SelectBuilder (sel_distinct b) (sel_fields b) (sel_from b) (sel_joins b)
    (sel_where b) (sel_groupBy b) (sel_having b) (sel_orderBy b)
    (Some n) (sel_offset b).

Definition sel_Offset (n : Z) (b : SelectBuilder) : SelectBuilder :=
  mk_SelectBuilder (sel_distinct b) (sel_fields b) (sel_from b) (sel_joins b)
    (sel_where b) (sel_groupBy b) (sel_having b) (sel_orderBy b)
    (sel_limit b) (Some n).

Definition Update (table : string) : UpdateBuilder :=
  mk_UpdateBuilder table [] [] [].

Definition upd_Set (col : string) (val : value) (b : UpdateBuilder) : UpdateBuilder :=
  mk_UpdateBuilder (upd_table b) (upd_sets b ++ [mk_setClause col val])%list
    (upd_where b) (upd_returning b).

Definition upd_Where (preds : list Predicate) (b : UpdateBuilder) : UpdateBuilder :=
  mk_UpdateBuilder (upd_table b) (upd_sets b) (upd_where b ++ preds)%list
    (upd_returning b).

Definition upd_Returning (cols : list string) (b : UpdateBuilder) : UpdateBuilder :=
  mk_UpdateBuilder (upd_table b) (upd_sets b) (upd_where b) cols.

Definition DeleteFrom (table : string) : DeleteBuilder :=
  mk_DeleteBuilder table [] [].

Definition del_Where (preds : list Predicate) (b : DeleteBuilder) : DeleteBuilder :=
  mk_DeleteBuilder (del_table b) (del_where b ++ preds)%list (del_returning b).

Definition del_Returning (cols : list string) (b : DeleteBuilder) : DeleteBuilder :=
  mk_DeleteBuilder (del_table b) (del_where b) cols.

(** The interface [Builder]. *)
Class Builder (B : Type) : Type := Build : B -> string * gmap string value.

(** [if len(preds) > 0 { sb.WriteString(kw); writePredicates(...) }]. *)
Definition write_where (kw : string) (preds : list Predicate) (fr : frame) : frame :=
  let '(sb, counter, args) := fr in
  if (0 <? len preds) then writePredicates (sb +:+ kw) preds counter args
  else fr.

(** The LIMIT and OFFSET blocks: [if bound != nil { ... }]. *)
Definition write_bound (kw : string) (bound : option Z) (fr : frame) : frame :=
  let '(sb, counter, args) := fr in
  match bound with
  | Some n =>
      let '(counter, name) := nextParam counter in
      (sb +:+ kw +:+ name, counter, <[name := VInt n]> args)
  | None => fr
  end.

Definition SelectBuilder_Build (b : SelectBuilder) : string * gmap string value :=
  let sb := "" in
  let args : gmap string value := ∅ in
  let counter := 0 in
  let sb := sb +:+ (if sel_distinct b then "SELECT DISTINCT " else "SELECT ") in
  let sb := sb +:+ Join (sel_fields b) ", " in
  let sb := sb +:+ " FROM " in
  let sb := sb +:+ sel_from b in
  let sb := write_joins sb (sel_joins b) in
  let '(sb, counter, args) := write_where " WHERE " (sel_where b) (sb, counter, args) in
  let sb := write_list " GROUP BY " (sel_groupBy b) sb in
  let '(sb, counter, args) := write_where " HAVING " (sel_having b) (sb, counter, args) in
  let sb := write_list " ORDER BY " (order_parts (sel_orderBy b)) sb in
  let '(sb, counter, args) := write_bound " LIMIT @" (sel_limit b) (sb, counter, args) in
  let '(sb, counter, args) := write_bound " OFFSET @" (sel_offset b) (sb, counter, args) in
  (sb, args).

(** The SET loop of [UpdateBuilder.Build]. *)
Definition update_set (acc : list string * Z * gmap string value) (s : setClause)
    : list string * Z * gmap string value :=
  let '(setParts, counter, args) := acc in
  let '(counter, name) := nextParam counter in
  ((setParts ++ [set_col s +:+ " = @" +:+ name])%list, counter,
   <[name := set_val s]> args).

Definition UpdateBuilder_Build (b : UpdateBuilder) : string * gmap string value :=
  let sb := "" in
  let args : gmap string value := ∅ in
  let counter := 0 in
  let sb := sb +:+ "UPDATE " +:+ upd_table b +:+ " SET " in
  let '(setParts, counter, args) :=
    fold_left update_set (upd_sets b) ([], counter, args) in
  let sb := sb +:+ Join setParts ", " in
  let '(sb, counter, args) := write_where " WHERE " (upd_where b) (sb, counter, args) in
  let sb := write_list " RETURNING " (upd_returning b) sb in
  (sb, args).

Definition DeleteBuilder_Build (b : DeleteBuilder) : string * gmap string value :=
  let sb := "" in
  let args : gmap string value := ∅ in
  let counter := 0 in
  let sb := sb +:+ "DELETE FROM " +:+ del_table b in
  let '(sb, counter, args) := write_where " WHERE " (del_where b) (sb, counter, args) in
  let sb := write_list " RETURNING " (del_returning b) sb in
  (sb, args).

#[global] Instance SelectBuilder_Builder : Builder SelectBuilder := SelectBuilder_Build.
#[global] Instance UpdateBuilder_Builder : Builder UpdateBuilder := UpdateBuilder_Build.
#[global] Instance DeleteBuilder_Builder : Builder DeleteBuilder := DeleteBuilder_Build.

(** A call [b.Build()] through the pointer receiver [b]: what it returns,
    and the builder [b] points to when it returns.  No [Build] assigns to a
    field of its receiver; its cursor is the local [counter]. *)
Definition call_Build {B} `{Builder B} (b : B)
    : (string * gmap string value) * B :=
  (Build b, b).


(** *** The bridge to positional parameters *)

(** The variables the callback of [namedToPositional] closes over. *)
Record bridge_state : Type := mk_bridge_state {
  seen : gmap string Z;
  bargs : list value;
  bcounter : Z
}.

(** [named[name]]: the zero value [nil] when the key is absent. *)
Definition index_map (named : gmap string value) (name : string) : value :=
  match named !! name with
  | Some v => v
  | None => VNil
  end.

Definition bridge_callback (named : gmap string value) (m : string)
    (st : bridge_state) : string * bridge_state :=
  let name := tail1 m in
  match seen st !! name with
  | Some pos => ("$" +:+ itoa pos, st)
  | None =>
      let counter := iadd (bcounter st) 1 in
      ("$" +:+ itoa counter,
       mk_bridge_state (<[name := counter]> (seen st))
         (bargs st ++ [index_map named name])%list counter)
  end.

Definition namedToPositional (query : string) (named : gmap string value)
    : string * list value :=
  if bool_decide (size named = 0%nat) then (query, [])
  else
    let '(result, st) :=
      ReplaceAllStringFuncSt namedParamRe query (bridge_callback named)
        (mk_bridge_state ∅ [] 0) in
    (result, bargs st).

Definition NamedToPositional (query : string) (named : gmap string value)
    : string * list value :=
  namedToPositional query named.

(** *** The debug helper *)

Definition debug_callback (args : gmap string value) (m : string) : string :=
  let name := tail1 m in
  match args !! name with
  | Some val => formatValue val
  | None => m
  end.

Definition ToSQL_debug {B} `{Builder B} (b : B) : string :=
  let '(query, args) := Build b in
  ReplaceAllStringFunc debugParamRe query (debug_callback args).

(** *** Descriptions the statements below compare the code with *)

(** Children rendered in the order given, each from the counter its
    predecessor left. *)
Fixpoint thread (preds : list Predicate) (counter : Z) : list rendering :=
  match preds with
  | [] => []
  | p :: rest =>
      let r := ToSQL p counter in
      r :: thread rest (snd r)
  end.

Definition fragments (rs : list rendering) : list string :=
  map (fun r => fst (fst r)) rs.

(** The children's maps merged in child order: an entry of a later child
    replaces an entry of the same name of an earlier child. *)
Definition merged (rs : list rendering) (start : gmap string value)
    : gmap string value :=
  fold_left (fun acc r => snd (fst r) ∪ acc) rs start.

Definition final_counter (rs : list rendering) (counter : Z) : Z :=
  default counter (last (map snd rs)).

(** A SET assignment, a LIMIT and an OFFSET take the counter like a
    predicate does. *)
Fixpoint set_renderings (sets : list setClause) (counter : Z) : list rendering :=
  match sets with
  | [] => []
  | s :: rest =>
      let '(counter, name) := nextParam counter in
      (set_col s +:+ " = @" +:+ name, {[ name := set_val s ]}, counter)
      :: set_renderings rest counter
  end.

Definition bound_rendering (kw : string) (bound : option Z) (counter : Z)
    : list rendering :=
  match bound with
  | Some n =>
      let '(counter, name) := nextParam counter in
      [(kw +:+ name, {[ name := VInt n ]}, counter)]
  | None => []
  end.

(** The text of a WHERE or HAVING clause: nothing without predicates. *)
Definition clause_text (kw : string) (rs : list rendering) : string :=
  match rs with
  | [] => EmptyString
  | _ => kw +:+ Join (fragments rs) " AND "
  end.

Definition select_head (b : SelectBuilder) : string :=
  write_joins
    ((((EmptyString +:+ (if sel_distinct b then "SELECT DISTINCT " else "SELECT "))
       +:+ Join (sel_fields b) ", ") +:+ " FROM ") +:+ sel_from b)
    (sel_joins b).

(** The names of the [@name] markers of a text, in text order. *)
Definition marker_names (query : string) : list string :=
  omap (fun p => match p with
                 | Lit _ => None
                 | Match m => Some (tail1 m)
                 end)
       (pieces namedParamRe query).

(** The distinct names of a list in the order of their first occurrence,
    continuing a list of names already met. *)
Definition extend_names (known : list string) (names : list string) : list string :=
  fold_left (fun acc n => if decide (n ∈ acc) then acc else (acc ++ [n])%list)
    names known.

Definition first_occurrences (names : list string) : list string :=
  extend_names [] names.

Fixpoint index_of (n : string) (l : list string) : nat :=
  match l with
  | [] => O
  | x :: r => if decide (x = n) then O else S (index_of n r)
  end.

(** The position of a name: one more than its index among the distinct
    names. *)
Definition position (names : list string) (n : string) : Z :=
  Z.of_nat (index_of n names) + 1.

(** The text with every marker replaced by [$] and the position of its
    name. *)
Definition bridge_text (query : string) : string :=
  let names := first_occurrences (marker_names query) in
  ReplaceAllStringFunc namedParamRe query
    (fun m => "$" +:+ itoa (position names (tail1 m))).

(** The names of the matches among some pieces, in order. *)
Definition piece_names (ps : list piece) : list string :=
  omap (fun p => match p with
                 | Lit _ => None
                 | Match m => Some (tail1 m)
                 end) ps.

(** A piece with its marker, if it is one, replaced by its position. *)
Definition positioned (names : list string) (p : piece) : string :=
  match p with
  | Lit c => String c EmptyString
  | Match m => "$" +:+ itoa (position names (tail1 m))
  end.

(** What the variables the callback closes over hold after the names
    [known] have been met. *)
Definition bridge_inv (named : gmap string value) (st : bridge_state)
    (known : list string) : Prop :=
  bargs st = map (index_map named) known /\
  bcounter st = len known /\
  forall n, seen st !! n =
            if decide (n ∈ known) then Some (position known n) else None.

(** No name is supplied by two of the renderings, nor by [start]. *)
Fixpoint names_apart (rs : list rendering) (start : gmap string value) : Prop :=
  match rs with
  | [] => True
  | r :: rest => snd (fst r) ##ₘ start /\ names_apart rest (snd (fst r) ∪ start)
  end.

End Named.


(** ** Descriptions shared by both schemes *)

(** Every byte of a text is of a class. *)
Fixpoint all_class (cls : ascii -> bool) (s : string) : bool :=
  match s with
  | EmptyString => true
  | String c r => cls c && all_class cls r
  end.

(** The first byte of a text, if there is one, is of the class of the
    pattern: a marker written just before the text would run into it. *)
Definition head_in_class (re : regexp) (s : string) : bool :=
  match s with
  | EmptyString => false
  | String c _ => class re c
  end.

(** A text is one whole match of the pattern. *)
Definition is_marker (re : regexp) (m : string) : bool :=
  match m with
  | String c (String d ds) =>
      bool_decide (c = sigil re) && class re d && all_class (class re) ds
  | _ => false
  end.

(** No byte of a text is the sigil of the pattern. *)
Definition no_sigil (re : regexp) (s : string) : bool :=
  all_class (fun c => negb (bool_decide (c = sigil re))) s.

(** Pieces as the matcher cuts them: a literal byte does not start a
    match, a match is whole and is not continued by what follows. *)
Fixpoint well_cut (re : regexp) (ps : list piece) : bool :=
  match ps with
  | [] => true
  | Lit c :: r =>
      negb (starts_match re c (concat_strings (map piece_text r)))
      && well_cut re r
  | Match m :: r =>
      is_marker re m
      && negb (head_in_class re (concat_strings (map piece_text r)))
      && well_cut re r
  end.


(** ** Rendered texts as skeletons

    A rendered text seen as fixed text and placeholders; [mint] writes the
    marker of a placeholder number. *)
Inductive seg : Type :=
| Txt (s : string)
| Ph (k : Z).

Definition seg_text (mint : Z -> string) (g : seg) : string :=
  match g with
  | Txt s => s
  | Ph k => mint k
  end.

Definition flatten (mint : Z -> string) (sk : list seg) : string :=
  concat_strings (map (seg_text mint) sk).

Definition seg_pieces (mint : Z -> string) (g : seg) : list piece :=
  match g with
  | Txt s => map Lit (list_ascii_of_string s)
  | Ph k => [Match (mint k)]
  end.

Definition skeleton_pieces (mint : Z -> string) (sk : list seg) : list piece :=
  concat (map (seg_pieces mint) sk).

(** The placeholder numbers of a skeleton, in text order. *)
Definition placeholders (sk : list seg) : list Z :=
  omap (fun g => match g with Txt _ => None | Ph k => Some k end) sk.

(** The markers of the two schemes. *)
Definition positional_marker (k : Z) : string := "$" +:+ itoa k.
Definition param_name (k : Z) : string := "p" +:+ itoa k.
Definition named_marker (k : Z) : string := "@" +:+ param_name k.

(** The fixed text of a skeleton followed by [rest] cannot be taken for a
    marker or for a part of one: it has no sigil, every placeholder is
    written as a whole marker, and what follows a placeholder does not
    begin with a byte of the class. *)
Fixpoint set_apart (re : regexp) (mint : Z -> string) (sk : list seg)
    (rest : string) : bool :=
  match sk with
  | [] => true
  | Txt s :: r => no_sigil re s && set_apart re mint r rest
  | Ph k :: r =>
      is_marker re (mint k)
      && negb (head_in_class re (flatten mint r +:+ rest))
      && set_apart re mint r rest
  end.

(** [c, c + 1, ..., c + n - 1]. *)
Fixpoint run (c : Z) (n : nat) : list Z :=
  match n with
  | O => []
  | S n' => c :: run (c + 1) n'
  end.

Fixpoint join_segs (sep : string) (sks : list (list seg)) : list seg :=
  match sks with
  | [] => []
  | sk :: rest =>
      match rest with
      | [] => sk
      | _ => (sk ++ Txt sep :: join_segs sep rest)%list
      end
  end.

(** ** Predicates without [Raw]

    The predicates both schemes build from the same constructors with the
    same arguments; [positional_pred] and [named_pred] are the predicate
    of either scheme. *)
#[local] Set Warnings "-register-all".

Inductive comparison : Type := OpEq | OpNeq | OpGt | OpGte | OpLt | OpLte.

Inductive Condition : Type :=
| Compare (op : comparison) (col : string) (val : value)
| Matches (insensitive : bool) (col pattern : string)
| Among (col : string) (vals : list value)
| Within (col : string) (low high : value)
| Null (negated : bool) (col : string)
| Junction (disjunction : bool) (conds : list Condition)
| Negation (cond : Condition).

Fixpoint positional_pred (q : Condition) : Positional.Predicate :=
  match q with
  | Compare OpEq col val => Positional.Eq col val
  | Compare OpNeq col val => Positional.Neq col val
  | Compare OpGt col val => Positional.Gt col val
  | Compare OpGte col val => Positional.Gte col val
  | Compare OpLt col val => Positional.Lt col val
  | Compare OpLte col val => Positional.Lte col val
  | Matches false col pattern => Positional.Like col pattern
  | Matches true col pattern => Positional.ILike col pattern
  | Among col vals => Positional.In col vals
  | Within col low high => Positional.Between col low high
  | Null false col => Positional.IsNull col
  | Null true col => Positional.IsNotNull col
  | Junction false qs => Positional.And (map positional_pred qs)
  | Junction true qs => Positional.Or (map positional_pred qs)
  | Negation q => Positional.Not (positional_pred q)
  end.

Fixpoint named_pred (q : Condition) : Named.Predicate :=
  match q with
  | Compare OpEq col val => Named.Eq col val
  | Compare OpNeq col val => Named.Neq col val
  | Compare OpGt col val => Named.Gt col val
  | Compare OpGte col val => Named.Gte col val
  | Compare OpLt col val => Named.Lt col val
  | Compare OpLte col val => Named.Lte col val
  | Matches false col pattern => Named.Like col pattern
  | Matches true col pattern => Named.ILike col pattern
  | Among col vals => Named.In col vals
  | Within col low high => Named.Between col low high
  | Null false col => Named.IsNull col
  | Null true col => Named.IsNotNull col
  | Junction false qs => Named.And (map named_pred qs)
  | Junction true qs => Named.Or (map named_pred qs)
  | Negation q => Named.Not (named_pred q)
  end.

(** The values of a condition, in the order of its text. *)
Fixpoint values (q : Condition) : list value :=
  match q with
  | Compare _ _ val => [val]
  | Matches _ _ pattern => [VStr pattern]
  | Among _ vals => vals
  | Within _ low high => [low; high]
  | Null _ _ => []
  | Junction _ qs => concat (map values qs)
  | Negation q => values q
  end.

(** The column texts of a condition. *)
Fixpoint columns (q : Condition) : list string :=
  match q with
  | Compare _ col _ | Matches _ col _ | Among col _ | Within col _ _
  | Null _ col => [col]
  | Junction _ qs => concat (map columns qs)
  | Negation q => columns q
  end.

Definition comparison_text (op : comparison) : string :=
  match op with
  | OpEq => " = "
  | OpNeq => " != "
  | OpGt => " > "
  | OpGte => " >= "
  | OpLt => " < "
  | OpLte => " <= "
  end.

(** The text of a condition whose first placeholder is number [c]. *)
Fixpoint skeleton (q : Condition) (c : Z) {struct q} : list seg :=
  match q with
  | Compare op col _ => [Txt (col +:+ comparison_text op); Ph c]
  | Matches i col _ =>
      [Txt (col +:+ (if i then " ILIKE " else " LIKE ")); Ph c]
  | Among col vals =>
      Txt (col +:+ " IN (")
      :: (join_segs ", " (map (fun k => [Ph k]) (run c (List.length vals)))
          ++ [Txt ")"])%list
  | Within col _ _ => [Txt (col +:+ " BETWEEN "); Ph c; Txt " AND "; Ph (c + 1)]
  | Null neg col => [Txt (col +:+ (if neg then " IS NOT NULL" else " IS NULL"))]
  | Junction d qs =>
      let sks :=
        (fix go (qs : list Condition) (c : Z) : list (list seg) :=
           match qs with
           | [] => []
           | q :: rest => skeleton q c :: go rest (c + len (values q))
           end) qs c in
      match qs with
      | [] => []
      | [q] => skeleton q c
      | _ => Txt "(" :: (join_segs (if d then " OR " else " AND ") sks
                         ++ [Txt ")"])%list
      end
  | Negation q => Txt "NOT (" :: (skeleton q c ++ [Txt ")"])%list
  end.

(** The texts of conditions that take the placeholder numbers one after
    the other. *)
Fixpoint skeletons (qs : list Condition) (c : Z) : list (list seg) :=
  match qs with
  | [] => []
  | q :: rest => skeleton q c :: skeletons rest (c + len (values q))
  end.

(** The argument map of the named scheme for values taking the names
    [p c], [p (c + 1)], ... in order. *)
Fixpoint named_args (c : Z) (vs : list value) : gmap string value :=
  match vs with
  | [] => ∅
  | v :: rest => <[param_name c := v]> (named_args (c + 1) rest)
  end.

(** What the two schemes render for a condition, from a cursor or a
    counter that leaves room for its values. *)
Definition positional_rendering (q : Condition) : Prop :=
  forall c, is_int c -> c + len (values q) <= int_max ->
    Positional.ToSQL (positional_pred q) c
    = (flatten positional_marker (skeleton q c), values q, c + len (values q)).

Definition named_rendering (q : Condition) : Prop :=
  forall k, is_int k -> k + len (values q) <= int_max ->
    Named.ToSQL (named_pred q) k
    = (flatten named_marker (skeleton q (k + 1)), named_args (k + 1) (values q),
       k + len (values q)).

(** A clause that may follow a placeholder: it is set apart from whatever
    follows it, and does not itself begin with a byte of the class. *)
Definition clause_apart (re : regexp) (mint : Z -> string) (sk : list seg) : Prop :=
  forall rest, head_in_class re rest = false ->
    set_apart re mint sk rest = true
    /\ head_in_class re (flatten mint sk +:+ rest) = false.

(** ** Statements without [Raw] *)

Definition all_values (qs : list Condition) : list value :=
  concat (map values qs).

Definition all_columns (qs : list Condition) : list string :=
  concat (map columns qs).

(** A WHERE or HAVING clause: nothing without conditions. *)
Definition where_segs (kw : string) (qs : list Condition) (c : Z) : list seg :=
  match qs with
  | [] => []
  | _ => Txt kw :: join_segs " AND " (skeletons qs c)
  end.

Fixpoint set_segs (sets : list setClause) (c : Z) : list (list seg) :=
  match sets with
  | [] => []
  | s :: rest => [Txt (set_col s +:+ " = "); Ph c] :: set_segs rest (c + 1)
  end.

Definition bound_segs (kw : string) (bound : option Z) (c : Z) : list seg :=
  match bound with
  | Some _ => [Txt kw; Ph c]
  | None => []
  end.

Definition bound_values (bound : option Z) : list value :=
  match bound with
  | Some n => [VInt n]
  | None => []
  end.

Definition delete_skeleton (table : string) (ws : list Condition)
    (returning : list string) : list seg :=
  (Txt ("DELETE FROM " +:+ table) :: where_segs " WHERE " ws 1
   ++ [Txt (list_text " RETURNING " returning)])%list.

Definition update_skeleton (table : string) (sets : list setClause)
    (ws : list Condition) (returning : list string) : list seg :=
  (Txt ("UPDATE " +:+ table +:+ " SET ") :: join_segs ", " (set_segs sets 1)
   ++ where_segs " WHERE " ws (1 + len sets)
   ++ [Txt (list_text " RETURNING " returning)])%list.

Definition update_values (sets : list setClause) (ws : list Condition)
    : list value :=
  (map set_val sets ++ all_values ws)%list.

Definition select_skeleton (head : string) (ws : list Condition)
    (groupBy : list string) (hs : list Condition) (obs : list orderBy)
    (limit offset : option Z) : list seg :=
  let c1 := 1 + len (all_values ws) in
  let c2 := c1 + len (all_values hs) in
  let c3 := c2 + len (bound_values limit) in
  (Txt head :: where_segs " WHERE " ws 1
   ++ [Txt (list_text " GROUP BY " groupBy)]
   ++ where_segs " HAVING " hs c1
   ++ [Txt (list_text " ORDER BY " (order_parts obs))]
   ++ bound_segs " LIMIT " limit c2
   ++ bound_segs " OFFSET " offset c3)%list.

Definition select_values (ws hs : list Condition) (limit offset : option Z)
    : list value :=
  (all_values ws ++ all_values hs ++ bound_values limit ++ bound_values offset)%list.

Fixpoint row_segs (rows : list (list value)) (c : Z) : list (list seg) :=
  match rows with
  | [] => []
  | row :: rest =>
      (Txt "(" :: join_segs ", " (map (fun k => [Ph k]) (run c (List.length row)))
       ++ [Txt ")"])%list
      :: row_segs rest (c + len row)
  end.

Definition insert_skeleton (b : Positional.InsertBuilder) : list seg :=
  (Txt (Positional.insert_head b)
   :: join_segs ", " (row_segs (Positional.ins_values b) 1)
   ++ [Txt (Positional.conflict_text (Positional.ins_onConflict b));
       Txt (list_text " RETURNING " (Positional.ins_returning b))])%list.

(** The statement and the arguments [DB.Exec], [DB.QueryRow], [DB.Query],
    [FetchOne] and [FetchAll] hand to the driver:
    [query, named := b.Build();
     positionalSQL, args := namedToPositional(query, named)]. *)
Definition driver_input {B} `{Named.Builder B} (b : B) : string * list value :=
  let '(query, named) := Named.Build b in
  Named.namedToPositional query named.

(** No text of a list has the sigil of the pattern. *)
Definition sigil_free (re : regexp) (texts : list string) : Prop :=
  Forall (fun s => no_sigil re s = true) texts.

(** The texts a caller supplies to a SELECT besides its values. *)
Definition join_texts (j : join) : list string :=
  [join_table j; join_left j; join_right j].

Definition select_texts (fields : list string) (from : string)
    (joins : list join) (ws : list Condition) (groupBy : list string)
    (hs : list Condition) (obs : list orderBy) : list string :=
  (fields ++ from :: concat (map join_texts joins) ++ all_columns ws
   ++ groupBy ++ all_columns hs ++ map ob_col obs)%list.

Definition insert_texts (b : Positional.InsertBuilder) : list string :=
  (Positional.ins_table b :: Positional.ins_columns b
   ++ Positional.ins_onConflict b :: Positional.ins_returning b)%list.

(** A SELECT, UPDATE or DELETE whose predicates are built without [Raw]:
    the parts a caller gives to the builder of either scheme. *)
Inductive Statement : Type :=
| SelectOf (distinct : bool) (fields : list string) (from : string)
    (joins : list join) (ws : list Condition) (groupBy : list string)
    (hs : list Condition) (obs : list orderBy) (limit offset : option Z)
| UpdateOf (table : string) (sets : list setClause) (ws : list Condition)
    (returning : list string)
| DeleteOf (table : string) (ws : list Condition) (returning : list string).

(** [Build] of the named builder of a statement. *)
Definition named_Build (s : Statement) : string * gmap string value :=
  match s with
  | SelectOf d fields from joins ws gb hs obs limit offset =>
      Named.Build
        (Named.mk_SelectBuilder d fields from joins (map named_pred ws) gb
           (map named_pred hs) obs limit offset)
  | UpdateOf table sets ws rets =>
      Named.Build (Named.mk_UpdateBuilder table sets (map named_pred ws) rets)
  | DeleteOf table ws rets =>
      Named.Build (Named.mk_DeleteBuilder table (map named_pred ws) rets)
  end.

(** [Build] of the positional builder of a statement. *)
Definition positional_Build (s : Statement) : string * list value :=
  match s with
  | SelectOf d fields from joins ws gb hs obs limit offset =>
      Positional.Build
        (Positional.mk_SelectBuilder d fields from joins (map positional_pred ws)
           gb (map positional_pred hs) obs limit offset)
  | UpdateOf table sets ws rets =>
      Positional.Build
        (Positional.mk_UpdateBuilder table sets (map positional_pred ws) rets)
  | DeleteOf table ws rets =>
      Positional.Build
        (Positional.mk_DeleteBuilder table (map positional_pred ws) rets)
  end.

(** What the database layer of the named scheme hands to the driver. *)
Definition named_driver_input (s : Statement) : string * list value :=
  match s with
  | SelectOf d fields from joins ws gb hs obs limit offset =>
      driver_input
        (Named.mk_SelectBuilder d fields from joins (map named_pred ws) gb
           (map named_pred hs) obs limit offset)
  | UpdateOf table sets ws rets =>
      driver_input (Named.mk_UpdateBuilder table sets (map named_pred ws) rets)
  | DeleteOf table ws rets =>
      driver_input (Named.mk_DeleteBuilder table (map named_pred ws) rets)
  end.

(** The debug helper [ToSQL] of either scheme on a statement. *)
Definition named_debug (s : Statement) : string :=
  match s with
  | SelectOf d fields from joins ws gb hs obs limit offset =>
      Named.ToSQL_debug
        (Named.mk_SelectBuilder d fields from joins (map named_pred ws) gb
           (map named_pred hs) obs limit offset)
  | UpdateOf table sets ws rets =>
      Named.ToSQL_debug
        (Named.mk_UpdateBuilder table sets (map named_pred ws) rets)
  | DeleteOf table ws rets =>
      Named.ToSQL_debug (Named.mk_DeleteBuilder table (map named_pred ws) rets)
  end.

Definition positional_debug (s : Statement) : string :=
  match s with
  | SelectOf d fields from joins ws gb hs obs limit offset =>
      Positional.ToSQL_debug
        (Positional.mk_SelectBuilder d fields from joins (map positional_pred ws)
           gb (map positional_pred hs) obs limit offset)
  | UpdateOf table sets ws rets =>
      Positional.ToSQL_debug
        (Positional.mk_UpdateBuilder table sets (map positional_pred ws) rets)
  | DeleteOf table ws rets =>
      Positional.ToSQL_debug
        (Positional.mk_DeleteBuilder table (map positional_pred ws) rets)
  end.

(** The text of a statement before its first clause. *)
Definition select_head_text (d : bool) (fields : list string) (from : string)
    (joins : list join) : string :=
  write_joins
    ((((EmptyString +:+ (if d then "SELECT DISTINCT " else "SELECT "))
       +:+ Join fields ", ") +:+ " FROM ") +:+ from) joins.

(** The text of a statement, its values in the order of the text, and the
    texts its caller supplies besides the values. *)
Definition statement_skeleton (s : Statement) : list seg :=
  match s with
  | SelectOf d fields from joins ws gb hs obs limit offset =>
      select_skeleton (select_head_text d fields from joins) ws gb hs obs
        limit offset
  | UpdateOf table sets ws rets => update_skeleton table sets ws rets
  | DeleteOf table ws rets => delete_skeleton table ws rets
  end.

Definition statement_values (s : Statement) : list value :=
  match s with
  | SelectOf _ _ _ _ ws _ hs _ limit offset => select_values ws hs limit offset
  | UpdateOf _ sets ws _ => update_values sets ws
  | DeleteOf _ ws _ => all_values ws
  end.

Definition statement_texts (s : Statement) : list string :=
  match s with
  | SelectOf _ fields from joins ws gb hs obs _ _ =>
      select_texts fields from joins ws gb hs obs
  | UpdateOf table sets ws rets =>
      (table :: map set_col sets ++ all_columns ws ++ rets)%list
  | DeleteOf table ws rets => (table :: all_columns ws ++ rets)%list
  end.

(** The SQL literal the debug helpers write for placeholder number [k] of
    a statement with the values [vs]. *)
Definition literal (vs : list value) (k : Z) : string :=
  match vs !! Z.to_nat (k - 1) with
  | Some v => formatValue v
  | None => EmptyString
  end.

(** The pattern [\$([\d$]+)].  A text set apart for it has, after every
    placeholder, a byte that is neither a digit nor [$], or nothing. *)
Definition gapRe : regexp :=
  MustCompile "$" (fun c => is_digit c || bool_decide (c = "$"%char)).

(** The markers of the positional debug helper when the placeholders above
    [j] have been replaced by their literals. *)
Definition partly (vs : list value) (j : Z) (k : Z) : string :=
  if k <=? j then positional_marker k else literal vs k.

(** The placeholder numbers of a skeleton grow from left to right. *)
Fixpoint rising (ks : list Z) : Prop :=
  match ks with
  | [] => True
  | k :: rest => Forall (fun k' => k < k') rest /\ rising rest
  end.

(** A piece with its match, if it is one, rewritten by a callback. *)
Definition relabel (g : string -> string) (p : piece) : piece :=
  match p with
  | Lit c => Lit c
  | Match m => Match (g m)
  end.

(** ** [sortedKeys] of the named database layer *)

(** The comparison given to [sort.Slice]: longer keys first, keys of the
    same length in byte order. *)
Definition keys_less (a b : string) : bool :=
  if negb (String.length a =? String.length b)%nat
  then (String.length b <? String.length a)%nat
  else String.ltb a b.

(** [a] need not come after [b]. *)
Definition keys_le (a b : string) : Prop := keys_less b a = false.

Global Instance keys_le_dec : RelDecision keys_le.
Proof. intros a b. unfold keys_le. apply _. Defined.

(** [sortedKeys(m)] when [range m] yields the keys in the order [order]:
    the keys are appended in that order and sorted.  [sort.Slice] promises
    no particular algorithm and no stability; the keys of a map are
    distinct and the comparison is total on them, so there is one sorted
    arrangement (shown with the properties of [sortedKeys] below), and
    merge sort computes it. *)
Definition sortedKeys_ranged (order : list string) : list string :=
  merge_sort keys_le order.

Definition sortedKeys (m : gmap string value) : list string :=
  sortedKeys_ranged (map fst (map_to_list m)).

(** ** Reading a SQL string literal

    A quote, the bytes of the string with every quote written twice, and
    a quote that ends the literal. *)
Fixpoint read_literal_body (s : string) : option string :=
  match s with
  | EmptyString => None
  | String c r =>
      if bool_decide (c = "'"%char) then
        match r with
        | EmptyString => Some EmptyString
        | String d r' =>
            if bool_decide (d = "'"%char)
            then option_map (String "'") (read_literal_body r')
            else None
        end
      else option_map (String c) (read_literal_body r)
  end.

Definition read_string_literal (s : string) : option string :=
  match s with
  | String c r => if bool_decide (c = "'"%char) then read_literal_body r else None
  | EmptyString => None
  end.


(** * Properties *)

(** Bounds on [int] and on lengths, by linear arithmetic. *)
Ltac int_bounds :=
  unfold is_int, int_min, int_max, len in *; simpl in *; lia.

(** The guard [len(xs) > 0] on a non-empty list. *)
Ltac len_positive :=
  match goal with
  | |- context [0 <? len (?x :: ?xs)] =>
      replace (0 <? len (x :: xs)) with true
        by (symmetry; apply Z.ltb_lt; unfold len; simpl; lia)
  end.

(** ** Integer arithmetic *)

Lemma wrap64_id z : is_int z -> wrap64 z = z.
Proof.
  unfold is_int, int_min, int_max, wrap64. intros Hz.
  rewrite Z.mod_small; lia.
Qed.

Lemma wrap64_is_int z : is_int (wrap64 z).
Proof.
  unfold is_int, int_min, int_max, wrap64.
  pose proof (Z.mod_pos_bound (z + 2 ^ 63) (2 ^ 64)). lia.
Qed.

Lemma wrap64_add_l a b : wrap64 (wrap64 a + b) = wrap64 (a + b).
Proof.
  unfold wrap64. f_equal.
  replace ((a + 2 ^ 63) mod 2 ^ 64 - 2 ^ 63 + b + 2 ^ 63)
    with ((a + 2 ^ 63) mod 2 ^ 64 + b) by lia.
  rewrite Zplus_mod_idemp_l. f_equal. lia.
Qed.

Lemma wrap64_sub_l a b : wrap64 (wrap64 a - b) = wrap64 (a - b).
Proof. rewrite <- !Z.add_opp_r. apply wrap64_add_l. Qed.

Lemma iadd_assoc a b c : iadd (iadd a b) c = wrap64 (a + b + c).
Proof. unfold iadd. apply wrap64_add_l. Qed.

Lemma iadd_0_r a : is_int a -> iadd a 0 = a.
Proof. intros. unfold iadd. rewrite Z.add_0_r. by apply wrap64_id. Qed.

Lemma iadd_exact a b : is_int (a + b) -> iadd a b = a + b.
Proof. apply wrap64_id. Qed.

Lemma len_app {A} (l1 l2 : list A) : len (l1 ++ l2)%list = len l1 + len l2.
Proof. unfold len. rewrite length_app. lia. Qed.

Lemma len_nonneg {A} (l : list A) : 0 <= len l.
Proof. unfold len. lia. Qed.

Lemma last_cons_is_Some {A} (x : A) l : is_Some (last (x :: l)).
Proof.
  revert x. induction l as [|y l IH]; intros x; [by eexists|].
  rewrite last_cons_cons. apply IH.
Qed.

Lemma default_last_cons {A} (a b : A) l :
  default a (last (b :: l)) = default b (last l).
Proof.
  destruct l as [|x l]; [done|]. rewrite last_cons_cons.
  by destruct (last_cons_is_Some x l) as [y ->].
Qed.

(** ** Texts *)

Lemma app_String c a b : String c a +:+ b = String c (a +:+ b).
Proof. reflexivity. Qed.

Lemma app_empty_l a : EmptyString +:+ a = a.
Proof. reflexivity. Qed.

Lemma app_empty_r a : a +:+ EmptyString = a.
Proof. induction a as [|c a IH]; [done|]. by rewrite app_String, IH. Qed.

Lemma app_assoc_s a b c : (a +:+ b) +:+ c = a +:+ (b +:+ c).
Proof. induction a as [|x a IH]; [done|]. by rewrite !app_String, IH. Qed.

(** Both sides of an equation between texts brought to right-nested form. *)
Ltac normalize_text :=
  rewrite ?app_empty_l, ?app_empty_r, ?app_assoc_s.

Lemma take_drop_class cls s : take_class cls s +:+ drop_class cls s = s.
Proof.
  induction s as [|c r IH]; simpl; [done|].
  destruct (cls c); [by rewrite app_String, IH|done].
Qed.

Lemma take_class_all cls s c :
  In c (list_ascii_of_string (take_class cls s)) -> cls c = true.
Proof.
  induction s as [|d r IH]; simpl; [done|].
  destruct (cls d) eqn:E; simpl; [|done].
  intros [<-|H]; auto.
Qed.

Lemma drop_class_le cls s :
  (String.length (drop_class cls s) <= String.length s)%nat.
Proof. induction s as [|c r IH]; simpl; [lia|]. destruct (cls c); simpl; lia. Qed.

(** ** The matcher *)

Section Matcher.

Variable re : regexp.

(** Cutting a text into pieces loses nothing: the pieces spell the text. *)
Lemma pieces_text s :
  concat_strings (map piece_text (pieces re s)) = s.
Proof.
  funelim (pieces re s); simp pieces; [done|].
  destruct (starts_match re c r); simpl.
  - rewrite H. by rewrite app_String, take_drop_class.
  - by rewrite H0.
Qed.

(** Every match is the sigil followed by a non-empty run of the class. *)
Lemma pieces_match_shape s m :
  In (Match m) (pieces re s) ->
  exists d ds, m = String (sigil re) (String d ds) /\
    forall c, In c (list_ascii_of_string (String d ds)) -> class re c = true.
Proof.
  funelim (pieces re s); simp pieces; [done|].
  destruct (starts_match re c r) eqn:E; simpl.
  - intros [Hm|Hm]; [|by eauto].
    inversion Hm; subst. unfold starts_match in E.
    apply andb_prop in E as [Ec Et]. apply bool_decide_eq_true in Ec as ->.
    destruct (take_class (class re) r) as [|d ds] eqn:Et'; [done|].
    exists d, ds. split; [done|]. intros c' Hc.
    apply (take_class_all (class re) r). by rewrite Et'.
  - intros [Hm|Hm]; [done|by eauto].
Qed.

(** A text in which the sigil is never followed by a byte of the class
    has no match. *)
Lemma pieces_no_match s m :
  has_match re s = false -> ~ In (Match m) (pieces re s).
Proof.
  funelim (pieces re s); simp pieces; [by intros _ []|].
  simpl has_match. intros Hno. apply orb_false_elim in Hno as [Hc Hr].
  rewrite Hc. intros [Hm|Hm]; [done|]. by eapply H0.
Qed.

Lemma pieces_length s :
  (List.length (pieces re s) <= String.length s)%nat.
Proof.
  funelim (pieces re s); simp pieces; [simpl; lia|].
  destruct (starts_match re c r); simpl.
  - pose proof (drop_class_le (class re) r). lia.
  - lia.
Qed.

(** Two callbacks that agree on the matches of a text rewrite it alike. *)
Lemma ReplaceAllStringFunc_ext s f g :
  (forall m, In (Match m) (pieces re s) -> f m = g m) ->
  ReplaceAllStringFunc re s f = ReplaceAllStringFunc re s g.
Proof.
  unfold ReplaceAllStringFunc. intros H. f_equal.
  apply map_ext_in. intros [c|m] Hin; [done|]. by apply H.
Qed.

(** A text without matches is returned as it is. *)
Lemma ReplaceAllStringFunc_no_match s f :
  (forall m, ~ In (Match m) (pieces re s)) ->
  ReplaceAllStringFunc re s f = s.
Proof.
  intros H. unfold ReplaceAllStringFunc.
  rewrite <- (pieces_text s) at 2. f_equal.
  apply map_ext_in. intros [c|m] Hin; [done|]. by apply H in Hin.
Qed.

End Matcher.

Lemma write_list_text kw items sb :
  write_list kw items sb = sb +:+ list_text kw items.
Proof.
  unfold write_list. destruct items as [|x xs].
  - simpl. by rewrite app_empty_r.
  - len_positive.
    done.
Qed.

Lemma Join_cons x xs sep :
  Join (x :: xs) sep =
  match xs with [] => x | _ => x +:+ sep +:+ Join xs sep end.
Proof. by destruct xs. Qed.

(** ** Positional predicates *)

Module PositionalFacts.
Import Positional.

(** Induction over predicate trees, with the hypothesis available for
    every child of [And] and [Or]. *)
Lemma Predicate_tree_ind (P : Predicate -> Prop) :
  (forall sql args, P (rawPred sql args)) ->
  (forall col val, P (eqPred col val)) ->
  (forall col val, P (neqPred col val)) ->
  (forall col val, P (gtPred col val)) ->
  (forall col val, P (gtePred col val)) ->
  (forall col val, P (ltPred col val)) ->
  (forall col val, P (ltePred col val)) ->
  (forall col pattern, P (likePred col pattern)) ->
  (forall col pattern, P (ilikePred col pattern)) ->
  (forall col vals, P (inPred col vals)) ->
  (forall col low high, P (betweenPred col low high)) ->
  (forall col, P (isNullPred col)) ->
  (forall col, P (isNotNullPred col)) ->
  (forall preds, Forall P preds -> P (andPred preds)) ->
  (forall preds, Forall P preds -> P (orPred preds)) ->
  (forall pred, P pred -> P (notPred pred)) ->
  forall p, P p.
Proof.
  intros Hraw Heq Hneq Hgt Hgte Hlt Hlte Hlike Hilike Hin Hbetween Hnull
    Hnotnull Hand Hor Hnot.
  fix IH 1. intros [sql args|col val|col val|col val|col val|col val|col val
    |col pat|col pat|col vals|col low high|col|col|preds|preds|pred];
    try (clear IH; auto; fail).
  - apply Hand. induction preds as [|q qs IHqs]; constructor; [apply IH|apply IHqs].
  - apply Hor. induction preds as [|q qs IHqs]; constructor; [apply IH|apply IHqs].
  - apply Hnot, IH.
Qed.

Lemma combine_fold_thread preds : forall parts allArgs cur,
  fold_left (combine_step ToSQL) preds (parts, allArgs, cur) =
  ((parts ++ fragments (thread preds cur))%list,
   (allArgs ++ contributed (thread preds cur))%list,
   final_cursor (thread preds cur) cur).
Proof.
  induction preds as [|p rest IH]; intros parts allArgs cur; simpl.
  - unfold fragments, contributed, final_cursor. simpl.
    by rewrite !app_nil_r.
  - destruct (ToSQL p cur) as [[sql args] next] eqn:E. simpl.
    rewrite IH. unfold fragments, contributed, final_cursor. simpl.
    rewrite <- !app_assoc. simpl. f_equal.
    by rewrite default_last_cons.
Qed.

Lemma thread_advances preds : Forall advances_by_args preds ->
  forall c, is_int c ->
    final_cursor (thread preds c) c = iadd c (len (contributed (thread preds c)))
    /\ is_int (final_cursor (thread preds c) c).
Proof.
  induction 1 as [|p rest Hp Hrest IH]; intros c Hc.
  - unfold final_cursor, contributed. simpl. by rewrite iadd_0_r.
  - simpl. unfold final_cursor, contributed. simpl.
    rewrite default_last_cons.
    specialize (Hp c Hc).
    destruct (ToSQL p c) as [[sql args] next]. simpl in *.
    assert (is_int next) as Hn by (subst next; apply wrap64_is_int).
    destruct (IH next Hn) as [IH1 IH2]. unfold final_cursor, contributed in *.
    split; [|done]. rewrite IH1, Hp, len_app.
    rewrite iadd_assoc. unfold iadd. f_equal. lia.
Qed.

Lemma ToSQL_advances p : advances_by_args p.
Proof.
  induction p as [sql args|col val|col val|col val|col val|col val|col val
    |col pat|col pat|col vals|col low high|col|col|preds IH|preds IH|pred IH]
    using Predicate_tree_ind; intros c Hc; simpl; try done.
  - by rewrite iadd_0_r.
  - by rewrite iadd_0_r.
  - destruct preds as [|p [|q rest]]; simpl.
    + by rewrite iadd_0_r.
    + inversion IH; subst. by apply H1.
    + pose proof (combine_fold_thread (p :: q :: rest) [] [] c) as Hf.
      simpl in Hf. simpl. rewrite Hf.
      destruct (thread_advances (p :: q :: rest) IH c Hc) as [Ht _].
      simpl in *. exact Ht.
  - destruct preds as [|p [|q rest]]; simpl.
    + by rewrite iadd_0_r.
    + inversion IH; subst. by apply H1.
    + pose proof (combine_fold_thread (p :: q :: rest) [] [] c) as Hf.
      simpl in Hf. simpl. rewrite Hf.
      destruct (thread_advances (p :: q :: rest) IH c Hc) as [Ht _].
      simpl in *. exact Ht.
  - specialize (IH c Hc). destruct (ToSQL pred c) as [[sql args] next]. done.
Qed.

(** The renderings of [And]/[Or] over the three shapes of the child list. *)
Lemma combinePredicates_cases preds op c :
  match preds with
  | [] => combinePredicates ToSQL preds op c = (EmptyString, [], c)
  | [p] => combinePredicates ToSQL preds op c = ToSQL p c
  | _ =>
      combinePredicates ToSQL preds op c =
      ("(" +:+ Join (fragments (thread preds c)) (" " +:+ op +:+ " ") +:+ ")",
       contributed (thread preds c),
       final_cursor (thread preds c) c)
  end.
Proof.
  destruct preds as [|p [|q rest]]; [done|done|].
  unfold combinePredicates.
  by rewrite (combine_fold_thread (p :: q :: rest) [] [] c).
Qed.

Lemma contributed_length rs :
  List.length (contributed rs) =
  sum_list (map (fun r => List.length (snd (fst r))) rs).
Proof.
  unfold contributed. induction rs as [|r rs IH]; [done|].
  simpl. by rewrite length_app, IH.
Qed.

(** The digits of a marker denote a natural number. *)
Lemma digits_value_from_nonneg s : forall acc,
  0 <= acc ->
  (forall c, List.In c (list_ascii_of_string s) -> is_digit c = true) ->
  0 <= digits_value_from acc s.
Proof.
  induction s as [|d r IH]; intros acc Hacc Hall; simpl; [done|].
  apply IH.
  - assert (is_digit d = true) as Hd by (apply Hall; simpl; auto).
    unfold is_digit in Hd. unfold digit_val.
    apply andb_prop in Hd as [H1 _]. apply N.leb_le in H1. lia.
  - intros c Hc. apply Hall. simpl. auto.
Qed.

Lemma marker_digits_nonneg s m :
  List.In (Match m) (pieces placeholderRe s) -> 0 <= digits_value (tail1 m).
Proof.
  intros Hm. apply pieces_match_shape in Hm as (d & ds & -> & Hall).
  simpl. apply (digits_value_from_nonneg (String d ds) 0); [done|exact Hall].
Qed.

Lemma marker_numbers_In s m :
  List.In (Match m) (pieces placeholderRe s) ->
  List.In (digits_value (tail1 m)) (marker_numbers s).
Proof.
  unfold marker_numbers. induction (pieces placeholderRe s) as [|p ps IH]; [done|].
  intros [->|H]; simpl; [by left|].
  destruct p; simpl; auto.
Qed.

(** The callback of [rawPred.ToSQL] on a marker whose number fits [int]. *)
Lemma shift_marker_in_range c m :
  digits_value (tail1 m) <= int_max ->
  shift_marker c m = "$" +:+ itoa (wrap64 (digits_value (tail1 m) + c - 1)).
Proof.
  intros Hfit. unfold shift_marker, Atoi.
  apply Z.leb_le in Hfit. rewrite Hfit. simpl fst.
  unfold isub, iadd. by rewrite wrap64_sub_l.
Qed.

(** The shifted number of a marker is the exact sum when that fits [int]. *)
Lemma shifted_number_exact s c n :
  List.In n (marker_numbers s) -> 1 <= c -> n + c - 1 <= int_max ->
  wrap64 (n + c - 1) = n + c - 1.
Proof.
  intros Hn Hc Hfit. apply wrap64_id.
  assert (0 <= n); [|int_bounds].
  unfold marker_numbers in Hn. apply list_elem_of_In in Hn.
  apply list_elem_of_omap in Hn as ([ch|m] & Hin & Hm); [done|].
  inversion Hm; subst. apply (marker_digits_nonneg s).
  by apply list_elem_of_In.
Qed.

(** The callback on a marker whose digits overflow [int]. *)
Lemma shift_marker_overflow c m :
  int_max < digits_value (tail1 m) ->
  snd (Atoi (tail1 m)) = true /\
  shift_marker c m = "$" +:+ itoa (wrap64 (int_max + c - 1)).
Proof.
  intros H. unfold shift_marker, Atoi.
  assert ((digits_value (tail1 m) <=? int_max) = false) as -> by (apply Z.leb_gt; lia).
  split; [done|]. simpl fst. unfold isub, iadd.
  by rewrite wrap64_sub_l.
Qed.

(** *** Clauses *)

Lemma writePredicates_from_thread preds : forall i sb c args,
  writePredicates_from i sb preds c args =
  (sb +:+ (if (0 <? i)%nat then match preds with [] => EmptyString | _ => " AND " end
           else EmptyString)
      +:+ Join (fragments (thread preds c)) " AND ",
   final_cursor (thread preds c) c,
   (args ++ contributed (thread preds c))%list).
Proof.
  induction preds as [|p rest IH]; intros i sb c args.
  - simpl. unfold final_cursor, contributed. simpl.
    rewrite app_nil_r. destruct (0 <? i)%nat; by rewrite !app_empty_r.
  - simpl. destruct (ToSQL p c) as [[sql pArgs] next] eqn:E.
    rewrite IH. unfold final_cursor, contributed, fragments. simpl.
    rewrite default_last_cons, <- app_assoc. do 2 f_equal.
    destruct rest as [|q rest']; simpl thread; simpl map; cbv iota.
    + destruct (0 <? i)%nat; by rewrite ?app_empty_r, ?app_assoc_s.
    + destruct (0 <? i)%nat; by rewrite ?app_assoc_s.
Qed.

Lemma write_where_thread kw preds sb c args :
  write_where kw preds (sb, c, args) =
  (sb +:+ clause_text kw (thread preds c),
   final_cursor (thread preds c) c,
   (args ++ contributed (thread preds c))%list).
Proof.
  unfold write_where. destruct preds as [|p rest].
  - simpl. unfold final_cursor, contributed. simpl.
    by rewrite app_nil_r, app_empty_r.
  - len_positive.
    unfold writePredicates. rewrite writePredicates_from_thread.
    do 2 f_equal. simpl.
    destruct (ToSQL p c) as [[sql a] n]. by rewrite !app_assoc_s.
Qed.

Lemma write_bound_rendering kw bound sb c args :
  write_bound kw bound (sb, c, args) =
  (sb +:+ concat_strings (fragments (bound_rendering kw bound c)),
   final_cursor (bound_rendering kw bound c) c,
   (args ++ contributed (bound_rendering kw bound c))%list).
Proof.
  destruct bound as [n|]; simpl.
  - unfold final_cursor, contributed. simpl. by rewrite app_empty_r.
  - unfold final_cursor, contributed. simpl. by rewrite app_nil_r, app_empty_r.
Qed.

Lemma update_set_renderings sets : forall parts c args,
  fold_left update_set sets (parts, c, args) =
  ((parts ++ fragments (set_renderings sets c))%list,
   final_cursor (set_renderings sets c) c,
   (args ++ contributed (set_renderings sets c))%list).
Proof.
  induction sets as [|s rest IH]; intros parts c args; simpl.
  - unfold final_cursor, contributed. simpl. by rewrite !app_nil_r.
  - rewrite IH. unfold final_cursor, contributed, fragments. simpl.
    by rewrite default_last_cons, <- !app_assoc.
Qed.

Lemma contributed_app rs1 rs2 :
  contributed (rs1 ++ rs2) = (contributed rs1 ++ contributed rs2)%list.
Proof. unfold contributed. by rewrite map_app, concat_app. Qed.

Lemma set_renderings_values sets : forall c,
  contributed (set_renderings sets c) = map set_val sets.
Proof.
  induction sets as [|s rest IH]; intros c; [done|].
  unfold contributed in *. simpl. by rewrite IH.
Qed.

(** *** INSERT rows *)

Lemma final_cursor_app rs1 rs2 c :
  final_cursor (rs1 ++ rs2) c = final_cursor rs2 (final_cursor rs1 c).
Proof.
  unfold final_cursor. rewrite map_app.
  destruct rs2 as [|r rs2]; simpl.
  - by rewrite app_nil_r.
  - rewrite last_app. simpl map.
    by destruct (last_cons_is_Some (snd r) (map snd rs2)) as [y ->].
Qed.

Lemma insert_cell_renderings row : forall phs c args,
  fold_left insert_cell row (phs, c, args) =
  ((phs ++ fragments (row_renderings row c))%list,
   final_cursor (row_renderings row c) c,
   (args ++ contributed (row_renderings row c))%list).
Proof.
  induction row as [|v rest IH]; intros phs c args; simpl.
  - unfold final_cursor, contributed. simpl. by rewrite !app_nil_r.
  - rewrite IH. unfold final_cursor, contributed, fragments. simpl.
    by rewrite default_last_cons, <- !app_assoc.
Qed.

Lemma insert_rows_renderings rows : forall i sb c args,
  insert_rows i rows (sb, c, args) =
  (sb +:+ (if (0 <? i)%nat then match rows with [] => EmptyString | _ => ", " end
           else EmptyString)
      +:+ Join (map row_text (rows_renderings rows c)) ", ",
   final_cursor (concat (rows_renderings rows c)) c,
   (args ++ contributed (concat (rows_renderings rows c)))%list).
Proof.
  induction rows as [|row rest IH]; intros i sb c args.
  - simpl. unfold final_cursor, contributed. simpl.
    rewrite app_nil_r. destruct (0 <? i)%nat; by rewrite !app_empty_r.
  - simpl insert_rows. rewrite insert_cell_renderings. rewrite IH.
    simpl rows_renderings. simpl concat.
    rewrite final_cursor_app, contributed_app, <- app_assoc.
    do 2 f_equal. simpl map. rewrite Join_cons, app_nil_l.
    change (0 <? S i)%nat with true. cbv iota.
    fold (row_text (row_renderings row c)).
    destruct rest as [|row' rest']; simpl rows_renderings; simpl map; cbv iota.
    + destruct (0 <? i)%nat; by rewrite ?app_empty_r, ?app_assoc_s.
    + destruct (0 <? i)%nat; by rewrite ?app_assoc_s.
Qed.

Lemma row_renderings_values row : forall c,
  contributed (row_renderings row c) = row.
Proof.
  induction row as [|v rest IH]; intros c; [done|].
  unfold contributed in *. simpl. by rewrite IH.
Qed.

Lemma rows_renderings_values rows : forall c,
  contributed (concat (rows_renderings rows c)) = concat rows.
Proof.
  induction rows as [|row rest IH]; intros c; [done|].
  simpl. by rewrite contributed_app, row_renderings_values, IH.
Qed.

Lemma InsertBuilder_Build_renderings b :
  InsertBuilder_Build b =
  (((insert_head b
     +:+ Join (map row_text (rows_renderings (ins_values b) 1)) ", ")
    +:+ conflict_text (ins_onConflict b))
   +:+ list_text " RETURNING " (ins_returning b),
   contributed (concat (rows_renderings (ins_values b) 1))).
Proof.
  unfold InsertBuilder_Build. rewrite insert_rows_renderings.
  rewrite write_list_text. simpl app. f_equal. f_equal.
  change (0 <? 0)%nat with false. cbv iota.
  unfold insert_head, conflict_text.
  destruct (ins_columns b) as [|x xs].
  - change (0 <? len []) with false. cbv iota.
    destruct (ins_onConflict b) as [|a r].
    + rewrite bool_decide_eq_false_2 by (intros H; by apply H).
      by normalize_text.
    + rewrite bool_decide_eq_true_2 by done.
      by normalize_text.
  - len_positive.
    destruct (ins_onConflict b) as [|a r].
    + rewrite bool_decide_eq_false_2 by (intros H; by apply H).
      by normalize_text.
    + rewrite bool_decide_eq_true_2 by done.
      by normalize_text.
Qed.

(** The values of an INSERT are its rows, row after row. *)
Lemma InsertBuilder_Build_values b :
  snd (InsertBuilder_Build b) = concat (ins_values b).
Proof.
  rewrite InsertBuilder_Build_renderings. simpl.
  apply rows_renderings_values.
Qed.

End PositionalFacts.

(** ** Named predicates and the bridge *)

Module NamedFacts.
Import Named.

(** Copying the entries of [src] into [dst] in the order the map is
    ranged over gives the union in which [src] wins. *)
Lemma mergeArgs_union dst src : mergeArgs dst src = src ∪ dst.
Proof.
  unfold mergeArgs.
  apply (map_fold_weak_ind (fun r m => r = m ∪ dst)).
  - by rewrite (left_id_L ∅ (∪)).
  - intros k v m r Hk ->. by rewrite insert_union_l.
Qed.


Lemma named_combine_fold_thread preds : forall parts allArgs counter,
  fold_left (combine_step ToSQL) preds (parts, allArgs, counter) =
  ((parts ++ fragments (thread preds counter))%list,
   merged (thread preds counter) allArgs,
   final_counter (thread preds counter) counter).
Proof.
  induction preds as [|p rest IH]; intros parts allArgs counter; simpl.
  - unfold fragments, merged, final_counter. simpl. by rewrite app_nil_r.
  - destruct (ToSQL p counter) as [[sql args] next] eqn:E. simpl.
    rewrite IH. unfold fragments, merged, final_counter. simpl.
    rewrite <- !app_assoc. simpl. rewrite mergeArgs_union.
    by rewrite default_last_cons.
Qed.

Lemma named_combinePredicates_cases preds op c :
  match preds with
  | [] => combinePredicates ToSQL preds op c = (EmptyString, ∅, c)
  | [p] => combinePredicates ToSQL preds op c = ToSQL p c
  | _ =>
      combinePredicates ToSQL preds op c =
      ("(" +:+ Join (fragments (thread preds c)) (" " +:+ op +:+ " ") +:+ ")",
       merged (thread preds c) ∅,
       final_counter (thread preds c) c)
  end.
Proof.
  destruct preds as [|p [|q rest]]; [done|done|].
  unfold combinePredicates.
  by rewrite (named_combine_fold_thread (p :: q :: rest) [] ∅ c).
Qed.

Lemma map_union_size_le (m1 m2 : gmap string value) :
  (size (m1 ∪ m2) <= size m1 + size m2)%nat.
Proof.
  rewrite <- !(size_dom (D:=gset string)), dom_union_L, size_union_alt.
  pose proof (subseteq_size (dom m2 ∖ dom m1) (dom m2)) as Hsub.
  assert (dom m2 ∖ dom m1 ⊆ dom m2) as Hd by (apply subseteq_difference_l; done).
  specialize (Hsub Hd). lia.
Qed.

(** The merged map has at most as many entries as the children supplied. *)
Lemma merged_size_le rs : forall start,
  (size (merged rs start) <=
   size start + sum_list (map (fun r => size (snd (fst r))) rs))%nat.
Proof.
  induction rs as [|r rs IH]; intros start; simpl; [lia|].
  unfold merged in *. simpl. etrans; [apply IH|].
  pose proof (map_union_size_le (snd (fst r)) start) as H.
  lia.
Qed.

Lemma merged_size_apart rs : forall start,
  names_apart rs start ->
  size (merged rs start) =
  (size start + sum_list (map (fun r => size (snd (fst r))) rs))%nat.
Proof.
  induction rs as [|r rs IH]; intros start; simpl; [lia|].
  intros [Hd Hrest]. unfold merged in *. simpl. rewrite IH by done.
  rewrite map_size_disj_union by done. lia.
Qed.

(** *** The bridge *)

Lemma extend_names_cons known n names :
  extend_names known (n :: names) =
  extend_names (if decide (n ∈ known) then known else (known ++ [n])%list) names.
Proof. reflexivity. Qed.

Lemma extend_names_prefix names : forall known,
  exists more, extend_names known names = (known ++ more)%list.
Proof.
  induction names as [|n names IH]; intros known.
  - exists []. by rewrite app_nil_r.
  - rewrite extend_names_cons. destruct (decide (n ∈ known)).
    + apply IH.
    + destruct (IH (known ++ [n])%list) as [more ->].
      exists (n :: more). by rewrite <- app_assoc.
Qed.

Lemma extend_names_NoDup names : forall known,
  NoDup known -> NoDup (extend_names known names).
Proof.
  induction names as [|n names IH]; intros known Hnd; [done|].
  rewrite extend_names_cons. apply IH. destruct (decide (n ∈ known)); [done|].
  apply NoDup_app. split_and!; [done| |apply NoDup_singleton].
  intros x Hx Hx'. apply list_elem_of_singleton in Hx'. by subst.
Qed.

Lemma extend_names_elem names : forall known n,
  n ∈ extend_names known names <-> n ∈ known \/ n ∈ names.
Proof.
  induction names as [|x names IH]; intros known n.
  - simpl. split; [auto|]. intros [H|H]; [done|]. by apply elem_of_nil in H.
  - rewrite extend_names_cons, IH, elem_of_cons.
    destruct (decide (x ∈ known)) as [Hx|Hx].
    + split; [tauto|]. intros [H|[->|H]]; auto.
    + rewrite elem_of_app, list_elem_of_singleton. tauto.
Qed.

Lemma index_of_app_in n l l' : n ∈ l -> index_of n (l ++ l') = index_of n l.
Proof.
  induction l as [|x l IH]; intros Hin; [by apply elem_of_nil in Hin|].
  simpl. destruct (decide (x = n)); [done|].
  f_equal. apply IH. apply elem_of_cons in Hin as [->|]; done.
Qed.

Lemma index_of_app_notin n l : n ∉ l -> index_of n (l ++ [n]) = List.length l.
Proof.
  induction l as [|x l IH]; intros Hin; simpl.
  - by rewrite decide_True.
  - apply not_elem_of_cons in Hin as [Hne Hin].
    rewrite decide_False by done. f_equal. by apply IH.
Qed.

Lemma index_of_app_out n l l' :
  n ∉ l -> index_of n (l ++ l') = (List.length l + index_of n l')%nat.
Proof.
  induction l as [|x l IH]; intros Hin; [done|].
  apply not_elem_of_cons in Hin as [Hne Hin].
  simpl. rewrite decide_False by done. by rewrite IH.
Qed.

Lemma index_of_cons_ne n x l : x <> n -> index_of n (x :: l) = S (index_of n l).
Proof. intros Hne. simpl. by rewrite decide_False. Qed.

(** Names not met before are placed in the order in which they first occur
    in the list. *)
Lemma extend_names_order names : forall known a b,
  a ∉ known -> b ∉ known -> a ∈ names -> b ∈ names ->
  (index_of a (extend_names known names) < index_of b (extend_names known names)
   <-> index_of a names < index_of b names)%nat.
Proof.
  induction names as [|x names IH]; intros known a b Ha Hb Hina Hinb.
  { by apply elem_of_nil in Hina. }
  rewrite extend_names_cons. destruct (decide (x ∈ known)) as [Hx|Hx].
  - assert (x <> a) as Hxa by (intros ->; done).
    assert (x <> b) as Hxb by (intros ->; done).
    rewrite !index_of_cons_ne by done.
    apply elem_of_cons in Hina as [->|Hina]; [done|].
    apply elem_of_cons in Hinb as [->|Hinb]; [done|].
    rewrite (IH known a b) by done. lia.
  - destruct (extend_names_prefix names (known ++ [x])%list) as [more Hmore].
    rewrite Hmore.
    assert (index_of x ((known ++ [x]) ++ more) = List.length known) as Hix.
    { rewrite index_of_app_in by (apply elem_of_app; right; by apply list_elem_of_singleton).
      by apply index_of_app_notin. }
    assert (forall n, n ∉ known -> n <> x ->
              (List.length known < index_of n ((known ++ [x]) ++ more))%nat) as Hlate.
    { intros n Hn Hnx. rewrite index_of_app_out.
      - rewrite length_app. simpl. lia.
      - rewrite elem_of_app, list_elem_of_singleton. tauto. }
    assert (index_of x (x :: names) = 0%nat) as Hx0
      by (simpl; by rewrite decide_True).
    destruct (decide (x = a)) as [Hxa|Hxa]; destruct (decide (x = b)) as [Hxb|Hxb].
    + subst a b. lia.
    + subst a. rewrite Hix, Hx0. rewrite index_of_cons_ne by done.
      pose proof (Hlate b Hb (not_eq_sym Hxb)). lia.
    + subst b. rewrite Hix, Hx0.
      pose proof (Hlate a Ha (not_eq_sym Hxa)). lia.
    + rewrite !index_of_cons_ne by done. rewrite <- Hmore.
      apply elem_of_cons in Hina as [->|Hina]; [done|].
      apply elem_of_cons in Hinb as [->|Hinb]; [done|].
      rewrite (IH (known ++ [x])%list a b); [lia| | |done|done];
        rewrite elem_of_app, list_elem_of_singleton; intros [?|?]; by subst.
Qed.

Lemma first_occurrences_order names a b :
  a ∈ names -> b ∈ names ->
  (position (first_occurrences names) a < position (first_occurrences names) b
   <-> (index_of a names < index_of b names)%nat).
Proof.
  intros Ha Hb. unfold position, first_occurrences.
  rewrite <- (extend_names_order names [] a b); [lia| | |done|done];
    apply not_elem_of_nil.
Qed.

(** In a list without repetition, the name at index [i] has position
    [i + 1]. *)
Lemma position_lookup names i n :
  NoDup names -> names !! i = Some n -> position names n = Z.of_nat i + 1.
Proof.
  unfold position. intros Hnd Hi. f_equal. f_equal.
  revert i Hi. induction Hnd as [|x l Hx Hnd IH]; intros i Hi; [done|].
  destruct i as [|i]; simpl in *.
  - inversion Hi; subst. by rewrite decide_True.
  - rewrite decide_False; [f_equal; by apply IH|].
    intros ->. apply Hx. by eapply list_elem_of_lookup_2.
Qed.

Lemma replace_pieces_bridge named ps : forall st known,
  bridge_inv named st known ->
  len known + len ps <= int_max ->
  exists st',
    replace_pieces (bridge_callback named) ps st =
      (concat_strings (map (positioned (extend_names known (piece_names ps))) ps), st')
    /\ bridge_inv named st' (extend_names known (piece_names ps)).
Proof.
  induction ps as [|[c|m] ps IH]; intros st known Hinv Hlen.
  - exists st. by split.
  - destruct (IH st known Hinv) as (st' & Heq & Hinv').
    { unfold len in *. simpl in Hlen. lia. }
    exists st'. simpl. rewrite Heq. by split.
  - simpl piece_names. rewrite extend_names_cons.
    destruct Hinv as (Hargs & Hcnt & Hseen).
    simpl replace_pieces. unfold bridge_callback at 1.
    rewrite (Hseen (tail1 m)).
    destruct (decide (tail1 m ∈ known)) as [Hin|Hnin].
    + destruct (IH st known) as (st' & Heq & Hinv'); [by split_and!| |].
      { unfold len in *. simpl in Hlen. lia. }
      rewrite Heq. exists st'. split; [|done].
      simpl. do 3 f_equal.
      destruct (extend_names_prefix (piece_names ps) known) as [more ->].
      unfold position. by rewrite index_of_app_in.
    + assert (iadd (bcounter st) 1 = len known + 1) as Hc.
      { rewrite Hcnt. apply iadd_exact. unfold is_int, int_min, len in *.
        simpl in Hlen. lia. }
      rewrite Hc.
      set (st1 := mk_bridge_state _ _ _).
      destruct (IH st1 (known ++ [tail1 m])%list) as (st' & Heq & Hinv').
      { subst st1. split_and!; simpl.
        - by rewrite Hargs, map_app.
        - rewrite len_app. unfold len. simpl. lia.
        - intros n. destruct (decide (n = tail1 m)) as [->|Hne].
          + rewrite lookup_insert_eq.
            rewrite decide_True by (apply elem_of_app; right; by apply list_elem_of_singleton).
            unfold position. rewrite index_of_app_notin by done.
            unfold len. done.
          + rewrite lookup_insert_ne by done. rewrite Hseen.
            destruct (decide (n ∈ known)) as [Hk|Hk].
            * rewrite decide_True by (apply elem_of_app; by left).
              unfold position. by rewrite index_of_app_in.
            * rewrite decide_False; [done|].
              rewrite elem_of_app, list_elem_of_singleton. tauto. }
      { rewrite len_app. unfold len in *. simpl in *. lia. }
      rewrite Heq. exists st'. split; [|done].
      simpl. do 3 f_equal.
      destruct (extend_names_prefix (piece_names ps) (known ++ [tail1 m])%list)
        as [more ->].
      unfold position.
      rewrite index_of_app_in by (apply elem_of_app; right; by apply list_elem_of_singleton).
      rewrite index_of_app_notin by done. unfold len. done.
Qed.

Lemma bridge_inv_init named : bridge_inv named (mk_bridge_state ∅ [] 0) [].
Proof.
  split_and!; [done|done|]. intros n. simpl.
  rewrite lookup_empty. destruct (decide (n ∈ [])) as [H|H]; [|done].
  by apply elem_of_nil in H.
Qed.

(** With a non-empty mapping the bridge returns the text with its markers
    replaced by the positions of their names, and the values of the
    distinct names in first-occurrence order, [nil] for a missing name. *)
Lemma namedToPositional_nonempty query named :
  size named <> 0%nat ->
  Z.of_nat (String.length query) <= int_max ->
  namedToPositional query named =
  (bridge_text query,
   map (index_map named) (first_occurrences (marker_names query))).
Proof.
  intros Hne Hlen. unfold namedToPositional.
  rewrite bool_decide_eq_false_2 by done.
  unfold ReplaceAllStringFuncSt.
  destruct (replace_pieces_bridge named (pieces namedParamRe query)
              (mk_bridge_state ∅ [] 0) [] (bridge_inv_init named))
    as (st' & Heq & Hargs & _).
  { pose proof (pieces_length namedParamRe query). unfold len. simpl. lia. }
  rewrite Heq. by rewrite Hargs.
Qed.

Lemma marker_names_In query m :
  List.In (Match m) (pieces namedParamRe query) -> tail1 m ∈ marker_names query.
Proof.
  unfold marker_names. induction (pieces namedParamRe query) as [|p ps IH]; [done|].
  intros [->|H]; simpl; [by left|].
  destruct p; simpl; [auto|right; auto].
Qed.

Lemma namedToPositional_empty query :
  namedToPositional query ∅ = (query, []).
Proof. reflexivity. Qed.

(** A text without markers passes the bridge unchanged. *)
Lemma bridge_text_no_marker query :
  marker_names query = [] -> bridge_text query = query.
Proof.
  intros H. unfold bridge_text. apply ReplaceAllStringFunc_no_match.
  intros m Hm. apply marker_names_In in Hm. rewrite H in Hm.
  by apply elem_of_nil in Hm.
Qed.

(** When every name of the text has an entry, the early return for an
    empty mapping agrees with the general description. *)
Lemma namedToPositional_covered query named :
  Z.of_nat (String.length query) <= int_max ->
  (forall n, n ∈ marker_names query -> is_Some (named !! n)) ->
  namedToPositional query named =
  (bridge_text query,
   map (index_map named) (first_occurrences (marker_names query))).
Proof.
  intros Hlen Hcov. destruct (decide (size named = 0%nat)) as [Hz|Hnz].
  - apply map_size_empty_inv in Hz. subst named.
    assert (marker_names query = []) as Hnil.
    { destruct (marker_names query) as [|n ns]; [done|].
      destruct (Hcov n) as [v Hv]; [by left|]. by rewrite lookup_empty in Hv. }
    rewrite namedToPositional_empty, bridge_text_no_marker by done.
    by rewrite Hnil.
  - by apply namedToPositional_nonempty.
Qed.

Lemma first_occurrences_NoDup names : NoDup (first_occurrences names).
Proof. apply extend_names_NoDup. constructor. Qed.

Lemma first_occurrences_elem names n :
  n ∈ first_occurrences names <-> n ∈ names.
Proof.
  unfold first_occurrences. rewrite extend_names_elem.
  split; [|auto]. intros [H|H]; [by apply elem_of_nil in H|done].
Qed.

(** *** Clauses *)

Lemma named_writePredicates_from_thread preds : forall i sb c args,
  writePredicates_from i sb preds c args =
  (sb +:+ (if (0 <? i)%nat then match preds with [] => EmptyString | _ => " AND " end
           else EmptyString)
      +:+ Join (fragments (thread preds c)) " AND ",
   final_counter (thread preds c) c,
   merged (thread preds c) args).
Proof.
  induction preds as [|p rest IH]; intros i sb c args.
  - simpl. unfold final_counter, merged. simpl.
    destruct (0 <? i)%nat; by rewrite !app_empty_r.
  - simpl. destruct (ToSQL p c) as [[sql pArgs] next] eqn:E.
    rewrite IH. unfold final_counter, merged, fragments. simpl.
    rewrite default_last_cons, mergeArgs_union. do 2 f_equal.
    destruct rest as [|q rest']; simpl thread; simpl map; cbv iota.
    + destruct (0 <? i)%nat; by rewrite ?app_empty_r, ?app_assoc_s.
    + destruct (0 <? i)%nat; by rewrite ?app_assoc_s.
Qed.

Lemma named_write_where_thread kw preds sb c args :
  write_where kw preds (sb, c, args) =
  (sb +:+ clause_text kw (thread preds c),
   final_counter (thread preds c) c,
   merged (thread preds c) args).
Proof.
  unfold write_where. destruct preds as [|p rest].
  - simpl. unfold final_counter, merged. simpl. by rewrite app_empty_r.
  - len_positive.
    unfold writePredicates. rewrite named_writePredicates_from_thread.
    do 2 f_equal. simpl.
    destruct (ToSQL p c) as [[sql a] n]. by rewrite !app_assoc_s.
Qed.

Lemma named_write_bound_rendering kw bound sb c args :
  write_bound kw bound (sb, c, args) =
  (sb +:+ concat_strings (fragments (bound_rendering kw bound c)),
   final_counter (bound_rendering kw bound c) c,
   merged (bound_rendering kw bound c) args).
Proof.
  destruct bound as [n|]; simpl.
  - unfold final_counter, merged. simpl.
    by rewrite app_empty_r, insert_union_singleton_l.
  - unfold final_counter, merged. simpl. by rewrite app_empty_r.
Qed.

Lemma named_update_set_renderings sets : forall parts c args,
  fold_left update_set sets (parts, c, args) =
  ((parts ++ fragments (set_renderings sets c))%list,
   final_counter (set_renderings sets c) c,
   merged (set_renderings sets c) args).
Proof.
  induction sets as [|s rest IH]; intros parts c args; simpl.
  - unfold final_counter, merged. simpl. by rewrite !app_nil_r.
  - rewrite IH. unfold final_counter, merged, fragments. simpl.
    by rewrite default_last_cons, <- !app_assoc, insert_union_singleton_l.
Qed.

Lemma merged_app rs1 rs2 start :
  merged (rs1 ++ rs2) start = merged rs2 (merged rs1 start).
Proof. unfold merged. by rewrite fold_left_app. Qed.

End NamedFacts.

(** ** The repository's tests on the embedding *)

Module PositionalTests.
Import Positional.

Example TestSelectComplex :
  Build (sel_Limit 10
          (sel_OrderBy "order_count" Desc
            (sel_Having [Gt "COUNT(o.id)" (VInt 2)]
              (sel_GroupBy ["u.name"]
                (sel_Where [Eq "u.active" (VBool true); Gte "o.total" (VInt 100)]
                  (sel_InnerJoin "orders o" "u.id" "o.user_id"
                    (sel_From "users u"
                      (Select ["u.name"; "COUNT(o.id) AS order_count"])))))))) =
  ("SELECT u.name, COUNT(o.id) AS order_count FROM users u " +:+
   "INNER JOIN orders o ON u.id = o.user_id " +:+
   "WHERE u.active = $1 AND o.total >= $2 " +:+
   "GROUP BY u.name " +:+
   "HAVING COUNT(o.id) > $3 " +:+
   "ORDER BY order_count DESC " +:+
   "LIMIT $4",
   [VBool true; VInt 100; VInt 2; VInt 10]).
Proof. by vm_compute. Qed.

Example TestSelectLimitOffset :
  Build (sel_Offset 40 (sel_Limit 20
          (sel_OrderBy "created" Desc (sel_From "logs" (Select ["*"]))))) =
  ("SELECT * FROM logs ORDER BY created DESC LIMIT $1 OFFSET $2",
   [VInt 20; VInt 40]).
Proof. by vm_compute. Qed.

Example TestInsertMultipleRows :
  Build (ins_Values [VStr "Bob"; VStr "bob@example.com"]
          (ins_Values [VStr "Alice"; VStr "alice@example.com"]
            (ins_Columns ["name"; "email"] (InsertInto "users")))) =
  ("INSERT INTO users (name, email) VALUES ($1, $2), ($3, $4)",
   [VStr "Alice"; VStr "alice@example.com"; VStr "Bob"; VStr "bob@example.com"]).
Proof. by vm_compute. Qed.

Example TestInsertOnConflictWithReturning :
  Build (ins_Returning ["id"]
          (ins_OnConflict "(email) DO UPDATE SET name = EXCLUDED.name"
            (ins_Values [VStr "a@b.com"; VStr "Alice"]
              (ins_Columns ["email"; "name"] (InsertInto "users"))))) =
  ("INSERT INTO users (email, name) VALUES ($1, $2) ON CONFLICT (email) DO UPDATE SET name = EXCLUDED.name RETURNING id",
   [VStr "a@b.com"; VStr "Alice"]).
Proof. by vm_compute. Qed.

Example TestPredicateIn :
  ToSQL (In "status" [VStr "active"; VStr "pending"; VStr "review"]) 1 =
  ("status IN ($1, $2, $3)", [VStr "active"; VStr "pending"; VStr "review"], 4).
Proof. by vm_compute. Qed.

Example TestPredicateIsNull :
  ToSQL (IsNull "deleted_at") 5 = ("deleted_at IS NULL", [], 5).
Proof. by vm_compute. Qed.

Example TestPredicateNestedOrAnd :
  ToSQL (And [Eq "a" (VInt 1); Or [Eq "b" (VInt 2); Eq "c" (VInt 3)]]) 1 =
  ("(a = $1 AND (b = $2 OR c = $3))", [VInt 1; VInt 2; VInt 3], 4).
Proof. by vm_compute. Qed.

Example TestRawPredicateWithOffset :
  ToSQL (Raw "follower_id = $1 AND following_id = $2" [VInt 10; VInt 20]) 5 =
  ("follower_id = $5 AND following_id = $6", [VInt 10; VInt 20], 7).
Proof. by vm_compute. Qed.

Example TestRawPredicateInWhere :
  Build (sel_Where [Eq "active" (VBool true);
                    Raw "age BETWEEN $1 AND $2" [VInt 18; VInt 65]]
          (sel_From "users" (Select ["id"; "name"]))) =
  ("SELECT id, name FROM users WHERE active = $1 AND age BETWEEN $2 AND $3",
   [VBool true; VInt 18; VInt 65]).
Proof. by vm_compute. Qed.

Example TestToSQLDebug :
  ToSQL_debug (sel_Limit 10
                (sel_Where [Eq "name" (VStr "Alice"); Gt "age" (VInt 18)]
                  (sel_From "users" (Select ["uuid"; "name"])))) =
  "SELECT uuid, name FROM users WHERE name = 'Alice' AND age > 18 LIMIT 10".
Proof. by vm_compute. Qed.

Example TestToSQLDebugWithBool :
  ToSQL_debug (upd_Where [Eq "uuid" (VStr "abc")]
                (upd_Set "active" (VBool true) (Update "users"))) =
  "UPDATE users SET active = TRUE WHERE uuid = 'abc'".
Proof. by vm_compute. Qed.

Example TestSelectDistinct :
  fst (Build (sel_Distinct (sel_From "users" (Select ["name"])))) =
  "SELECT DISTINCT name FROM users".
Proof. by vm_compute. Qed.

Example TestSelectWithMultipleJoins :
  fst (Build (sel_LeftJoin "payments p" "o.id" "p.order_id"
               (sel_InnerJoin "orders o" "u.id" "o.user_id"
                 (sel_From "users u" (Select ["u.name"; "o.total"; "p.method"]))))) =
  "SELECT u.name, o.total, p.method FROM users u INNER JOIN orders o ON u.id = o.user_id LEFT JOIN payments p ON o.id = p.order_id".
Proof. by vm_compute. Qed.

Example TestUpdateSimple :
  Build (upd_Where [Eq "uuid" (VStr "abc-123")]
          (upd_Set "email" (VStr "bob@new.com")
            (upd_Set "name" (VStr "Bob") (Update "users")))) =
  ("UPDATE users SET name = $1, email = $2 WHERE uuid = $3",
   [VStr "Bob"; VStr "bob@new.com"; VStr "abc-123"]).
Proof. by vm_compute. Qed.

Example TestDeleteReturning :
  fst (Build (del_Returning ["user_id"]
               (del_Where [Lt "expires_at" (VStr "now()")]
                 (DeleteFrom "sessions")))) =
  "DELETE FROM sessions WHERE expires_at < $1 RETURNING user_id".
Proof. by vm_compute. Qed.

Example TestDeleteNoWhere :
  Build (DeleteFrom "temp_data") = ("DELETE FROM temp_data", []).
Proof. by vm_compute. Qed.

Example TestPredicateNot :
  ToSQL (Not (Eq "deleted" (VBool true))) 1 =
  ("NOT (deleted = $1)", [VBool true], 2).
Proof. by vm_compute. Qed.

Example TestRawPredicateNoArgs :
  ToSQL (Raw "created_at > now() - interval '1 day'" []) 1 =
  ("created_at > now() - interval '1 day'", [], 1).
Proof. by vm_compute. Qed.

Example TestToSQLDebugWithNull :
  ToSQL_debug (sel_Where [Eq "x" VNil] (sel_From "t" (Select ["*"]))) =
  "SELECT * FROM t WHERE x = NULL".
Proof. by vm_compute. Qed.

Example TestToSQLDebugInsert :
  ToSQL_debug (ins_Values [VStr "Alice"; VInt 30]
                (ins_Columns ["name"; "age"] (InsertInto "users"))) =
  "INSERT INTO users (name, age) VALUES ('Alice', 30)".
Proof. by vm_compute. Qed.

End PositionalTests.

Module NamedTests.
Import Named.

Example TestSelectComplex_named :
  Build (sel_Limit 10
          (sel_OrderBy "order_count" Desc
            (sel_Having [Gt "COUNT(o.id)" (VInt 2)]
              (sel_GroupBy ["u.name"]
                (sel_Where [Eq "u.active" (VBool true); Gte "o.total" (VInt 100)]
                  (sel_InnerJoin "orders o" "u.id" "o.user_id"
                    (sel_From "users u"
                      (Select ["u.name"; "COUNT(o.id) AS order_count"])))))))) =
  ("SELECT u.name, COUNT(o.id) AS order_count FROM users u " +:+
   "INNER JOIN orders o ON u.id = o.user_id " +:+
   "WHERE u.active = @p1 AND o.total >= @p2 " +:+
   "GROUP BY u.name " +:+
   "HAVING COUNT(o.id) > @p3 " +:+
   "ORDER BY order_count DESC " +:+
   "LIMIT @p4",
   {[ "p1" := VBool true; "p2" := VInt 100; "p3" := VInt 2; "p4" := VInt 10 ]}).
Proof. by vm_compute. Qed.

Example TestUpdateSimple_named :
  Build (upd_Where [Eq "uuid" (VStr "abc-123")]
          (upd_Set "email" (VStr "bob@new.com")
            (upd_Set "name" (VStr "Bob") (Update "users")))) =
  ("UPDATE users SET name = @p1, email = @p2 WHERE uuid = @p3",
   {[ "p1" := VStr "Bob"; "p2" := VStr "bob@new.com"; "p3" := VStr "abc-123" ]}).
Proof. by vm_compute. Qed.

Example TestPredicateIn_named :
  ToSQL (In "status" [VStr "active"; VStr "pending"; VStr "review"]) 0 =
  ("status IN (@p1, @p2, @p3)",
   {[ "p1" := VStr "active"; "p2" := VStr "pending"; "p3" := VStr "review" ]}, 3).
Proof. by vm_compute. Qed.

Example TestPredicateNestedOrAnd_named :
  ToSQL (And [Eq "a" (VInt 1); Or [Eq "b" (VInt 2); Eq "c" (VInt 3)]]) 0 =
  ("(a = @p1 AND (b = @p2 OR c = @p3))",
   {[ "p1" := VInt 1; "p2" := VInt 2; "p3" := VInt 3 ]}, 3).
Proof. by vm_compute. Qed.

Example TestRawPredicateInWhere_named :
  Build (sel_Where [Eq "active" (VBool true);
                    Raw "age BETWEEN @low AND @high"
                      {[ "low" := VInt 18; "high" := VInt 65 ]}]
          (sel_From "users" (Select ["id"; "name"]))) =
  ("SELECT id, name FROM users WHERE active = @p1 AND age BETWEEN @low AND @high",
   {[ "p1" := VBool true; "low" := VInt 18; "high" := VInt 65 ]}).
Proof. by vm_compute. Qed.

Example TestNamedToPositional :
  NamedToPositional "SELECT * FROM users WHERE name = @name AND age > @age"
    {[ "name" := VStr "Alice"; "age" := VInt 18 ]} =
  ("SELECT * FROM users WHERE name = $1 AND age > $2", [VStr "Alice"; VInt 18]).
Proof. by vm_compute. Qed.

Example TestNamedToPositionalReused :
  NamedToPositional "SELECT * FROM t WHERE a = @id OR b = @id"
    {[ "id" := VInt 42 ]} =
  ("SELECT * FROM t WHERE a = $1 OR b = $1", [VInt 42]).
Proof. by vm_compute. Qed.

Example TestToSQLDebugEscapeQuotes_named :
  ToSQL_debug (sel_Where [Eq "name" (VStr "O'Brien")]
                (sel_From "t" (Select ["*"]))) =
  "SELECT * FROM t WHERE name = 'O''Brien'".
Proof. by vm_compute. Qed.

Example TestPredicateBetween_named :
  ToSQL (Between "age" (VInt 18) (VInt 65)) 0 =
  ("age BETWEEN @p1 AND @p2", {[ "p1" := VInt 18; "p2" := VInt 65 ]}, 2).
Proof. by vm_compute. Qed.

Example TestRawPredicateReusedParam_named :
  ToSQL (Raw "(sender_id = @id OR receiver_id = @id)" {[ "id" := VInt 42 ]}) 0 =
  ("(sender_id = @id OR receiver_id = @id)", {[ "id" := VInt 42 ]}, 0).
Proof. by vm_compute. Qed.

Example TestDeleteSimple_named :
  Build (del_Where [Eq "uuid" (VStr "abc-123")] (DeleteFrom "users")) =
  ("DELETE FROM users WHERE uuid = @p1", {[ "p1" := VStr "abc-123" ]}).
Proof. by vm_compute. Qed.

End NamedTests.

(** * The claims *)

(** ** C9 *)

(** C9: a positional rendering returns the offset it was given plus the
    number of values it returns, the sum being that of Go's [int]
    (and the exact sum whenever that fits [int]); [IsNull] and [IsNotNull]
    return no value and the offset they were given. *)
Theorem positional_offset_counts_values (p : Positional.Predicate) (c : Z) :
  is_int c ->
  let '(sql, args, newOffset) := Positional.ToSQL p c in
  newOffset = iadd c (len args) /\
  (c + len args <= int_max -> newOffset = c + len args) /\
  (forall col, p = Positional.IsNull col \/ p = Positional.IsNotNull col ->
     args = [] /\ newOffset = c).
Proof.
  intros Hc. pose proof (PositionalFacts.ToSQL_advances p c Hc) as H.
  destruct (Positional.ToSQL p c) as [[sql args] newOffset] eqn:E.
  simpl in H. split_and!.
  - exact H.
  - intros Hfit. rewrite H. apply iadd_exact.
    pose proof (len_nonneg args). unfold is_int in *. lia.
  - intros col [->| ->]; simpl in E; by inversion E.
Qed.

Lemma positional_offset_counts_values_witness :
  is_int 4 /\
  let '(sql, args, newOffset) :=
    Positional.ToSQL (Positional.In "id" [VInt 7; VInt 8; VInt 9]) 4 in
  newOffset = iadd 4 (len args) /\
  (4 + len args <= int_max -> newOffset = 4 + len args) /\
  (forall col, Positional.In "id" [VInt 7; VInt 8; VInt 9] = Positional.IsNull col \/
               Positional.In "id" [VInt 7; VInt 8; VInt 9] = Positional.IsNotNull col ->
     args = [] /\ newOffset = 4).
Proof.
  split; [int_bounds|].
  apply (positional_offset_counts_values
           (Positional.In "id" [VInt 7; VInt 8; VInt 9]) 4).
  int_bounds.
Defined.

(** ** C3 *)

(** C3 (as amended): for a positional [Raw] with fragment [s] and arguments
    [vs], when the number [n] of every marker [$n] of [s] fits [int], every
    marker [$n] is replaced by [$(n + c - 1)], the arguments returned are
    exactly [vs] and the offset returned is [c + len(vs)], both sums taken
    in [int]; they are the exact sums whenever those fit [int] (and
    [c >= 1]); two markers that denote the same number are replaced by the
    same text. *)
Theorem raw_markers_shifted (s : string) (vs : list value) (c : Z) :
  is_int c ->
  (forall n, List.In n (Positional.marker_numbers s) -> n <= int_max) ->
  Positional.ToSQL (Positional.Raw s vs) c =
    (Positional.shifted_fragment s c, vs, iadd c (len vs)) /\
  (forall n, List.In n (Positional.marker_numbers s) ->
     1 <= c -> n + c - 1 <= int_max -> wrap64 (n + c - 1) = n + c - 1) /\
  (c + len vs <= int_max -> iadd c (len vs) = c + len vs) /\
  (forall m1 m2, digits_value (tail1 m1) = digits_value (tail1 m2) ->
     Positional.shift_marker c m1 = Positional.shift_marker c m2).
Proof.
  intros Hint Hfit. split_and!.
  - simpl. do 2 f_equal. unfold Positional.shifted_fragment.
    apply ReplaceAllStringFunc_ext. intros m Hm.
    apply PositionalFacts.shift_marker_in_range.
    apply Hfit. by apply PositionalFacts.marker_numbers_In.
  - intros n Hn Hc Hn'. by eapply PositionalFacts.shifted_number_exact.
  - intros Hsum. apply iadd_exact. pose proof (len_nonneg vs).
    unfold is_int in *. lia.
  - intros m1 m2 Heq. unfold Positional.shift_marker, Atoi. by rewrite Heq.
Qed.

Lemma raw_markers_shifted_witness :
  is_int 3 /\
  (forall n,
     List.In n (Positional.marker_numbers "(sender_id = $1 OR receiver_id = $1)") ->
     n <= int_max) /\
  Positional.ToSQL
    (Positional.Raw "(sender_id = $1 OR receiver_id = $1)" [VInt 42]) 3 =
  ("(sender_id = $3 OR receiver_id = $3)", [VInt 42], 4).
Proof.
  assert (forall n,
    List.In n (Positional.marker_numbers "(sender_id = $1 OR receiver_id = $1)") ->
    n <= int_max) as Hfit.
  { intros n Hn. vm_compute in Hn.
    destruct Hn as [<-|[<-|[]]]; unfold int_max; lia. }
  assert (is_int 3) as Hint by int_bounds.
  split_and!; [done|done|].
  destruct (raw_markers_shifted
              "(sender_id = $1 OR receiver_id = $1)" [VInt 42] 3) as [H _];
    [done|done|].
  rewrite H. vm_compute. reflexivity.
Defined.

(** C3 (as stated) fails on a marker whose number does not fit [int]: the
    marker [$9223372036854775808] rendered from offset 1 becomes
    [$9223372036854775807], not [$(9223372036854775808 + 1 - 1)]. *)
Lemma raw_markers_shifted_counterexample :
  Positional.marker_numbers "id = $9223372036854775808" = [9223372036854775808] /\
  Positional.ToSQL (Positional.Raw "id = $9223372036854775808" [VInt 7]) 1 =
    ("id = $9223372036854775807", [VInt 7], 2) /\
  Positional.ToSQL (Positional.Raw "id = $9223372036854775808" [VInt 7]) 1 <>
    ("id = $" +:+ itoa (9223372036854775808 + 1 - 1), [VInt 7], 1 + len [VInt 7]).
Proof.
  split_and!; [by vm_compute|by vm_compute|].
  vm_compute. intros H. discriminate H.
Qed.

(** ** C6 *)

(** C6 (as amended): rendering a positional [Raw] never fails.  A fragment
    in which no [$] is followed by a decimal digit is returned unchanged,
    and a marker whose digits [strconv.Atoi] rejects is rewritten from the
    largest [int], the error being discarded. *)
Theorem raw_unparsable_marker_kept (s : string) (vs : list value) (c : Z) :
  (has_match placeholderRe s = false ->
   Positional.ToSQL (Positional.Raw s vs) c = (s, vs, iadd c (len vs))) /\
  (forall m, int_max < digits_value (tail1 m) ->
     snd (Atoi (tail1 m)) = true /\
     Positional.shift_marker c m = "$" +:+ itoa (wrap64 (int_max + c - 1))).
Proof.
  split.
  - intros Hno. simpl. do 2 f_equal. apply ReplaceAllStringFunc_no_match.
    intros m. by apply pieces_no_match.
  - intros m Hm. by apply PositionalFacts.shift_marker_overflow.
Qed.

Lemma raw_unparsable_marker_kept_witness :
  has_match placeholderRe "x = $abc" = false /\
  int_max < digits_value (tail1 "$99999999999999999999") /\
  Positional.ToSQL (Positional.Raw "x = $abc" [VInt 1]) 1 =
    ("x = $abc", [VInt 1], iadd 1 (len [VInt 1])) /\
  snd (Atoi (tail1 "$99999999999999999999")) = true /\
  Positional.shift_marker 1 "$99999999999999999999" =
    "$" +:+ itoa (wrap64 (int_max + 1 - 1)).
Proof.
  assert (has_match placeholderRe "x = $abc" = false) as Hno
    by (vm_compute; reflexivity).
  assert (int_max < digits_value (tail1 "$99999999999999999999")) as Hbig
    by (vm_compute; reflexivity).
  destruct (raw_unparsable_marker_kept "x = $abc" [VInt 1] 1) as [H1 H2].
  split_and!; [done|done|by apply H1| |]; by apply H2.
Defined.

(** C6 (as stated) fails: a [$] followed by letters is passed through, and
    a marker that [strconv.Atoi] rejects is renumbered, both without any
    error. *)
Lemma raw_unparsable_marker_counterexample :
  Positional.ToSQL (Positional.Raw "x = $abc" [VInt 1]) 1 =
    ("x = $abc", [VInt 1], 2) /\
  snd (Atoi "99999999999999999999") = true /\
  Positional.ToSQL (Positional.Raw "x = $99999999999999999999" [VInt 1]) 1 =
    ("x = $9223372036854775807", [VInt 1], 2).
Proof. split_and!; by vm_compute. Qed.

(** ** C5 *)

(** C5 (as amended): [And]/[Or] over no child render the empty string, no
    value and the cursor unchanged; over one child, that child's rendering;
    over two or more, the children's fragments, each rendered from the cursor
    its predecessor returned, joined by [" AND "]/[" OR "] inside one pair of
    parentheses, with the last child's cursor.  In the positional scheme the
    values are the children's values concatenated in child order and their
    number is the sum over the children.  In the named scheme the values are
    the children's maps merged in child order, a later entry replacing an
    earlier one of the same name: their number is at most the sum over the
    children, and is the sum when no name is supplied twice. *)
Theorem combinators_thread_children :
  (forall (preds : list Positional.Predicate) (c : Z),
     let rs := Positional.thread preds c in
     match preds with
     | [] =>
         Positional.ToSQL (Positional.And preds) c = (EmptyString, [], c) /\
         Positional.ToSQL (Positional.Or preds) c = (EmptyString, [], c)
     | [p] =>
         Positional.ToSQL (Positional.And preds) c = Positional.ToSQL p c /\
         Positional.ToSQL (Positional.Or preds) c = Positional.ToSQL p c
     | _ =>
         Positional.ToSQL (Positional.And preds) c =
           ("(" +:+ Join (Positional.fragments rs) " AND " +:+ ")",
            Positional.contributed rs, Positional.final_cursor rs c) /\
         Positional.ToSQL (Positional.Or preds) c =
           ("(" +:+ Join (Positional.fragments rs) " OR " +:+ ")",
            Positional.contributed rs, Positional.final_cursor rs c) /\
         List.length (Positional.contributed rs) =
           sum_list (map (fun r => List.length (snd (fst r))) rs)
     end) /\
  (forall (preds : list Named.Predicate) (c : Z),
     let rs := Named.thread preds c in
     match preds with
     | [] =>
         Named.ToSQL (Named.And preds) c = (EmptyString, ∅, c) /\
         Named.ToSQL (Named.Or preds) c = (EmptyString, ∅, c)
     | [p] =>
         Named.ToSQL (Named.And preds) c = Named.ToSQL p c /\
         Named.ToSQL (Named.Or preds) c = Named.ToSQL p c
     | _ =>
         Named.ToSQL (Named.And preds) c =
           ("(" +:+ Join (Named.fragments rs) " AND " +:+ ")",
            Named.merged rs ∅, Named.final_counter rs c) /\
         Named.ToSQL (Named.Or preds) c =
           ("(" +:+ Join (Named.fragments rs) " OR " +:+ ")",
            Named.merged rs ∅, Named.final_counter rs c) /\
         (size (Named.merged rs ∅) <=
            sum_list (map (fun r => size (snd (fst r))) rs))%nat /\
         (Named.names_apart rs ∅ ->
          size (Named.merged rs ∅) =
            sum_list (map (fun r => size (snd (fst r))) rs))
     end).
Proof.
  split.
  - intros preds c rs.
    pose proof (PositionalFacts.combinePredicates_cases preds "AND" c) as Ha.
    pose proof (PositionalFacts.combinePredicates_cases preds "OR" c) as Ho.
    destruct preds as [|p [|q rest]]; [by split|by split|].
    split_and!; [exact Ha|exact Ho|].
    apply PositionalFacts.contributed_length.
  - intros preds c rs.
    pose proof (NamedFacts.named_combinePredicates_cases preds "AND" c) as Ha.
    pose proof (NamedFacts.named_combinePredicates_cases preds "OR" c) as Ho.
    destruct preds as [|p [|q rest]]; [by split|by split|].
    split_and!; [exact Ha|exact Ho| |].
    + pose proof (NamedFacts.merged_size_le rs ∅) as H.
      rewrite map_size_empty in H. exact H.
    + intros Hap. rewrite (NamedFacts.merged_size_apart rs ∅ Hap).
      by rewrite map_size_empty.
Qed.

Lemma combinators_thread_children_witness :
  Named.names_apart
    (Named.thread [Named.Eq "a" (VInt 1); Named.Eq "b" (VInt 2)] 0) ∅ /\
  size (Named.merged
          (Named.thread [Named.Eq "a" (VInt 1); Named.Eq "b" (VInt 2)] 0) ∅) =
  sum_list (map (fun r => size (snd (fst r)))
              (Named.thread [Named.Eq "a" (VInt 1); Named.Eq "b" (VInt 2)] 0)).
Proof.
  assert (Named.names_apart
    (Named.thread [Named.Eq "a" (VInt 1); Named.Eq "b" (VInt 2)] 0) ∅) as Hap.
  { simpl. split_and!; [apply map_disjoint_empty_r| |done].
    rewrite (right_id_L ∅ (∪)). apply map_disjoint_singleton_l.
    apply lookup_singleton_ne. intros H. vm_compute in H. discriminate H. }
  split; [exact Hap|].
  destruct combinators_thread_children as [_ H].
  specialize (H [Named.Eq "a" (VInt 1); Named.Eq "b" (VInt 2)] 0).
  destruct H as (_ & _ & _ & H). by apply H.
Defined.

(** C5 (as stated) fails in the named scheme: two children that refer to
    the same name, here the same value under the same name, contribute one
    value, not two. *)
Lemma combinators_thread_children_counterexample :
  let p := Named.Raw "sender_id = @id" {[ "id" := VInt 42 ]} in
  let q := Named.Raw "receiver_id = @id" {[ "id" := VInt 42 ]} in
  Named.ToSQL (Named.Or [p; q]) 0 =
    ("(sender_id = @id OR receiver_id = @id)", {[ "id" := VInt 42 ]}, 0) /\
  size (snd (fst (Named.ToSQL (Named.Or [p; q]) 0))) = 1%nat /\
  (size (snd (fst (Named.ToSQL p 0))) + size (snd (fst (Named.ToSQL q 0))))%nat
    = 2%nat.
Proof. by vm_compute. Qed.

(** ** C4 *)

(** C4: for a text whose names all have an entry in the mapping, the bridge
    gives each distinct name the next unused position at its first
    occurrence (the positions are 1, 2, ... and one name is placed before
    another exactly when it first occurs earlier in the text), writes that
    position at every occurrence of the name, and returns the values of the
    distinct names in first-occurrence order; two mappings that agree on
    the names of the text give the same result; and
    ["a = @id OR b = @id"] with [{id: 42}] becomes ["a = $1 OR b = $1"]
    with [[42]]. *)
Theorem bridge_positions_by_first_occurrence
    (query : string) (named : gmap string value) :
  Z.of_nat (String.length query) <= int_max ->
  (forall n, n ∈ Named.marker_names query -> is_Some (named !! n)) ->
  let names := Named.first_occurrences (Named.marker_names query) in
  Named.namedToPositional query named =
    (Named.bridge_text query, map (Named.index_map named) names) /\
  Named.NamedToPositional query named = Named.namedToPositional query named /\
  NoDup names /\
  (forall n, n ∈ names <-> n ∈ Named.marker_names query) /\
  (forall i n, names !! i = Some n ->
     Named.position names n = Z.of_nat i + 1 /\
     snd (Named.namedToPositional query named) !! i = named !! n) /\
  (forall a b, a ∈ Named.marker_names query -> b ∈ Named.marker_names query ->
     (Named.position names a < Named.position names b <->
      (Named.index_of a (Named.marker_names query) <
       Named.index_of b (Named.marker_names query))%nat)) /\
  (forall named' : gmap string value,
     (forall n, n ∈ Named.marker_names query -> named' !! n = named !! n) ->
     Named.namedToPositional query named' = Named.namedToPositional query named) /\
  Named.namedToPositional "a = @id OR b = @id" {[ "id" := VInt 42 ]} =
    ("a = $1 OR b = $1", [VInt 42]).
Proof.
  intros Hlen Hcov names.
  pose proof (NamedFacts.namedToPositional_covered query named Hlen Hcov) as Hspec.
  fold names in Hspec.
  assert (forall n, n ∈ names <-> n ∈ Named.marker_names query) as Helem
    by apply NamedFacts.first_occurrences_elem.
  split_and!.
  - exact Hspec.
  - reflexivity.
  - apply NamedFacts.first_occurrences_NoDup.
  - exact Helem.
  - intros i n Hi. split.
    + apply NamedFacts.position_lookup; [|done].
      apply NamedFacts.first_occurrences_NoDup.
    + rewrite Hspec. simpl. rewrite list_lookup_fmap, Hi. simpl.
      destruct (Hcov n) as [v Hv].
      { apply Helem. by eapply list_elem_of_lookup_2. }
      unfold Named.index_map. by rewrite Hv.
  - intros a b Ha Hb. by apply NamedFacts.first_occurrences_order.
  - intros named' Hagree. rewrite Hspec.
    rewrite (NamedFacts.namedToPositional_covered query named' Hlen).
    + f_equal. fold names. apply map_ext_in. intros n Hn.
      unfold Named.index_map. rewrite Hagree; [done|].
      apply Helem. by apply list_elem_of_In.
    + intros n Hn. rewrite Hagree by done. by apply Hcov.
  - by vm_compute.
Qed.

Lemma bridge_positions_by_first_occurrence_witness :
  Z.of_nat (String.length "x = @b AND y = @a AND z = @b") <= int_max /\
  (forall n, n ∈ Named.marker_names "x = @b AND y = @a AND z = @b" ->
     is_Some (({[ "a" := VInt 1; "b" := VInt 2 ]} : gmap string value) !! n)) /\
  Named.namedToPositional "x = @b AND y = @a AND z = @b"
    {[ "a" := VInt 1; "b" := VInt 2 ]} =
  ("x = $1 AND y = $2 AND z = $1", [VInt 2; VInt 1]).
Proof.
  assert (Z.of_nat (String.length "x = @b AND y = @a AND z = @b") <= int_max)
    as Hlen by (vm_compute; discriminate).
  assert (forall n, n ∈ Named.marker_names "x = @b AND y = @a AND z = @b" ->
     is_Some (({[ "a" := VInt 1; "b" := VInt 2 ]} : gmap string value) !! n))
    as Hcov.
  { intros n Hn. vm_compute in Hn.
    apply list_elem_of_In in Hn.
    destruct Hn as [<-|[<-|[<-|[]]]]; vm_compute; eauto. }
  split_and!; [done|done|].
  destruct (bridge_positions_by_first_occurrence
              "x = @b AND y = @a AND z = @b"
              {[ "a" := VInt 1; "b" := VInt 2 ]} Hlen Hcov) as [H _].
  rewrite H. by vm_compute.
Defined.

(** ** C1 *)

(** C1 (as amended): the bridge has no error result.  For a text with a
    marker whose name has no entry in the mapping it returns the text
    unchanged, the marker left in place, and no values when the mapping is
    empty; when the mapping is not empty it writes at the marker the
    position of its name like for any other name, and returns [nil] as the
    value at that position. *)
Theorem bridge_missing_name_renders
    (query : string) (named : gmap string value) (n : string) :
  Z.of_nat (String.length query) <= int_max ->
  n ∈ Named.marker_names query ->
  named !! n = None ->
  (named = ∅ -> Named.namedToPositional query named = (query, [])) /\
  (named <> ∅ ->
   let names := Named.first_occurrences (Named.marker_names query) in
   Named.namedToPositional query named =
     (Named.bridge_text query, map (Named.index_map named) names) /\
   exists i, names !! i = Some n /\
     Named.position names n = Z.of_nat i + 1 /\
     snd (Named.namedToPositional query named) !! i = Some VNil).
Proof.
  intros Hlen Hn Hmiss. split.
  - intros ->. apply NamedFacts.namedToPositional_empty.
  - intros Hne names.
    assert (size named <> 0%nat) as Hsz by (by apply map_size_non_empty_iff).
    pose proof (NamedFacts.namedToPositional_nonempty query named Hsz Hlen) as Hspec.
    fold names in Hspec. split; [exact Hspec|].
    assert (n ∈ names) as Hin by (by apply NamedFacts.first_occurrences_elem).
    apply list_elem_of_lookup_1 in Hin as [i Hi]. exists i. split_and!.
    + exact Hi.
    + apply NamedFacts.position_lookup; [|done].
      apply NamedFacts.first_occurrences_NoDup.
    + rewrite Hspec. simpl. rewrite list_lookup_fmap, Hi. simpl.
      unfold Named.index_map. by rewrite Hmiss.
Qed.

Lemma bridge_missing_name_renders_witness :
  Z.of_nat (String.length "a = @id AND b = @other") <= int_max /\
  "other" ∈ Named.marker_names "a = @id AND b = @other" /\
  ({[ "id" := VInt 42 ]} : gmap string value) !! "other" = None /\
  Named.namedToPositional "a = @id AND b = @other" {[ "id" := VInt 42 ]} =
    ("a = $1 AND b = $2", [VInt 42; VNil]).
Proof.
  assert (Z.of_nat (String.length "a = @id AND b = @other") <= int_max)
    as Hlen by (vm_compute; discriminate).
  assert ("other" ∈ Named.marker_names "a = @id AND b = @other") as Hin.
  { apply list_elem_of_In. vm_compute. auto. }
  assert (({[ "id" := VInt 42 ]} : gmap string value) !! "other" = None)
    as Hmiss by (by vm_compute).
  split_and!; [done|done|done|].
  destruct (bridge_missing_name_renders
              "a = @id AND b = @other" {[ "id" := VInt 42 ]} "other"
              Hlen Hin Hmiss) as [_ H].
  destruct H as [H _].
  - intros Heq. pose proof (f_equal (fun m => m !! "id") Heq) as Hc.
    vm_compute in Hc. discriminate Hc.
  - rewrite H. by vm_compute.
Defined.

(** C1 (as stated) fails: no error is raised for a name without an entry.
    With the empty mapping the marker stays in the text; with another
    mapping the marker gets a position and the value [nil]. *)
Lemma bridge_missing_name_counterexample :
  Named.namedToPositional "a = @id" ∅ = ("a = @id", []) /\
  ({[ "other" := VInt 1 ]} : gmap string value) !! "id" = None /\
  Named.namedToPositional "a = @id" {[ "other" := VInt 1 ]} =
    ("a = $1", [VNil]).
Proof. split_and!; by vm_compute. Qed.

(** ** C2 *)

(** C2 (as amended): every [Build] sets its cursor once (position 1, or
    counter 0) and passes it through the clauses in the order in which it
    writes them: for SELECT the WHERE predicates, then the HAVING predicates,
    then LIMIT, then OFFSET; for UPDATE the SET assignments, then the WHERE
    predicates; for DELETE the WHERE predicates; for INSERT the values, row
    after row.  The values are collected in that order: in an UPDATE the SET
    values come before the WHERE values. *)
Theorem cursor_passes_clauses_in_text_order :
  (forall b : Positional.SelectBuilder,
     let w := Positional.thread (Positional.sel_where b) 1 in
     let c1 := Positional.final_cursor w 1 in
     let h := Positional.thread (Positional.sel_having b) c1 in
     let c2 := Positional.final_cursor h c1 in
     let l := Positional.bound_rendering " LIMIT $" (Positional.sel_limit b) c2 in
     let c3 := Positional.final_cursor l c2 in
     let o := Positional.bound_rendering " OFFSET $" (Positional.sel_offset b) c3 in
     Positional.SelectBuilder_Build b =
       ((((((Positional.select_head b
             +:+ Positional.clause_text " WHERE " w)
            +:+ list_text " GROUP BY " (Positional.sel_groupBy b))
           +:+ Positional.clause_text " HAVING " h)
          +:+ list_text " ORDER BY " (order_parts (Positional.sel_orderBy b)))
         +:+ concat_strings (Positional.fragments l))
        +:+ concat_strings (Positional.fragments o),
        Positional.contributed (w ++ h ++ l ++ o))) /\
  (forall b : Positional.UpdateBuilder,
     let s := Positional.set_renderings (Positional.upd_sets b) 1 in
     let c1 := Positional.final_cursor s 1 in
     let w := Positional.thread (Positional.upd_where b) c1 in
     Positional.UpdateBuilder_Build b =
       ((((EmptyString +:+ "UPDATE " +:+ Positional.upd_table b +:+ " SET ")
          +:+ Join (Positional.fragments s) ", ")
         +:+ Positional.clause_text " WHERE " w)
        +:+ list_text " RETURNING " (Positional.upd_returning b),
        (map set_val (Positional.upd_sets b) ++ Positional.contributed w)%list)) /\
  (forall b : Positional.DeleteBuilder,
     let w := Positional.thread (Positional.del_where b) 1 in
     Positional.DeleteBuilder_Build b =
       (((EmptyString +:+ "DELETE FROM " +:+ Positional.del_table b)
         +:+ Positional.clause_text " WHERE " w)
        +:+ list_text " RETURNING " (Positional.del_returning b),
        Positional.contributed w)) /\
  (forall b : Positional.InsertBuilder,
     let v := Positional.rows_renderings (Positional.ins_values b) 1 in
     Positional.InsertBuilder_Build b =
       (((Positional.insert_head b
          +:+ Join (map Positional.row_text v) ", ")
         +:+ Positional.conflict_text (Positional.ins_onConflict b))
        +:+ list_text " RETURNING " (Positional.ins_returning b),
        Positional.contributed (concat v)) /\
     Positional.contributed (concat v) = concat (Positional.ins_values b)) /\
  (forall b : Named.SelectBuilder,
     let w := Named.thread (Named.sel_where b) 0 in
     let c1 := Named.final_counter w 0 in
     let h := Named.thread (Named.sel_having b) c1 in
     let c2 := Named.final_counter h c1 in
     let l := Named.bound_rendering " LIMIT @" (Named.sel_limit b) c2 in
     let c3 := Named.final_counter l c2 in
     let o := Named.bound_rendering " OFFSET @" (Named.sel_offset b) c3 in
     Named.SelectBuilder_Build b =
       ((((((Named.select_head b
             +:+ Named.clause_text " WHERE " w)
            +:+ list_text " GROUP BY " (Named.sel_groupBy b))
           +:+ Named.clause_text " HAVING " h)
          +:+ list_text " ORDER BY " (order_parts (Named.sel_orderBy b)))
         +:+ concat_strings (Named.fragments l))
        +:+ concat_strings (Named.fragments o),
        Named.merged (w ++ h ++ l ++ o) ∅)) /\
  (forall b : Named.UpdateBuilder,
     let s := Named.set_renderings (Named.upd_sets b) 0 in
     let c1 := Named.final_counter s 0 in
     let w := Named.thread (Named.upd_where b) c1 in
     Named.UpdateBuilder_Build b =
       ((((EmptyString +:+ "UPDATE " +:+ Named.upd_table b +:+ " SET ")
          +:+ Join (Named.fragments s) ", ")
         +:+ Named.clause_text " WHERE " w)
        +:+ list_text " RETURNING " (Named.upd_returning b),
        Named.merged (s ++ w) ∅)) /\
  (forall b : Named.DeleteBuilder,
     let w := Named.thread (Named.del_where b) 0 in
     Named.DeleteBuilder_Build b =
       (((EmptyString +:+ "DELETE FROM " +:+ Named.del_table b)
         +:+ Named.clause_text " WHERE " w)
        +:+ list_text " RETURNING " (Named.del_returning b),
        Named.merged w ∅)).
Proof.
  split_and!.
  - intros b w c1 h c2 l c3 o. unfold Positional.SelectBuilder_Build.
    rewrite PositionalFacts.write_where_thread. rewrite write_list_text.
    rewrite PositionalFacts.write_where_thread. rewrite write_list_text.
    rewrite PositionalFacts.write_bound_rendering.
    rewrite PositionalFacts.write_bound_rendering.
    rewrite !PositionalFacts.contributed_app. simpl app.
    by rewrite <- !app_assoc.
  - intros b s c1 w. unfold Positional.UpdateBuilder_Build.
    rewrite PositionalFacts.update_set_renderings.
    rewrite PositionalFacts.write_where_thread, write_list_text.
    by rewrite PositionalFacts.set_renderings_values.
  - intros b w. unfold Positional.DeleteBuilder_Build.
    by rewrite PositionalFacts.write_where_thread, write_list_text.
  - intros b v. split.
    + apply PositionalFacts.InsertBuilder_Build_renderings.
    + apply PositionalFacts.rows_renderings_values.
  - intros b w c1 h c2 l c3 o. unfold Named.SelectBuilder_Build.
    rewrite NamedFacts.named_write_where_thread. rewrite write_list_text.
    rewrite NamedFacts.named_write_where_thread. rewrite write_list_text.
    rewrite NamedFacts.named_write_bound_rendering.
    rewrite NamedFacts.named_write_bound_rendering.
    by rewrite !NamedFacts.merged_app.
  - intros b s c1 w. unfold Named.UpdateBuilder_Build.
    rewrite NamedFacts.named_update_set_renderings.
    rewrite NamedFacts.named_write_where_thread, write_list_text.
    by rewrite NamedFacts.merged_app.
  - intros b w. unfold Named.DeleteBuilder_Build.
    by rewrite NamedFacts.named_write_where_thread, write_list_text.
Qed.

(** C2 (as stated) fails for UPDATE: the SET value is numbered 1 and the
    WHERE value 2, in both schemes. *)
Lemma update_numbers_set_before_where_counterexample :
  Positional.UpdateBuilder_Build
    (Positional.upd_Where [Positional.Eq "uuid" (VStr "abc-123")]
       (Positional.upd_Set "name" (VStr "Bob") (Positional.Update "users"))) =
    ("UPDATE users SET name = $1 WHERE uuid = $2",
     [VStr "Bob"; VStr "abc-123"]) /\
  Named.UpdateBuilder_Build
    (Named.upd_Where [Named.Eq "uuid" (VStr "abc-123")]
       (Named.upd_Set "name" (VStr "Bob") (Named.Update "users"))) =
    ("UPDATE users SET name = @p1 WHERE uuid = @p2",
     {[ "p1" := VStr "Bob"; "p2" := VStr "abc-123" ]}) /\
  snd (Positional.UpdateBuilder_Build
    (Positional.upd_Where [Positional.Eq "uuid" (VStr "abc-123")]
       (Positional.upd_Set "name" (VStr "Bob") (Positional.Update "users")))) <>
    [VStr "abc-123"; VStr "Bob"].
Proof.
  split_and!; [by vm_compute|by vm_compute|].
  vm_compute. intros H. discriminate H.
Qed.

(** ** C10 *)


(** ** C8 *)



(** ** C7 *)

(** C7 (the code departs from it): the positional debug helper replaces
    only the first occurrence of each placeholder, so a statement whose
    [Raw] predicate uses [$1] twice keeps the second [$1]; the named debug
    helper replaces both occurrences of the corresponding [@id].  On
    [Eq("name", "O'Brien")] both helpers write ['O''Brien']; a string is
    written between two quotes with every quote of its own doubled, [nil] as
    [NULL], the booleans as [TRUE] and [FALSE]. *)
Theorem debug_inline_repeated_placeholder :
  Positional.ToSQL_debug
    (Positional.sel_Where [Positional.Raw "(a = $1 OR b = $1)" [VInt 42]]
       (Positional.sel_From "t" (Positional.Select ["*"]))) =
    "SELECT * FROM t WHERE (a = 42 OR b = $1)" /\
  Named.ToSQL_debug
    (Named.sel_Where [Named.Raw "(a = @id OR b = @id)" {[ "id" := VInt 42 ]}]
       (Named.sel_From "t" (Named.Select ["*"]))) =
    "SELECT * FROM t WHERE (a = 42 OR b = 42)" /\
  Positional.ToSQL_debug
    (Positional.sel_Where [Positional.Eq "name" (VStr "O'Brien")]
       (Positional.sel_From "t" (Positional.Select ["*"]))) =
    "SELECT * FROM t WHERE name = 'O''Brien'" /\
  Named.ToSQL_debug
    (Named.sel_Where [Named.Eq "name" (VStr "O'Brien")]
       (Named.sel_From "t" (Named.Select ["*"]))) =
    "SELECT * FROM t WHERE name = 'O''Brien'" /\
  (forall s, formatValue (VStr s) = "'" +:+ ReplaceAll_quote s +:+ "'") /\
  formatValue VNil = "NULL" /\
  formatValue (VBool true) = "TRUE" /\
  formatValue (VBool false) = "FALSE" /\
  ReplaceAll_quote "O'Brien" = "O''Brien".
Proof. split_and!; try done; by vm_compute. Qed.


(** * Rendered texts as skeletons *)

(** ** Decimal numerals *)

Lemma pretty_N_char_digit d :
  (d < 10)%N ->
  is_digit (pretty_N_char d) = true /\ digit_val (pretty_N_char d) = Z.of_N d.
Proof.
  intros Hd.
  assert (d = 0 \/ d = 1 \/ d = 2 \/ d = 3 \/ d = 4 \/ d = 5 \/ d = 6
          \/ d = 7 \/ d = 8 \/ d = 9)%N as H by lia.
  repeat (destruct H as [->|H]; [by vm_compute|]). subst. by vm_compute.
Qed.

Lemma digits_value_from_app s t : forall acc,
  digits_value_from acc (s +:+ t) = digits_value_from (digits_value_from acc s) t.
Proof. induction s as [|c s IH]; intros acc; simpl; [done|]. apply IH. Qed.

Lemma all_class_app cls s t :
  all_class cls (s +:+ t) = all_class cls s && all_class cls t.
Proof.
  induction s as [|c s IH]; simpl; [done|].
  rewrite IH. by rewrite andb_assoc.
Qed.

(** The digits [pretty_N_go] puts in front of its accumulator. *)
Lemma pretty_N_go_digits x : forall s,
  exists t, pretty_N_go x s = t +:+ s /\
    all_class is_digit t = true /\
    (forall acc, digits_value_from acc t
                 = acc * 10 ^ Z.of_nat (String.length t) + Z.of_N x) /\
    ((0 < x)%N -> t <> EmptyString).
Proof.
  induction (N.lt_wf_0 x) as [x _ IH]. intros s.
  destruct (decide (x = 0%N)) as [->|Hx].
  - exists EmptyString. rewrite pretty_N_go_0.
    split; [done|]. split; [done|]. split; [|lia].
    intros acc. simpl. lia.
  - rewrite pretty_N_go_step by lia.
    destruct (IH (x `div` 10)%N) with (s := String (pretty_N_char (x `mod` 10)) s)
      as (t & Ht & Hd & Hv & _).
    { apply N.div_lt; lia. }
    destruct (pretty_N_char_digit (x `mod` 10)%N) as [Hc1 Hc2].
    { apply N.mod_lt. lia. }
    exists (t +:+ String (pretty_N_char (x `mod` 10)) EmptyString).
    split; [|split; [|split]].
    + rewrite Ht. by rewrite app_assoc_s.
    + rewrite all_class_app, Hd. simpl. by rewrite Hc1.
    + intros acc. rewrite digits_value_from_app, Hv. simpl.
      rewrite Hc2.
      replace (String.length (t +:+ String (pretty_N_char (x `mod` 10)) ""))
        with (S (String.length t)).
      2:{ clear. induction t as [|c t IHt]; simpl; [done|].
          by rewrite <- IHt. }
      rewrite Nat2Z.inj_succ, Z.pow_succ_r by lia.
      pose proof (N.div_mod x 10 ltac:(lia)) as Hdm.
      rewrite N2Z.inj_div, N2Z.inj_mod.
      assert (Z.of_N x = 10 * (Z.of_N x / 10) + Z.of_N x mod 10) as Hz
        by (apply Z.div_mod; lia).
      simpl Z.of_N. lia.
    + intros _. by destruct t.
Qed.

(** The numeral of a number that is not negative: one digit at least,
    digits only, and denoting the number. *)
Lemma itoa_digits k :
  0 <= k ->
  exists d ds, itoa k = String d ds /\
    all_class is_digit (String d ds) = true /\
    digits_value (String d ds) = k.
Proof.
  intros Hk. destruct k as [|p|p]; [by exists "0"%char, EmptyString | |lia].
  unfold itoa, pretty, pretty_Z, pretty, pretty_positive, pretty, pretty_N.
  rewrite decide_False by done.
  destruct (pretty_N_go_digits (N.pos p) EmptyString) as (t & Ht & Hd & Hv & Hne).
  rewrite Ht, app_empty_r.
  destruct t as [|d ds]; [by destruct Hne|].
  exists d, ds. repeat split; [done|].
  unfold digits_value. rewrite Hv. simpl. lia.
Qed.

Lemma itoa_inj a b : itoa a = itoa b -> a = b.
Proof. apply (inj (pretty (A := Z))). Qed.

(** ** Texts cut by hand *)

Section Cuts.

Variable re : regexp.

Lemma starts_match_head c r :
  starts_match re c r = bool_decide (c = sigil re) && head_in_class re r.
Proof.
  unfold starts_match. f_equal. destruct r as [|d r]; simpl; [done|].
  by destruct (class re d).
Qed.

Lemma take_class_marker s t :
  all_class (class re) s = true -> head_in_class re t = false ->
  take_class (class re) (s +:+ t) = s /\ drop_class (class re) (s +:+ t) = t.
Proof.
  intros Hs Ht. induction s as [|c s IH].
  - rewrite app_empty_l. destruct t as [|d t]; [done|].
    simpl in *. by rewrite Ht.
  - simpl in Hs. apply andb_prop in Hs as [Hc Hs].
    rewrite app_String. simpl. rewrite Hc.
    destruct (IH Hs) as [-> ->]. done.
Qed.

Lemma head_drop_class s : head_in_class re (drop_class (class re) s) = false.
Proof.
  induction s as [|c s IH]; simpl; [done|].
  destruct (class re c) eqn:E; [done|]. simpl. done.
Qed.

Lemma take_class_all_class s : all_class (class re) (take_class (class re) s) = true.
Proof.
  induction s as [|c s IH]; simpl; [done|].
  destruct (class re c) eqn:E; [|done]. simpl. by rewrite E.
Qed.

(** The matcher cuts a text well. *)
Lemma pieces_well_cut s : well_cut re (pieces re s) = true.
Proof.
  funelim (pieces re s); simp pieces; [done|].
  destruct (starts_match re c r) eqn:E; simpl.
  - rewrite H, pieces_text, head_drop_class.
    rewrite starts_match_head in E. apply andb_prop in E as [-> E].
    destruct r as [|d r]; [done|]. simpl in E. simpl. rewrite E. simpl.
    by rewrite E, take_class_all_class.
  - by rewrite H0, pieces_text, E.
Qed.

(** Pieces cut well are the pieces the matcher finds in their text. *)
Lemma well_cut_pieces ps :
  well_cut re ps = true -> pieces re (concat_strings (map piece_text ps)) = ps.
Proof.
  induction ps as [|[c|m] ps IH]; simpl; intros H.
  - by simp pieces.
  - apply andb_prop in H as [H1 H2]. rewrite app_String, app_empty_l.
    simp pieces. apply negb_true_iff in H1. rewrite H1. by rewrite IH.
  - apply andb_prop in H as [H1 H3]. apply andb_prop in H1 as [H1 H2].
    apply negb_true_iff in H2.
    destruct m as [|c [|d ds]]; try done. simpl in H1.
    apply andb_prop in H1 as [H1 Hds]. apply andb_prop in H1 as [Hc Hd].
    apply bool_decide_eq_true in Hc as ->.
    rewrite app_String. simp pieces.
    assert (all_class (class re) (String d ds) = true) as Hall
      by (simpl; by rewrite Hd, Hds).
    destruct (take_class_marker (String d ds) _ Hall H2) as [Ht Hdr].
    rewrite starts_match_head, bool_decide_eq_true_2 by done.
    simpl head_in_class. rewrite Hd. simpl andb. cbv iota.
    rewrite Ht, Hdr. by rewrite IH.
Qed.

End Cuts.

(** ** Skeletons *)

Lemma concat_strings_app l1 l2 :
  concat_strings (l1 ++ l2) = concat_strings l1 +:+ concat_strings l2.
Proof.
  induction l1 as [|x l1 IH]; simpl; [done|]. by rewrite IH, app_assoc_s.
Qed.

Lemma flatten_app mint sk1 sk2 :
  flatten mint (sk1 ++ sk2) = flatten mint sk1 +:+ flatten mint sk2.
Proof. unfold flatten. by rewrite map_app, concat_strings_app. Qed.

Lemma flatten_cons mint g sk :
  flatten mint (g :: sk) = seg_text mint g +:+ flatten mint sk.
Proof. done. Qed.

Lemma flatten_nil mint : flatten mint [] = EmptyString.
Proof. done. Qed.

Lemma flatten_text mint s : flatten mint [Txt s] = s.
Proof. unfold flatten. simpl. by rewrite app_empty_r. Qed.

Lemma flatten_join mint sep sks :
  flatten mint (join_segs sep sks) = Join (map (flatten mint) sks) sep.
Proof.
  induction sks as [|sk [|sk' sks] IH]; [done|done|].
  change (join_segs sep (sk :: sk' :: sks))
    with (sk ++ Txt sep :: join_segs sep (sk' :: sks))%list.
  rewrite flatten_app, flatten_cons, IH. done.
Qed.

Lemma placeholders_app sk1 sk2 :
  placeholders (sk1 ++ sk2) = (placeholders sk1 ++ placeholders sk2)%list.
Proof. unfold placeholders. by rewrite omap_app. Qed.

Lemma run_app c n1 n2 :
  run c (n1 + n2) = (run c n1 ++ run (c + Z.of_nat n1) n2)%list.
Proof.
  revert c. induction n1 as [|n1 IH]; intros c; simpl.
  - by rewrite Z.add_0_r.
  - rewrite IH. do 3 f_equal. lia.
Qed.

Lemma run_length c n : List.length (run c n) = n.
Proof. revert c. induction n as [|n IH]; intros c; simpl; [done|]. by rewrite IH. Qed.

Lemma run_elem c n k : k ∈ run c n <-> c <= k < c + Z.of_nat n.
Proof.
  revert c. induction n as [|n IH]; intros c; simpl.
  - rewrite elem_of_nil. lia.
  - rewrite elem_of_cons, IH. lia.
Qed.

Lemma run_NoDup c n : NoDup (run c n).
Proof.
  revert c. induction n as [|n IH]; intros c; simpl; [constructor|].
  constructor; [|apply IH]. rewrite run_elem. lia.
Qed.

Section Skeletons.

Variable re : regexp.

Lemma pieces_literal s t :
  no_sigil re s = true ->
  pieces re (s +:+ t) = (map Lit (list_ascii_of_string s) ++ pieces re t)%list.
Proof.
  induction s as [|c s IH]; intros H; [done|].
  simpl in H. apply andb_prop in H as [Hc Hs].
  rewrite app_String. simp pieces.
  rewrite starts_match_head.
  apply negb_true_iff in Hc. rewrite Hc. simpl. by rewrite IH.
Qed.

Lemma pieces_marker m t :
  is_marker re m = true -> head_in_class re t = false ->
  pieces re (m +:+ t) = Match m :: pieces re t.
Proof.
  intros Hm Ht. destruct m as [|c [|d ds]]; try done. simpl in Hm.
  apply andb_prop in Hm as [Hm Hds]. apply andb_prop in Hm as [Hc Hd].
  apply bool_decide_eq_true in Hc as ->.
  rewrite app_String. simp pieces.
  assert (all_class (class re) (String d ds) = true) as Hall
    by (simpl; by rewrite Hd, Hds).
  destruct (take_class_marker re (String d ds) _ Hall Ht) as [Htk Hdr].
  rewrite starts_match_head, bool_decide_eq_true_2 by done.
  simpl head_in_class. rewrite Hd. simpl andb. cbv iota.
  by rewrite Htk, Hdr.
Qed.

Lemma no_sigil_app s t :
  no_sigil re (s +:+ t) = no_sigil re s && no_sigil re t.
Proof. apply all_class_app. Qed.

Lemma no_sigil_Join items sep :
  Forall (fun s => no_sigil re s = true) items -> no_sigil re sep = true ->
  no_sigil re (Join items sep) = true.
Proof.
  intros Hi Hs. induction Hi as [|x xs Hx Hxs IH]; [done|].
  rewrite Join_cons. destruct xs as [|y ys]; [done|].
  by rewrite !no_sigil_app, Hx, Hs, IH.
Qed.

Variable mint : Z -> string.

Lemma set_apart_app sk1 sk2 rest :
  set_apart re mint (sk1 ++ sk2) rest =
  set_apart re mint sk1 (flatten mint sk2 +:+ rest) && set_apart re mint sk2 rest.
Proof.
  induction sk1 as [|[s|k] sk1 IH]; simpl; [done| |].
  - by rewrite IH, andb_assoc.
  - rewrite IH, flatten_app, app_assoc_s. by rewrite !andb_assoc.
Qed.

Lemma skeleton_pieces_text sk :
  concat_strings (map piece_text (skeleton_pieces mint sk)) = flatten mint sk.
Proof.
  induction sk as [|[s|k] sk IH]; [done| |].
  - unfold skeleton_pieces. simpl. rewrite map_app, concat_strings_app.
    fold (skeleton_pieces mint sk). rewrite IH, flatten_cons. f_equal.
    simpl. clear. induction s as [|c s IHs]; [done|].
    simpl. by rewrite IHs.
  - unfold skeleton_pieces. simpl. fold (skeleton_pieces mint sk).
    by rewrite IH.
Qed.

(** The matcher finds in a text set apart exactly its placeholders. *)
Lemma pieces_skeleton sk : forall rest,
  set_apart re mint sk rest = true ->
  pieces re (flatten mint sk +:+ rest)
  = (skeleton_pieces mint sk ++ pieces re rest)%list.
Proof.
  induction sk as [|[s|k] sk IH]; intros rest H; [done| |].
  - simpl in H. apply andb_prop in H as [Hs H].
    rewrite flatten_cons, app_assoc_s. simpl seg_text.
    rewrite pieces_literal by done. rewrite IH by done.
    unfold skeleton_pieces. simpl. by rewrite <- app_assoc.
  - simpl in H. apply andb_prop in H as [H H3]. apply andb_prop in H as [H1 H2].
    apply negb_true_iff in H2.
    rewrite flatten_cons, app_assoc_s. simpl seg_text.
    rewrite pieces_marker by done. by rewrite IH.
Qed.

Lemma pieces_skeleton_whole sk :
  set_apart re mint sk EmptyString = true ->
  pieces re (flatten mint sk) = skeleton_pieces mint sk.
Proof.
  intros H. rewrite <- (app_empty_r (flatten mint sk)).
  rewrite pieces_skeleton by done. simp pieces. by rewrite app_nil_r.
Qed.

End Skeletons.

(** The markers of both schemes are whole matches of their patterns. *)
Lemma positional_marker_is_marker k :
  0 <= k -> is_marker placeholderRe (positional_marker k) = true.
Proof.
  intros Hk. destruct (itoa_digits k Hk) as (d & ds & E & Hd & _).
  unfold positional_marker. rewrite E. simpl in *. by rewrite Hd.
Qed.

Lemma is_digit_is_word c : is_digit c = true -> is_word c = true.
Proof.
  unfold is_digit, is_word. intros H. by rewrite H.
Qed.

Lemma all_digit_all_word s :
  all_class is_digit s = true -> all_class is_word s = true.
Proof.
  induction s as [|c s IH]; simpl; [done|]. intros H.
  apply andb_prop in H as [Hc Hs]. by rewrite (is_digit_is_word _ Hc), IH.
Qed.

Lemma named_marker_is_marker k :
  0 <= k -> is_marker namedParamRe (named_marker k) = true.
Proof.
  intros Hk. destruct (itoa_digits k Hk) as (d & ds & E & Hd & _).
  unfold named_marker, param_name. rewrite E.
  apply all_digit_all_word in Hd. simpl in *. done.
Qed.

Lemma param_name_inj a b : param_name a = param_name b -> a = b.
Proof. unfold param_name. intros H. apply itoa_inj. by simplify_eq. Qed.

Lemma positional_marker_number k :
  0 <= k -> digits_value (tail1 (positional_marker k)) = k.
Proof.
  intros Hk. destruct (itoa_digits k Hk) as (d & ds & E & _ & Hv).
  unfold positional_marker. simpl. by rewrite E.
Qed.

(** ** Conditions under both schemes *)

Lemma Condition_tree_ind (P : Condition -> Prop) :
  (forall op col val, P (Compare op col val)) ->
  (forall i col pattern, P (Matches i col pattern)) ->
  (forall col vals, P (Among col vals)) ->
  (forall col low high, P (Within col low high)) ->
  (forall neg col, P (Null neg col)) ->
  (forall d qs, Forall P qs -> P (Junction d qs)) ->
  (forall q, P q -> P (Negation q)) ->
  forall q, P q.
Proof.
  intros H1 H2 H3 H4 H5 H6 H7.
  fix IH 1. intros [op col val|i col pat|col vals|col lo hi|neg col|d qs|q].
  - apply H1.
  - apply H2.
  - apply H3.
  - apply H4.
  - apply H5.
  - apply H6. induction qs as [|q qs IHqs]; constructor; [apply IH|apply IHqs].
  - apply H7, IH.
Qed.

Lemma skeleton_Junction d qs c :
  skeleton (Junction d qs) c =
  match qs with
  | [] => []
  | [q] => skeleton q c
  | _ => Txt "(" :: (join_segs (if d then " OR " else " AND ") (skeletons qs c)
                     ++ [Txt ")"])%list
  end.
Proof. done. Qed.

Lemma values_Junction d qs : values (Junction d qs) = concat (map values qs).
Proof. done. Qed.

Lemma positional_pred_Junction d qs :
  positional_pred (Junction d qs) =
  (if d then Positional.orPred else Positional.andPred) (map positional_pred qs).
Proof. by destruct d. Qed.

Lemma named_pred_Junction d qs :
  named_pred (Junction d qs) =
  (if d then Named.orPred else Named.andPred) (map named_pred qs).
Proof. by destruct d. Qed.

(** The placeholder list of [IN]. *)
Lemma in_placeholders_run {A} (vals : list A) : forall c,
  is_int c -> c + len vals <= int_max ->
  imap (fun i _ => "$" +:+ itoa (iadd c (Z.of_nat i))) vals
  = map (fun k => flatten positional_marker [Ph k]) (run c (List.length vals)).
Proof.
  induction vals as [|v vals IH]; intros c Hc Hle; [done|].
  rewrite imap_cons. simpl.
  f_equal.
  - unfold flatten, positional_marker. simpl. rewrite app_empty_r.
    rewrite iadd_exact by int_bounds. by rewrite Z.add_0_r.
  - rewrite <- IH by int_bounds.
    apply imap_ext. intros i x H. simpl.
    rewrite !iadd_exact by (apply lookup_lt_Some in H; int_bounds).
    do 2 f_equal. lia.
Qed.

Lemma positional_thread_skeletons qs :
  Forall positional_rendering qs ->
  forall c, is_int c -> c + len (concat (map values qs)) <= int_max ->
    Positional.fragments (Positional.thread (map positional_pred qs) c)
    = map (flatten positional_marker) (skeletons qs c)
    /\ Positional.contributed (Positional.thread (map positional_pred qs) c)
       = concat (map values qs)
    /\ Positional.final_cursor (Positional.thread (map positional_pred qs) c) c
       = c + len (concat (map values qs)).
Proof.
  induction 1 as [|q qs Hq Hqs IH]; intros c Hc Hle.
  { repeat split; try done. unfold Positional.final_cursor, len. simpl. lia. }
  simpl in Hle. rewrite len_app in Hle.
  pose proof (len_nonneg (values q)).
  pose proof (len_nonneg (concat (map values qs))).
  assert (is_int (c + len (values q))) as Hc' by (unfold is_int in *; lia).
  destruct (IH (c + len (values q)) Hc' ltac:(lia)) as (IH1 & IH2 & IH3).
  simpl. rewrite Hq by (done || lia). simpl.
  unfold Positional.final_cursor. simpl map.
  rewrite default_last_cons. fold (Positional.final_cursor
    (Positional.thread (map positional_pred qs) (c + len (values q)))
    (c + len (values q))).
  rewrite IH3. split; [|split].
  - unfold Positional.fragments in *. simpl. by rewrite IH1.
  - unfold Positional.contributed in *. simpl. by rewrite IH2.
  - rewrite len_app. lia.
Qed.

(** What the positional scheme renders for a condition: its skeleton
    with [$N] markers, its values, and the cursor advanced by their
    number. *)
Lemma positional_skeleton q : positional_rendering q.
Proof.
  induction q as [op col val|i col pat|col vals|col lo hi|neg col|d qs IH|q IH]
    using Condition_tree_ind; intros c Hc Hle.
  - assert (iadd c 1 = c + 1) as E by (apply iadd_exact; int_bounds).
    destruct op; simpl; rewrite E; unfold flatten, positional_marker; simpl;
      by normalize_text.
  - assert (iadd c 1 = c + 1) as E by (apply iadd_exact; int_bounds).
    destruct i; simpl; rewrite E; unfold flatten, positional_marker; simpl;
      by normalize_text.
  - simpl in *. pose proof (len_nonneg vals).
    rewrite in_placeholders_run by done.
    rewrite iadd_exact by (unfold is_int in *; lia).
    rewrite flatten_cons, flatten_app, flatten_join, map_map. simpl.
    f_equal. f_equal. by normalize_text.
  - simpl in *.
    assert (iadd c 1 = c + 1) as E1 by (apply iadd_exact; int_bounds).
    assert (iadd c 2 = c + 2) as E2 by (apply iadd_exact; int_bounds).
    rewrite E1, E2. unfold flatten, positional_marker; simpl. by normalize_text.
  - destruct neg; simpl; unfold flatten; simpl; normalize_text;
      by rewrite Z.add_0_r.
  - rewrite positional_pred_Junction, skeleton_Junction, values_Junction in *.
    destruct (positional_thread_skeletons qs IH c Hc Hle) as (E1 & E2 & E3).
    assert (Positional.ToSQL
              ((if d then Positional.orPred else Positional.andPred)
                 (map positional_pred qs)) c
            = Positional.combinePredicates Positional.ToSQL
                (map positional_pred qs) (if d then "OR" else "AND") c) as ->
      by (by destruct d).
    pose proof (PositionalFacts.combinePredicates_cases
                  (map positional_pred qs) (if d then "OR" else "AND") c) as Hcases.
    destruct qs as [|q1 [|q2 qs]].
    + unfold Positional.combinePredicates, len. simpl. by rewrite Z.add_0_r.
    + apply Forall_inv in IH. unfold Positional.combinePredicates. simpl in *.
      rewrite app_nil_r in *. by apply IH.
    + simpl map in Hcases. simpl map. rewrite Hcases. simpl map in E1, E2, E3.
      rewrite E1, E2, E3.
      rewrite flatten_cons, flatten_app, flatten_join. simpl seg_text.
      f_equal. f_equal. destruct d; by normalize_text.
  - simpl in *. rewrite IH by done.
    rewrite flatten_cons, flatten_app. simpl. by normalize_text.
Qed.

(** ** The argument map of the named scheme *)

Lemma named_args_lookup_below vs : forall c j,
  j < c -> named_args c vs !! param_name j = None.
Proof.
  induction vs as [|v vs IH]; intros c j Hj; simpl; [done|].
  rewrite lookup_insert_ne.
  - apply IH. lia.
  - intros E. apply param_name_inj in E. lia.
Qed.

Lemma named_args_lookup vs : forall c i v,
  vs !! i = Some v -> named_args c vs !! param_name (c + Z.of_nat i) = Some v.
Proof.
  induction vs as [|w vs IH]; intros c i v Hi; [done|].
  destruct i as [|i]; simpl in *.
  - simplify_eq. rewrite Z.add_0_r. by rewrite lookup_insert_eq.
  - rewrite lookup_insert_ne.
    + replace (c + Z.of_nat (S i)) with (c + 1 + Z.of_nat i) by lia.
      by apply IH.
    + intros E. apply param_name_inj in E. lia.
Qed.

Lemma named_args_dom vs : forall c n,
  is_Some (named_args c vs !! n) ->
  exists i, (i < List.length vs)%nat /\ n = param_name (c + Z.of_nat i).
Proof.
  induction vs as [|w vs IH]; intros c n [v Hv]; simpl in *; [done|].
  destruct (decide (param_name c = n)) as [<-|Hne].
  - exists O. split; [lia|]. by rewrite Z.add_0_r.
  - rewrite lookup_insert_ne in Hv by done.
    destruct (IH (c + 1) n) as (i & Hi & ->); [by eexists|].
    exists (S i). split; [lia|]. f_equal. lia.
Qed.

Lemma named_args_size vs : forall c, size (named_args c vs) = List.length vs.
Proof.
  induction vs as [|w vs IH]; intros c; simpl; [done|].
  rewrite map_size_insert_None; [by rewrite IH|].
  apply named_args_lookup_below. lia.
Qed.

Lemma named_args_app vs1 : forall c vs2,
  named_args c (vs1 ++ vs2)
  = named_args (c + len vs1) vs2 ∪ named_args c vs1.
Proof.
  induction vs1 as [|v vs1 IH]; intros c vs2; simpl.
  - unfold len. simpl. rewrite Z.add_0_r. by rewrite (right_id ∅ (∪)).
  - rewrite IH. rewrite insert_union_r.
    + do 2 f_equal. unfold len. simpl. lia.
    + apply named_args_lookup_below. unfold len. simpl. lia.
Qed.

Lemma nextParam_exact k :
  is_int k -> k + 1 <= int_max ->
  Named.nextParam k = (k + 1, param_name (k + 1)).
Proof.
  intros Hk Hle. unfold Named.nextParam.
  by rewrite iadd_exact by (unfold is_int in *; lia).
Qed.

(** The loop of [inPred.ToSQL]. *)
Lemma named_in_step_run vals : forall phs args k,
  is_int k -> k + len vals <= int_max ->
  fold_left Named.in_step vals (phs, args, k)
  = ((phs ++ map (fun j => flatten named_marker [Ph j])
                (run (k + 1) (List.length vals)))%list,
     named_args (k + 1) vals ∪ args,
     k + len vals).
Proof.
  induction vals as [|v vals IH]; intros phs args k Hk Hle.
  - simpl. unfold len. simpl.
    by rewrite app_nil_r, Z.add_0_r, (left_id ∅ (∪)).
  - pose proof (len_nonneg vals).
    assert (len (v :: vals) = 1 + len vals) as El by (unfold len; simpl; lia).
    rewrite El in *.
    change (fold_left Named.in_step (v :: vals) (phs, args, k))
      with (fold_left Named.in_step vals (Named.in_step (phs, args, k) v)).
    unfold Named.in_step at 2.
    rewrite nextParam_exact by (done || lia).
    rewrite IH by (unfold is_int in *; lia).
    simpl. f_equal; [f_equal|lia].
    + rewrite <- app_assoc. simpl. do 2 f_equal.
      unfold flatten, named_marker. simpl. by rewrite app_empty_r.
    + rewrite <- insert_union_l.
      rewrite insert_union_r; [done|].
      apply named_args_lookup_below. lia.
Qed.

Lemma named_thread_skeletons qs :
  Forall named_rendering qs ->
  forall k start, is_int k -> k + len (concat (map values qs)) <= int_max ->
    Named.fragments (Named.thread (map named_pred qs) k)
    = map (flatten named_marker) (skeletons qs (k + 1))
    /\ Named.merged (Named.thread (map named_pred qs) k) start
       = named_args (k + 1) (concat (map values qs)) ∪ start
    /\ Named.final_counter (Named.thread (map named_pred qs) k) k
       = k + len (concat (map values qs)).
Proof.
  induction 1 as [|q qs Hq Hqs IH]; intros k start Hk Hle.
  { simpl. rewrite (left_id ∅ (∪)). repeat split; try done.
    unfold Named.final_counter, len. simpl. lia. }
  simpl in Hle. rewrite len_app in Hle.
  pose proof (len_nonneg (values q)).
  pose proof (len_nonneg (concat (map values qs))).
  assert (is_int (k + len (values q))) as Hk' by (unfold is_int in *; lia).
  destruct (IH (k + len (values q))
              (named_args (k + 1) (values q) ∪ start) Hk' ltac:(lia))
    as (IH1 & IH2 & IH3).
  simpl. rewrite Hq by (done || lia). simpl.
  unfold Named.final_counter. simpl map.
  rewrite default_last_cons. fold (Named.final_counter
    (Named.thread (map named_pred qs) (k + len (values q)))
    (k + len (values q))).
  rewrite IH3. split; [|split].
  - unfold Named.fragments in *. simpl. rewrite IH1.
    do 3 f_equal. lia.
  - unfold Named.merged in *. simpl. rewrite IH2.
    rewrite named_args_app, (assoc_L (∪)). do 3 f_equal. lia.
  - rewrite len_app. lia.
Qed.

(** What the named scheme renders for a condition: its skeleton with
    [@pN] markers, its values under the names [p(k+1)], [p(k+2)], ..., and
    the counter advanced by their number. *)
Lemma named_skeleton q : named_rendering q.
Proof.
  induction q as [op col val|i col pat|col vals|col lo hi|neg col|d qs IH|q IH]
    using Condition_tree_ind; intros k Hk Hle.
  - simpl in Hle. unfold len in Hle. simpl in Hle.
    destruct op; simpl; unfold Named.compare_ToSQL;
      rewrite nextParam_exact by (done || lia);
      rewrite insert_empty; unfold flatten, named_marker, len; simpl;
      by normalize_text.
  - simpl in Hle. unfold len in Hle. simpl in Hle.
    destruct i; simpl; unfold Named.compare_ToSQL;
      rewrite nextParam_exact by (done || lia);
      rewrite insert_empty; unfold flatten, named_marker, len; simpl;
      by normalize_text.
  - simpl in *. rewrite named_in_step_run by done.
    rewrite (right_id ∅ (∪)).
    rewrite flatten_cons, flatten_app, flatten_join, map_map. simpl.
    f_equal. f_equal. by normalize_text.
  - simpl in Hle. unfold len in Hle. simpl in Hle.
    assert (iadd k 1 = k + 1) as E1
      by (apply iadd_exact; unfold is_int in *; lia).
    assert (iadd (k + 1) 1 = k + 2) as E2
      by (rewrite iadd_exact; unfold is_int in *; lia).
    simpl. rewrite E1, E2.
    replace (k + 1 + 1) with (k + 2) by lia.
    apply pair_equal_spec. split; [apply pair_equal_spec; split|done].
    + unfold flatten, named_marker, param_name. simpl. by normalize_text.
    + rewrite !insert_empty. fold (param_name (k + 1)). fold (param_name (k + 2)).
      rewrite <- !insert_empty.
      apply insert_insert_ne. intros E. apply param_name_inj in E. lia.
  - destruct neg; simpl; unfold flatten; simpl; normalize_text;
      by rewrite Z.add_0_r.
  - rewrite named_pred_Junction, skeleton_Junction, values_Junction in *.
    destruct (named_thread_skeletons qs IH k ∅ Hk Hle) as (E1 & E2 & E3).
    assert (Named.ToSQL
              ((if d then Named.orPred else Named.andPred)
                 (map named_pred qs)) k
            = Named.combinePredicates Named.ToSQL
                (map named_pred qs) (if d then "OR" else "AND") k) as ->
      by (by destruct d).
    pose proof (NamedFacts.named_combinePredicates_cases
                  (map named_pred qs) (if d then "OR" else "AND") k) as Hcases.
    destruct qs as [|q1 [|q2 qs]].
    + unfold Named.combinePredicates, len. simpl. by rewrite Z.add_0_r.
    + apply Forall_inv in IH. unfold Named.combinePredicates. simpl in *.
      rewrite app_nil_r in *. by apply IH.
    + simpl map in Hcases. simpl map. rewrite Hcases. simpl map in E1, E2, E3.
      rewrite E1, E2, E3. rewrite (right_id ∅ (∪)).
      rewrite flatten_cons, flatten_app, flatten_join. simpl seg_text.
      f_equal. f_equal. destruct d; by normalize_text.
  - simpl in *. rewrite IH by done.
    rewrite flatten_cons, flatten_app. simpl. by normalize_text.
Qed.

(** ** Conditions are set apart *)

(** A text of the package's own (an operator, a keyword, a bracket) has
    no sigil, for a pattern whose sigil is [$] or [@]. *)
Ltac fixed_text_by H :=
  unfold no_sigil; destruct H as [-> | ->]; by vm_compute.

Section Apart.

Variable re : regexp.
Variable mint : Z -> string.

Hypothesis sigil_cases : sigil re = "$"%char \/ sigil re = "@"%char.
Hypothesis class_word :
  forall c, class re c = true -> is_word c = true \/ c = "$"%char.
Hypothesis mint_marker : forall k, 0 <= k -> is_marker re (mint k) = true.


(** A byte that is no word byte, nor [$], is not of the class. *)
Lemma not_word_not_class c :
  is_word c = false -> c <> "$"%char -> class re c = false.
Proof.
  intros H Hc. destruct (class re c) eqn:E; [|done].
  apply class_word in E as [E|E]; congruence.
Qed.

Lemma set_apart_join sep sks : forall rest,
  no_sigil re sep = true ->
  (forall x, head_in_class re (sep +:+ x) = false) ->
  Forall (fun sk => forall rest', head_in_class re rest' = false ->
                      set_apart re mint sk rest' = true) sks ->
  head_in_class re rest = false ->
  set_apart re mint (join_segs sep sks) rest = true.
Proof.
  intros rest Hsep Hhead Hsks Hrest.
  induction Hsks as [|sk sks Hsk Hsks IH]; [done|].
  destruct sks as [|sk' sks]; [by apply Hsk|].
  change (join_segs sep (sk :: sk' :: sks))
    with (sk ++ Txt sep :: join_segs sep (sk' :: sks))%list.
  rewrite set_apart_app. apply andb_true_intro. split.
  - apply Hsk. rewrite flatten_cons. simpl seg_text.
    rewrite app_assoc_s. apply Hhead.
  - simpl. rewrite Hsep. simpl. apply IH.
Qed.

Lemma skeletons_set_apart qs :
  Forall (fun q => forall c rest, 0 <= c ->
            Forall (fun s => no_sigil re s = true) (columns q) ->
            head_in_class re rest = false ->
            set_apart re mint (skeleton q c) rest = true) qs ->
  forall c, 0 <= c ->
    Forall (fun s => no_sigil re s = true) (concat (map columns qs)) ->
    Forall (fun sk => forall rest', head_in_class re rest' = false ->
                        set_apart re mint sk rest' = true) (skeletons qs c).
Proof.
  induction 1 as [|q qs Hq Hqs IH]; intros c Hc Hcols; [constructor|].
  simpl in Hcols. apply Forall_app in Hcols as [Hc1 Hc2].
  simpl. constructor.
  - intros rest' Hr. by apply Hq.
  - apply IH; [|done]. pose proof (len_nonneg (values q)). lia.
Qed.

Lemma run_set_apart n : forall c, 0 <= c ->
  Forall (fun sk => forall rest', head_in_class re rest' = false ->
                      set_apart re mint sk rest' = true)
         (map (fun k => [Ph k]) (run c n)).
Proof.
  induction n as [|n IH]; intros c Hc; simpl; constructor.
  - intros rest' Hr. simpl. rewrite mint_marker by done.
    rewrite flatten_nil, app_empty_l, Hr. done.
  - apply IH. lia.
Qed.

(** The text of a condition whose columns have no sigil is set apart from
    whatever follows it, unless that begins with a byte of the class. *)
Lemma skeleton_set_apart q : forall c rest,
  0 <= c ->
  Forall (fun s => no_sigil re s = true) (columns q) ->
  head_in_class re rest = false ->
  set_apart re mint (skeleton q c) rest = true.
Proof.
  induction q as [op col val|i col pat|col vals|col lo hi|neg col|d qs IH|q IH]
    using Condition_tree_ind; intros c rest Hc Hcols Hrest.
  - apply Forall_inv in Hcols. simpl.
    rewrite no_sigil_app, Hcols, mint_marker, flatten_nil, app_empty_l, Hrest
      by done.
    simpl. rewrite andb_true_r. destruct op; fixed_text_by sigil_cases.
  - apply Forall_inv in Hcols. simpl.
    rewrite no_sigil_app, Hcols, mint_marker, flatten_nil, app_empty_l, Hrest
      by done.
    simpl. rewrite andb_true_r. destruct i; fixed_text_by sigil_cases.
  - apply Forall_inv in Hcols. simpl.
    rewrite no_sigil_app, Hcols. simpl.
    rewrite set_apart_app. simpl.
    rewrite set_apart_join; try done.
    + simpl. rewrite andb_true_r.
      replace (no_sigil re " IN (") with true by (symmetry; fixed_text_by sigil_cases).
      replace (no_sigil re ")") with true by (symmetry; fixed_text_by sigil_cases). done.
    + fixed_text_by sigil_cases.
    + intros x. simpl. by apply not_word_not_class.
    + by apply run_set_apart.
    + rewrite flatten_cons. simpl. by apply not_word_not_class.
  - apply Forall_inv in Hcols. simpl.
    rewrite no_sigil_app, Hcols, !mint_marker, flatten_nil, app_empty_l, Hrest
      by lia.
    rewrite (not_word_not_class " "%char) by done.
    replace (no_sigil re " BETWEEN ") with true by (symmetry; fixed_text_by sigil_cases).
    replace (no_sigil re " AND ") with true by (symmetry; fixed_text_by sigil_cases). done.
  - apply Forall_inv in Hcols. simpl.
    rewrite no_sigil_app, Hcols. simpl. rewrite andb_true_r.
    destruct neg; fixed_text_by sigil_cases.
  - rewrite skeleton_Junction. simpl in Hcols.
    pose proof (skeletons_set_apart qs IH c Hc Hcols) as Hsks.
    destruct qs as [|q1 [|q2 qs]]; [done| |].
    + apply Forall_inv in IH. simpl in Hcols. rewrite app_nil_r in Hcols.
      by apply IH.
    + remember (q1 :: q2 :: qs) as qs' eqn:Eqs.
      simpl. rewrite set_apart_app.
      replace (no_sigil re "(") with true by (symmetry; fixed_text_by sigil_cases).
      simpl.
      replace (no_sigil re ")") with true by (symmetry; fixed_text_by sigil_cases).
      rewrite andb_true_r.
      apply set_apart_join; try done.
      * destruct d; fixed_text_by sigil_cases.
      * intros x. destruct d; simpl; by apply not_word_not_class.
      * rewrite flatten_cons. simpl. by apply not_word_not_class.
  - simpl. rewrite set_apart_app. simpl.
    replace (no_sigil re "NOT (") with true by (symmetry; fixed_text_by sigil_cases).
    replace (no_sigil re ")") with true by (symmetry; fixed_text_by sigil_cases).
    rewrite andb_true_r. simpl. apply IH; try done.
    rewrite flatten_cons. simpl. by apply not_word_not_class.
Qed.

End Apart.

(** ** The placeholders of a text *)

Lemma placeholders_Txt s sk : placeholders (Txt s :: sk) = placeholders sk.
Proof. done. Qed.

Lemma placeholders_Ph k sk : placeholders (Ph k :: sk) = k :: placeholders sk.
Proof. done. Qed.

Lemma placeholders_join sep sks :
  placeholders (join_segs sep sks) = concat (map placeholders sks).
Proof.
  induction sks as [|sk [|sk' sks] IH]; [done|by simpl; rewrite app_nil_r|].
  change (join_segs sep (sk :: sk' :: sks))
    with (sk ++ Txt sep :: join_segs sep (sk' :: sks))%list.
  by rewrite placeholders_app, placeholders_Txt, IH.
Qed.

Lemma placeholders_run c n :
  concat (map placeholders (map (fun k => [Ph k]) (run c n))) = run c n.
Proof.
  revert c. induction n as [|n IH]; intros c; simpl; [done|]. by rewrite IH.
Qed.

Lemma skeletons_placeholders qs :
  Forall (fun q => forall c,
            placeholders (skeleton q c) = run c (List.length (values q))) qs ->
  forall c, concat (map placeholders (skeletons qs c))
            = run c (List.length (all_values qs)).
Proof.
  induction 1 as [|q qs Hq Hqs IH]; intros c; [done|].
  unfold all_values. simpl. rewrite length_app, run_app, Hq.
  f_equal. apply IH.
Qed.

(** The placeholders of a condition are numbered from its first one, one
    for each value. *)
Lemma skeleton_placeholders q : forall c,
  placeholders (skeleton q c) = run c (List.length (values q)).
Proof.
  induction q as [op col val|i col pat|col vals|col lo hi|neg col|d qs IH|q IH]
    using Condition_tree_ind; intros c; try done.
  - cbn [skeleton values].
    rewrite placeholders_Txt, placeholders_app, placeholders_join,
      placeholders_run.
    simpl. by rewrite app_nil_r.
  - rewrite skeleton_Junction, values_Junction.
    pose proof (skeletons_placeholders qs IH c) as Hsks.
    destruct qs as [|q1 [|q2 qs]]; [done| |].
    + apply Forall_inv in IH. simpl. rewrite app_nil_r. apply IH.
    + remember (q1 :: q2 :: qs) as qs'.
      rewrite placeholders_Txt, placeholders_app, placeholders_join, Hsks.
      simpl. by rewrite app_nil_r.
  - cbn [skeleton values]. rewrite placeholders_Txt, placeholders_app, IH.
    simpl. by rewrite app_nil_r.
Qed.

Lemma positional_marker_nonneg k :
  is_marker placeholderRe (positional_marker k) = true -> 0 <= k.
Proof. destruct k as [|p|p]; [done|lia|]. by vm_compute. Qed.

Lemma set_apart_placeholders_nonneg sk : forall rest,
  set_apart placeholderRe positional_marker sk rest = true ->
  Forall (fun k => 0 <= k) (placeholders sk).
Proof.
  induction sk as [|[s|k] sk IH]; intros rest H; simpl in H.
  - constructor.
  - apply andb_prop in H as [_ H]. by eapply IH.
  - apply andb_prop in H as [H H3]. apply andb_prop in H as [H1 _].
    unfold placeholders. simpl. constructor.
    + by apply positional_marker_nonneg.
    + by eapply IH.
Qed.

Lemma skeleton_pieces_Txt mint s sk :
  skeleton_pieces mint (Txt s :: sk)
  = (map Lit (list_ascii_of_string s) ++ skeleton_pieces mint sk)%list.
Proof. done. Qed.

Lemma skeleton_pieces_Ph mint k sk :
  skeleton_pieces mint (Ph k :: sk) = Match (mint k) :: skeleton_pieces mint sk.
Proof. done. Qed.

Lemma omap_literals {A} (f : string -> A) (l : list ascii) :
  omap (fun p => match p with Lit _ => None | Match m => Some (f m) end)
       (map Lit l) = [].
Proof. induction l; [done|]. by simpl. Qed.

(** The numbers the matcher reads in a positional text set apart are its
    placeholder numbers. *)
Lemma marker_numbers_skeleton sk :
  set_apart placeholderRe positional_marker sk EmptyString = true ->
  Positional.marker_numbers (flatten positional_marker sk) = placeholders sk.
Proof.
  intros H. unfold Positional.marker_numbers.
  rewrite pieces_skeleton_whole by done.
  apply set_apart_placeholders_nonneg in H.
  induction sk as [|[s|k] sk IH].
  - done.
  - rewrite skeleton_pieces_Txt, omap_app, omap_literals, placeholders_Txt.
    by apply IH.
  - rewrite placeholders_Ph in *. apply Forall_cons in H as [Hk H].
    rewrite skeleton_pieces_Ph.
    change (omap ?f (Match ?m :: ?l))
      with (digits_value (tail1 m) :: omap f l).
    rewrite positional_marker_number by done. f_equal. by apply IH.
Qed.

(** The names the matcher reads in a named text set apart are the names
    of its placeholder numbers. *)
Lemma marker_names_skeleton sk :
  set_apart namedParamRe named_marker sk EmptyString = true ->
  Named.marker_names (flatten named_marker sk)
  = map param_name (placeholders sk).
Proof.
  intros H. unfold Named.marker_names.
  rewrite pieces_skeleton_whole by done. clear H.
  induction sk as [|[s|k] sk IH].
  - done.
  - rewrite skeleton_pieces_Txt, omap_app, omap_literals, placeholders_Txt.
    by apply IH.
  - rewrite placeholders_Ph, skeleton_pieces_Ph.
    change (omap ?f (Match ?m :: ?l)) with (tail1 m :: omap f l).
    simpl map. f_equal. by apply IH.
Qed.

(** A text without placeholders reads the same under both schemes. *)
Lemma flatten_no_placeholder mint1 mint2 sk :
  placeholders sk = [] -> flatten mint1 sk = flatten mint2 sk.
Proof.
  induction sk as [|[s|k] sk IH]; intros H; [done| |done].
  rewrite !flatten_cons. simpl. f_equal. by apply IH.
Qed.

Lemma extend_names_fresh names : forall known,
  NoDup (known ++ names) -> Named.extend_names known names = (known ++ names)%list.
Proof.
  induction names as [|n names IH]; intros known Hnd.
  - by rewrite app_nil_r.
  - rewrite NamedFacts.extend_names_cons.
    assert (n ∉ known) as Hn.
    { apply NoDup_app in Hnd as (_ & Hd & _). intros Hin.
      apply (Hd n Hin). left. }
    rewrite decide_False by done.
    rewrite IH; rewrite <- app_assoc; done.
Qed.

Lemma first_occurrences_NoDup_id names :
  NoDup names -> Named.first_occurrences names = names.
Proof. intros H. unfold Named.first_occurrences. by rewrite extend_names_fresh. Qed.

Lemma run_lookup n : forall c i,
  (i < n)%nat -> run c n !! i = Some (c + Z.of_nat i).
Proof.
  induction n as [|n IH]; intros c i Hi; [lia|].
  destruct i as [|i]; simpl.
  - by rewrite Z.add_0_r.
  - rewrite IH by lia. f_equal. lia.
Qed.

Lemma param_names_NoDup c n : NoDup (map param_name (run c n)).
Proof.
  apply NoDup_fmap_2; [|apply run_NoDup].
  intros a b. apply param_name_inj.
Qed.

Lemma named_args_values vs : forall c,
  map (Named.index_map (named_args c vs)) (map param_name (run c (List.length vs)))
  = vs.
Proof.
  intros c. apply list_eq. intros i.
  rewrite !list_lookup_fmap.
  destruct (vs !! i) as [v|] eqn:E.
  - rewrite run_lookup by (by eapply lookup_lt_Some). simpl.
    unfold Named.index_map. by rewrite (named_args_lookup vs c i v).
  - apply lookup_ge_None in E.
    rewrite (proj2 (lookup_ge_None _ _)); [done|]. rewrite run_length. lia.
Qed.

(** The bridge counts names, not bytes: its counter stays in range as
    long as the markers of the text are fewer than [2^63]. *)
Lemma replace_pieces_bridge_names named ps : forall st known,
  Named.bridge_inv named st known ->
  len known + len (Named.piece_names ps) <= int_max ->
  exists st',
    replace_pieces (Named.bridge_callback named) ps st =
      (concat_strings
         (map (Named.positioned (Named.extend_names known (Named.piece_names ps))) ps),
       st')
    /\ Named.bridge_inv named st' (Named.extend_names known (Named.piece_names ps)).
Proof.
  induction ps as [|[c|m] ps IH]; intros st known Hinv Hlen.
  - exists st. by split.
  - destruct (IH st known Hinv) as (st' & Heq & Hinv'); [done|].
    exists st'. simpl. rewrite Heq. by split.
  - assert (len (Named.piece_names (Match m :: ps))
            = 1 + len (Named.piece_names ps)) as El
      by (unfold len; simpl; lia).
    rewrite El in Hlen. pose proof (len_nonneg (Named.piece_names ps)).
    pose proof (len_nonneg known).
    simpl Named.piece_names. rewrite NamedFacts.extend_names_cons.
    destruct Hinv as (Hargs & Hcnt & Hseen).
    simpl replace_pieces. unfold Named.bridge_callback at 1.
    rewrite (Hseen (tail1 m)).
    destruct (decide (tail1 m ∈ known)) as [Hin|Hnin].
    + destruct (IH st known) as (st' & Heq & Hinv'); [by split_and!|lia|].
      rewrite Heq. exists st'. split; [|done].
      simpl. do 3 f_equal.
      destruct (NamedFacts.extend_names_prefix (Named.piece_names ps) known)
        as [more ->].
      unfold Named.position. by rewrite NamedFacts.index_of_app_in.
    + assert (iadd (Named.bcounter st) 1 = len known + 1) as Hc.
      { rewrite Hcnt. apply iadd_exact. unfold is_int, int_min in *. lia. }
      rewrite Hc.
      set (st1 := Named.mk_bridge_state _ _ _).
      destruct (IH st1 (known ++ [tail1 m])%list) as (st' & Heq & Hinv').
      { subst st1. split_and!; simpl.
        - by rewrite Hargs, map_app.
        - rewrite len_app. unfold len. simpl. lia.
        - intros n. destruct (decide (n = tail1 m)) as [->|Hne].
          + rewrite lookup_insert_eq.
            rewrite decide_True
              by (apply elem_of_app; right; by apply list_elem_of_singleton).
            unfold Named.position.
            rewrite NamedFacts.index_of_app_notin by done.
            unfold len. done.
          + rewrite lookup_insert_ne by done. rewrite Hseen.
            destruct (decide (n ∈ known)) as [Hk|Hk].
            * rewrite decide_True by (apply elem_of_app; by left).
              unfold Named.position. by rewrite NamedFacts.index_of_app_in.
            * rewrite decide_False; [done|].
              rewrite elem_of_app, list_elem_of_singleton. tauto. }
      { rewrite len_app. unfold len in *. simpl in *. lia. }
      rewrite Heq. exists st'. split; [|done].
      simpl. do 3 f_equal.
      destruct (NamedFacts.extend_names_prefix (Named.piece_names ps)
                  (known ++ [tail1 m])%list) as [more ->].
      unfold Named.position.
      rewrite NamedFacts.index_of_app_in
        by (apply elem_of_app; right; by apply list_elem_of_singleton).
      rewrite NamedFacts.index_of_app_notin by done. unfold len. done.
Qed.

Lemma namedToPositional_markers query named :
  size named <> 0%nat ->
  len (Named.marker_names query) <= int_max ->
  Named.namedToPositional query named =
  (Named.bridge_text query,
   map (Named.index_map named)
       (Named.first_occurrences (Named.marker_names query))).
Proof.
  intros Hne Hlen. unfold Named.namedToPositional.
  rewrite bool_decide_eq_false_2 by done.
  unfold ReplaceAllStringFuncSt.
  destruct (replace_pieces_bridge_names named (pieces namedParamRe query)
              (Named.mk_bridge_state ∅ [] 0) [] (NamedFacts.bridge_inv_init named))
    as (st' & Heq & Hargs & _).
  { unfold len at 1. simpl. apply Hlen. }
  rewrite Heq. by rewrite Hargs.
Qed.

(** Rewriting the markers of a text set apart rewrites its placeholders. *)
Lemma replace_skeleton re mint1 mint2 f sk :
  set_apart re mint1 sk EmptyString = true ->
  (forall k, k ∈ placeholders sk -> f (mint1 k) = mint2 k) ->
  ReplaceAllStringFunc re (flatten mint1 sk) f = flatten mint2 sk.
Proof.
  intros Hap Hf. unfold ReplaceAllStringFunc.
  rewrite pieces_skeleton_whole by done. clear Hap.
  induction sk as [|[s|k] sk IH]; [done| |].
  - rewrite skeleton_pieces_Txt, map_app, concat_strings_app, flatten_cons.
    rewrite IH by done. f_equal. simpl.
    clear. induction s as [|c s IHs]; [done|]. simpl. by rewrite IHs.
  - rewrite skeleton_pieces_Ph, flatten_cons. simpl.
    rewrite Hf by (rewrite placeholders_Ph; left).
    f_equal. apply IH. intros j Hj. apply Hf. rewrite placeholders_Ph. by right.
Qed.

(** The bridge on a named text whose placeholders are numbered [1..n] in
    text order and whose map holds the values under [p1..pn]: every
    [@pK] becomes [$K], and the values come out in order. *)
Lemma bridge_skeleton sk vs :
  set_apart namedParamRe named_marker sk EmptyString = true ->
  placeholders sk = run 1 (List.length vs) ->
  len vs <= int_max ->
  Named.namedToPositional (flatten named_marker sk) (named_args 1 vs)
  = (flatten positional_marker sk, vs).
Proof.
  intros Hap Hph Hlen.
  destruct (decide (vs = [])) as [->|Hne].
  { simpl. rewrite NamedFacts.namedToPositional_empty.
    f_equal. by apply flatten_no_placeholder. }
  rewrite namedToPositional_markers.
  2:{ rewrite named_args_size. by destruct vs. }
  2:{ rewrite marker_names_skeleton, Hph by done.
      unfold len. by rewrite length_map, run_length. }
  unfold Named.bridge_text.
  rewrite marker_names_skeleton, Hph by done.
  rewrite first_occurrences_NoDup_id by apply param_names_NoDup.
  rewrite named_args_values. f_equal.
  apply replace_skeleton; [done|].
  intros k Hk. rewrite Hph in Hk. apply run_elem in Hk.
  unfold named_marker, positional_marker. simpl tail1.
  f_equal. f_equal.
  replace k with (Z.of_nat (Z.to_nat (k - 1)) + 1) at 2 by lia.
  apply NamedFacts.position_lookup; [apply param_names_NoDup|].
  rewrite list_lookup_fmap, run_lookup by lia.
  by replace (1 + Z.of_nat (Z.to_nat (k - 1))) with k by lia.
Qed.

(** ** Statements as skeletons *)

Lemma Forall_positional_rendering qs : Forall positional_rendering qs.
Proof. apply Forall_forall. intros q _. apply positional_skeleton. Qed.

Lemma Forall_named_rendering qs : Forall named_rendering qs.
Proof. apply Forall_forall. intros q _. apply named_skeleton. Qed.

Lemma positional_where_segs kw ws sb c args :
  is_int c -> c + len (all_values ws) <= int_max ->
  Positional.write_where kw (map positional_pred ws) (sb, c, args)
  = (sb +:+ flatten positional_marker (where_segs kw ws c),
     c + len (all_values ws), (args ++ all_values ws)%list).
Proof.
  intros Hc Hle. rewrite PositionalFacts.write_where_thread.
  destruct (positional_thread_skeletons ws (Forall_positional_rendering ws) c Hc Hle)
    as (E1 & E2 & E3).
  rewrite E2, E3. unfold Positional.clause_text, where_segs.
  destruct ws as [|q ws]; [done|].
  remember (q :: ws) as qs. rewrite flatten_cons, flatten_join, <- E1.
  by subst qs.
Qed.

Lemma named_where_segs kw ws sb k args :
  is_int k -> k + len (all_values ws) <= int_max ->
  Named.write_where kw (map named_pred ws) (sb, k, args)
  = (sb +:+ flatten named_marker (where_segs kw ws (k + 1)),
     k + len (all_values ws), named_args (k + 1) (all_values ws) ∪ args).
Proof.
  intros Hk Hle. rewrite NamedFacts.named_write_where_thread.
  destruct (named_thread_skeletons ws (Forall_named_rendering ws) k args Hk Hle)
    as (E1 & E2 & E3).
  rewrite E2, E3. unfold Named.clause_text, where_segs.
  destruct ws as [|q ws]; [done|].
  remember (q :: ws) as qs. rewrite flatten_cons, flatten_join, <- E1.
  by subst qs.
Qed.

Lemma positional_bound_segs kw bound sb c args :
  is_int c -> c + len (bound_values bound) <= int_max ->
  Positional.write_bound (kw +:+ "$") bound (sb, c, args)
  = (sb +:+ flatten positional_marker (bound_segs kw bound c),
     c + len (bound_values bound), (args ++ bound_values bound)%list).
Proof.
  intros Hc Hle. destruct bound as [n|]; simpl.
  - unfold len in *. simpl in *.
    rewrite iadd_exact by (unfold is_int in *; lia).
    unfold flatten, positional_marker. simpl. by normalize_text.
  - unfold len. simpl. by rewrite app_empty_r, app_nil_r, Z.add_0_r.
Qed.

Lemma named_bound_segs kw bound sb k args :
  is_int k -> k + len (bound_values bound) <= int_max ->
  Named.write_bound (kw +:+ "@") bound (sb, k, args)
  = (sb +:+ flatten named_marker (bound_segs kw bound (k + 1)),
     k + len (bound_values bound),
     named_args (k + 1) (bound_values bound) ∪ args).
Proof.
  intros Hk Hle. destruct bound as [n|]; simpl.
  - unfold len in *. simpl in *.
    rewrite iadd_exact by (unfold is_int in *; lia).
    rewrite <- insert_union_l, (left_id ∅ (∪)).
    unfold flatten, named_marker, param_name. simpl. by normalize_text.
  - unfold len. simpl. by rewrite app_empty_r, (left_id ∅ (∪)), Z.add_0_r.
Qed.

Lemma positional_set_segs sets : forall parts c args,
  is_int c -> c + len sets <= int_max ->
  fold_left Positional.update_set sets (parts, c, args)
  = ((parts ++ map (flatten positional_marker) (set_segs sets c))%list,
     c + len sets, (args ++ map set_val sets)%list).
Proof.
  induction sets as [|s sets IH]; intros parts c args Hc Hle.
  - unfold len. simpl. by rewrite !app_nil_r, Z.add_0_r.
  - assert (len (s :: sets) = 1 + len sets) as El by (unfold len; simpl; lia).
    rewrite El in *. pose proof (len_nonneg sets).
    simpl. rewrite iadd_exact by (unfold is_int in *; lia).
    rewrite IH by (unfold is_int in *; lia).
    rewrite <- !app_assoc. simpl.
    apply pair_equal_spec. split; [apply pair_equal_spec; split|done].
    + do 3 f_equal. unfold flatten, positional_marker. simpl. by normalize_text.
    + lia.
Qed.

Lemma named_set_segs sets : forall parts k args,
  is_int k -> k + len sets <= int_max ->
  fold_left Named.update_set sets (parts, k, args)
  = ((parts ++ map (flatten named_marker) (set_segs sets (k + 1)))%list,
     k + len sets, named_args (k + 1) (map set_val sets) ∪ args).
Proof.
  induction sets as [|s sets IH]; intros parts k args Hk Hle.
  - unfold len. simpl. by rewrite !app_nil_r, Z.add_0_r, (left_id ∅ (∪)).
  - assert (len (s :: sets) = 1 + len sets) as El by (unfold len; simpl; lia).
    rewrite El in *. pose proof (len_nonneg sets).
    simpl. rewrite iadd_exact by (unfold is_int in *; lia).
    rewrite IH by (unfold is_int in *; lia).
    rewrite <- !app_assoc. simpl.
    apply pair_equal_spec. split; [apply pair_equal_spec; split|].
    + do 3 f_equal. unfold flatten, named_marker, param_name. simpl.
      by normalize_text.
    + lia.
    + fold (param_name (k + 1)).
      rewrite <- insert_union_l. rewrite insert_union_r; [done|].
      apply named_args_lookup_below. lia.
Qed.

Lemma len_map {A B} (f : A -> B) l : len (map f l) = len l.
Proof. unfold len. by rewrite length_map. Qed.

(** *** DELETE *)

Lemma positional_delete_skeleton table ws rets :
  1 + len (all_values ws) <= int_max ->
  Positional.DeleteBuilder_Build
    (Positional.mk_DeleteBuilder table (map positional_pred ws) rets)
  = (flatten positional_marker (delete_skeleton table ws rets), all_values ws).
Proof.
  intros Hle. unfold Positional.DeleteBuilder_Build.
  cbn [Positional.del_table Positional.del_where Positional.del_returning].
  rewrite positional_where_segs by (done || int_bounds).
  rewrite write_list_text. unfold delete_skeleton.
  rewrite flatten_cons, flatten_app, flatten_text. simpl seg_text.
  f_equal. by normalize_text.
Qed.

Lemma named_delete_skeleton table ws rets :
  1 + len (all_values ws) <= int_max ->
  Named.DeleteBuilder_Build
    (Named.mk_DeleteBuilder table (map named_pred ws) rets)
  = (flatten named_marker (delete_skeleton table ws rets),
     named_args 1 (all_values ws)).
Proof.
  intros Hle. unfold Named.DeleteBuilder_Build.
  cbn [Named.del_table Named.del_where Named.del_returning].
  rewrite named_where_segs by (done || int_bounds).
  rewrite write_list_text. unfold delete_skeleton.
  rewrite flatten_cons, flatten_app, flatten_text. simpl seg_text.
  rewrite (right_id ∅ (∪)). f_equal. by normalize_text.
Qed.

(** *** UPDATE *)

Lemma positional_update_skeleton table sets ws rets :
  1 + len (update_values sets ws) <= int_max ->
  Positional.UpdateBuilder_Build
    (Positional.mk_UpdateBuilder table sets (map positional_pred ws) rets)
  = (flatten positional_marker (update_skeleton table sets ws rets),
     update_values sets ws).
Proof.
  unfold update_values. rewrite len_app, len_map. intros Hle.
  pose proof (len_nonneg sets). pose proof (len_nonneg (all_values ws)).
  unfold Positional.UpdateBuilder_Build.
  cbn [Positional.upd_table Positional.upd_sets Positional.upd_where
       Positional.upd_returning].
  rewrite positional_set_segs by (done || lia).
  rewrite positional_where_segs by (unfold is_int, int_min, int_max in *; lia).
  rewrite write_list_text. unfold update_skeleton.
  rewrite flatten_cons, !flatten_app, flatten_join, flatten_text.
  simpl seg_text. simpl app. f_equal. by normalize_text.
Qed.

Lemma named_update_skeleton table sets ws rets :
  1 + len (update_values sets ws) <= int_max ->
  Named.UpdateBuilder_Build
    (Named.mk_UpdateBuilder table sets (map named_pred ws) rets)
  = (flatten named_marker (update_skeleton table sets ws rets),
     named_args 1 (update_values sets ws)).
Proof.
  unfold update_values. rewrite len_app, len_map. intros Hle.
  pose proof (len_nonneg sets). pose proof (len_nonneg (all_values ws)).
  unfold Named.UpdateBuilder_Build.
  cbn [Named.upd_table Named.upd_sets Named.upd_where Named.upd_returning].
  rewrite named_set_segs by (done || lia).
  rewrite named_where_segs by (unfold is_int, int_min, int_max in *; lia).
  rewrite write_list_text. unfold update_skeleton.
  rewrite flatten_cons, !flatten_app, flatten_join, flatten_text.
  simpl seg_text. simpl app.
  rewrite (right_id ∅ (∪)), named_args_app, len_map.
  replace (0 + len sets + 1) with (1 + len sets) by lia.
  replace (0 + 1) with 1 by lia.
  f_equal. by normalize_text.
Qed.

(** *** SELECT *)

Lemma positional_select_skeleton d fields from joins ws gb hs obs limit offset :
  1 + len (select_values ws hs limit offset) <= int_max ->
  let b := Positional.mk_SelectBuilder d fields from joins
             (map positional_pred ws) gb (map positional_pred hs) obs
             limit offset in
  Positional.SelectBuilder_Build b
  = (flatten positional_marker
       (select_skeleton (Positional.select_head b) ws gb hs obs limit offset),
     select_values ws hs limit offset).
Proof.
  intros Hle b. unfold select_values in *. rewrite !len_app in Hle.
  pose proof (len_nonneg (all_values ws)). pose proof (len_nonneg (all_values hs)).
  pose proof (len_nonneg (bound_values limit)).
  pose proof (len_nonneg (bound_values offset)).
  unfold Positional.SelectBuilder_Build.
  fold (Positional.select_head b).
  cbn [b Positional.sel_where Positional.sel_groupBy Positional.sel_having
       Positional.sel_orderBy Positional.sel_limit Positional.sel_offset].
  rewrite positional_where_segs by (done || lia). rewrite write_list_text.
  rewrite positional_where_segs by (unfold is_int, int_min, int_max in *; lia).
  rewrite write_list_text.
  change " LIMIT $" with (" LIMIT " +:+ "$").
  change " OFFSET $" with (" OFFSET " +:+ "$").
  rewrite positional_bound_segs by (unfold is_int, int_min, int_max in *; lia).
  rewrite positional_bound_segs by (unfold is_int, int_min, int_max in *; lia).
  unfold select_skeleton.
  rewrite flatten_cons, !flatten_app, !flatten_text. simpl seg_text.
  simpl app. rewrite <- !app_assoc. f_equal. by normalize_text.
Qed.

Lemma named_select_skeleton d fields from joins ws gb hs obs limit offset :
  1 + len (select_values ws hs limit offset) <= int_max ->
  let b := Named.mk_SelectBuilder d fields from joins
             (map named_pred ws) gb (map named_pred hs) obs limit offset in
  Named.SelectBuilder_Build b
  = (flatten named_marker
       (select_skeleton (Named.select_head b) ws gb hs obs limit offset),
     named_args 1 (select_values ws hs limit offset)).
Proof.
  intros Hle b. unfold select_values in *. rewrite !len_app in Hle.
  pose proof (len_nonneg (all_values ws)). pose proof (len_nonneg (all_values hs)).
  pose proof (len_nonneg (bound_values limit)).
  pose proof (len_nonneg (bound_values offset)).
  unfold Named.SelectBuilder_Build.
  fold (Named.select_head b).
  cbn [b Named.sel_where Named.sel_groupBy Named.sel_having
       Named.sel_orderBy Named.sel_limit Named.sel_offset].
  rewrite named_where_segs by (done || lia). rewrite write_list_text.
  rewrite named_where_segs by (unfold is_int, int_min, int_max in *; lia).
  rewrite write_list_text.
  change " LIMIT @" with (" LIMIT " +:+ "@").
  change " OFFSET @" with (" OFFSET " +:+ "@").
  rewrite named_bound_segs by (unfold is_int, int_min, int_max in *; lia).
  rewrite named_bound_segs by (unfold is_int, int_min, int_max in *; lia).
  unfold select_skeleton.
  rewrite flatten_cons, !flatten_app, !flatten_text. simpl seg_text.
  rewrite (right_id ∅ (∪)), !named_args_app, !(assoc_L (∪)).
  replace (0 + 1) with 1 by lia.
  replace (0 + len (all_values ws) + 1) with (1 + len (all_values ws)) by lia.
  replace (0 + len (all_values ws) + len (all_values hs) + 1)
    with (1 + len (all_values ws) + len (all_values hs)) by lia.
  replace (0 + len (all_values ws) + len (all_values hs)
           + len (bound_values limit) + 1)
    with (1 + len (all_values ws) + len (all_values hs)
          + len (bound_values limit)) by lia.
  replace (1 + len (all_values ws) + len (all_values hs ++ bound_values limit)%list)
    with (1 + len (all_values ws) + len (all_values hs) + len (bound_values limit))
    by (rewrite len_app; lia).
  f_equal. by normalize_text.
Qed.

(** ** Statements are set apart *)

Section ApartStatements.

Variable re : regexp.
Variable mint : Z -> string.

Hypothesis sigil_cases : sigil re = "$"%char \/ sigil re = "@"%char.
Hypothesis class_word :
  forall c, class re c = true -> is_word c = true \/ c = "$"%char.
Hypothesis mint_marker : forall k, 0 <= k -> is_marker re (mint k) = true.

Lemma clause_apart_nil : clause_apart re mint [].
Proof. intros rest Hr. by split. Qed.

Lemma clause_apart_app sk1 sk2 :
  clause_apart re mint sk1 -> clause_apart re mint sk2 ->
  clause_apart re mint (sk1 ++ sk2).
Proof.
  intros H1 H2 rest Hr. destruct (H2 rest Hr) as [H2a H2b].
  destruct (H1 _ H2b) as [H1a H1b].
  rewrite set_apart_app, flatten_app, app_assoc_s. by rewrite H1a, H2a.
Qed.

Lemma set_apart_Txt s sk rest :
  set_apart re mint (Txt s :: sk) rest = no_sigil re s && set_apart re mint sk rest.
Proof. done. Qed.

Lemma clause_apart_whole sk :
  clause_apart re mint sk -> set_apart re mint sk EmptyString = true.
Proof. intros H. by apply H. Qed.

(** A keyword beginning with a blank may follow a placeholder. *)
Lemma blank_head s x :
  head_in_class re ((String " " s) +:+ x) = false.
Proof. simpl. by apply (not_word_not_class re class_word). Qed.

Lemma clause_apart_list kw items :
  no_sigil re (String " " kw) = true ->
  Forall (fun s => no_sigil re s = true) items ->
  clause_apart re mint [Txt (list_text (String " " kw) items)].
Proof.
  intros Hkw Hitems rest Hr. rewrite flatten_text.
  destruct items as [|x xs].
  - simpl. by rewrite app_empty_l.
  - split; [|apply blank_head].
    change (no_sigil re (String " " kw +:+ Join (x :: xs) ", ") && true = true).
    rewrite andb_true_r, no_sigil_app, Hkw, andb_true_l.
    apply no_sigil_Join; [done|fixed_text_by sigil_cases].
Qed.

Lemma clause_apart_where kw ws c :
  no_sigil re (String " " kw) = true ->
  0 <= c ->
  Forall (fun s => no_sigil re s = true) (all_columns ws) ->
  clause_apart re mint (where_segs (String " " kw) ws c).
Proof.
  intros Hkw Hc Hcols rest Hr. unfold where_segs.
  destruct ws as [|q ws]; [by split|]. remember (q :: ws) as qs.
  split; [|rewrite flatten_cons; simpl seg_text; rewrite app_assoc_s;
           apply blank_head].
  simpl set_apart. rewrite Hkw. simpl.
  apply set_apart_join; try done.
  - fixed_text_by sigil_cases.
  - intros x. apply blank_head.
  - apply (skeletons_set_apart re mint); try done.
    apply Forall_forall. intros q' _ c' rest' Hc' Hq' Hr'.
    by apply (skeleton_set_apart re mint).
Qed.

Lemma clause_apart_bound kw bound c :
  no_sigil re (String " " kw) = true ->
  0 <= c ->
  clause_apart re mint (bound_segs (String " " kw) bound c).
Proof.
  intros Hkw Hc rest Hr. destruct bound as [n|]; [|by split].
  split; [|apply blank_head].
  simpl. rewrite Hkw, mint_marker, app_empty_l, Hr by done. done.
Qed.

Lemma set_segs_apart sets : forall c,
  0 <= c ->
  Forall (fun s => no_sigil re (set_col s) = true) sets ->
  Forall (fun sk => forall rest', head_in_class re rest' = false ->
                      set_apart re mint sk rest' = true) (set_segs sets c).
Proof.
  induction sets as [|s sets IH]; intros c Hc Hcols; [constructor|].
  apply Forall_cons in Hcols as [Hs Hcols]. simpl. constructor.
  - intros rest' Hr. simpl.
    rewrite no_sigil_app, Hs, mint_marker, app_empty_l, Hr by done.
    simpl. rewrite andb_true_r. fixed_text_by sigil_cases.
  - apply IH; [lia|done].
Qed.

Lemma delete_set_apart table ws rets :
  no_sigil re table = true ->
  Forall (fun s => no_sigil re s = true) (all_columns ws) ->
  Forall (fun s => no_sigil re s = true) rets ->
  set_apart re mint (delete_skeleton table ws rets) EmptyString = true.
Proof.
  intros Ht Hws Hrets. unfold delete_skeleton.
  rewrite set_apart_Txt, no_sigil_app, Ht.
  replace (no_sigil re "DELETE FROM ") with true by (symmetry; fixed_text_by sigil_cases).
  rewrite andb_true_l. apply clause_apart_whole, clause_apart_app.
  - apply clause_apart_where; [fixed_text_by sigil_cases|lia|done].
  - apply clause_apart_list; [fixed_text_by sigil_cases|done].
Qed.

Lemma update_set_apart table sets ws rets :
  no_sigil re table = true ->
  Forall (fun s => no_sigil re (set_col s) = true) sets ->
  Forall (fun s => no_sigil re s = true) (all_columns ws) ->
  Forall (fun s => no_sigil re s = true) rets ->
  set_apart re mint (update_skeleton table sets ws rets) EmptyString = true.
Proof.
  intros Ht Hsets Hws Hrets. unfold update_skeleton.
  rewrite set_apart_Txt, !no_sigil_app, Ht.
  replace (no_sigil re "UPDATE ") with true by (symmetry; fixed_text_by sigil_cases).
  replace (no_sigil re " SET ") with true by (symmetry; fixed_text_by sigil_cases).
  rewrite !andb_true_l.
  assert (clause_apart re mint
            (where_segs " WHERE " ws (1 + len sets)
             ++ [Txt (list_text " RETURNING " rets)])) as Hrest.
  { apply clause_apart_app.
    - apply clause_apart_where; [fixed_text_by sigil_cases| |done].
      pose proof (len_nonneg sets). lia.
    - apply clause_apart_list; [fixed_text_by sigil_cases|done]. }
  destruct (Hrest EmptyString eq_refl) as [Hr1 Hr2].
  rewrite set_apart_app, Hr1, andb_true_r.
  apply set_apart_join; try done.
  - fixed_text_by sigil_cases.
  - intros x. simpl. by apply (not_word_not_class re class_word).
  - apply set_segs_apart; [lia|done].
Qed.

Lemma select_set_apart head ws gb hs obs limit offset :
  no_sigil re head = true ->
  Forall (fun s => no_sigil re s = true) (all_columns ws) ->
  Forall (fun s => no_sigil re s = true) gb ->
  Forall (fun s => no_sigil re s = true) (all_columns hs) ->
  Forall (fun s => no_sigil re s = true) (order_parts obs) ->
  set_apart re mint (select_skeleton head ws gb hs obs limit offset) EmptyString
  = true.
Proof.
  intros Hh Hws Hgb Hhs Hobs. unfold select_skeleton. cbv zeta.
  rewrite set_apart_Txt, Hh, andb_true_l.
  pose proof (len_nonneg (all_values ws)). pose proof (len_nonneg (all_values hs)).
  pose proof (len_nonneg (bound_values limit)).
  apply clause_apart_whole.
  apply clause_apart_app; [apply clause_apart_where; [fixed_text_by sigil_cases|lia|done]|].
  apply clause_apart_app; [apply clause_apart_list; [fixed_text_by sigil_cases|done]|].
  apply clause_apart_app; [apply clause_apart_where; [fixed_text_by sigil_cases|lia|done]|].
  apply clause_apart_app; [apply clause_apart_list; [fixed_text_by sigil_cases|done]|].
  apply clause_apart_app; apply clause_apart_bound; (fixed_text_by sigil_cases || lia).
Qed.

End ApartStatements.

(** ** Both schemes *)

Lemma positional_sigil_cases :
  sigil placeholderRe = "$"%char \/ sigil placeholderRe = "@"%char.
Proof. by left. Qed.

Lemma named_sigil_cases :
  sigil namedParamRe = "$"%char \/ sigil namedParamRe = "@"%char.
Proof. by right. Qed.

Lemma positional_class_word c :
  class placeholderRe c = true -> is_word c = true \/ c = "$"%char.
Proof. intros H. left. by apply is_digit_is_word. Qed.

Lemma named_class_word c :
  class namedParamRe c = true -> is_word c = true \/ c = "$"%char.
Proof. by left. Qed.

Lemma where_placeholders kw ws c :
  placeholders (where_segs kw ws c) = run c (List.length (all_values ws)).
Proof.
  unfold where_segs. destruct ws as [|q ws]; [done|]. remember (q :: ws) as qs.
  rewrite placeholders_Txt, placeholders_join.
  apply skeletons_placeholders. apply Forall_forall. intros q' _.
  apply skeleton_placeholders.
Qed.

Lemma bound_placeholders kw bound c :
  placeholders (bound_segs kw bound c) = run c (List.length (bound_values bound)).
Proof. by destruct bound. Qed.

Lemma set_placeholders sets : forall c,
  concat (map placeholders (set_segs sets c)) = run c (List.length sets).
Proof.
  induction sets as [|s sets IH]; intros c; [done|]. simpl. by rewrite IH.
Qed.

Lemma run_len_app c {A} (l1 l2 : list A) :
  run c (List.length (l1 ++ l2))
  = (run c (List.length l1) ++ run (c + len l1) (List.length l2))%list.
Proof. by rewrite length_app, run_app. Qed.

Lemma delete_placeholders table ws rets :
  placeholders (delete_skeleton table ws rets)
  = run 1 (List.length (all_values ws)).
Proof.
  unfold delete_skeleton.
  rewrite placeholders_Txt, placeholders_app, where_placeholders.
  simpl. by rewrite app_nil_r.
Qed.

Lemma update_placeholders table sets ws rets :
  placeholders (update_skeleton table sets ws rets)
  = run 1 (List.length (update_values sets ws)).
Proof.
  unfold update_skeleton, update_values.
  rewrite placeholders_Txt, !placeholders_app, placeholders_join,
    set_placeholders, where_placeholders.
  rewrite run_len_app, length_map, len_map. simpl. by rewrite app_nil_r.
Qed.

Lemma select_placeholders head ws gb hs obs limit offset :
  placeholders (select_skeleton head ws gb hs obs limit offset)
  = run 1 (List.length (select_values ws hs limit offset)).
Proof.
  unfold select_skeleton, select_values. cbv zeta.
  rewrite placeholders_Txt, !placeholders_app, !where_placeholders,
    !bound_placeholders.
  rewrite !run_len_app. unfold placeholders at 1 2. simpl omap. simpl app.
  done.
Qed.

Section ApartTexts.

Variable re : regexp.
Hypothesis sigil_cases : sigil re = "$"%char \/ sigil re = "@"%char.

Lemma write_joins_no_sigil joins : forall sb,
  no_sigil re sb = true ->
  sigil_free re (concat (map join_texts joins)) ->
  no_sigil re (write_joins sb joins) = true.
Proof.
  induction joins as [|j joins IH]; intros sb Hsb Hj; [done|].
  simpl in Hj. apply Forall_cons in Hj as [H1 Hj].
  apply Forall_cons in Hj as [H2 Hj]. apply Forall_cons in Hj as [H3 Hj].
  unfold write_joins. simpl fold_left. apply IH; [|done].
  rewrite !no_sigil_app, Hsb, H1, H2, H3.
  replace (no_sigil re " ") with true by (symmetry; fixed_text_by sigil_cases).
  replace (no_sigil re " ON ") with true by (symmetry; fixed_text_by sigil_cases).
  replace (no_sigil re " = ") with true by (symmetry; fixed_text_by sigil_cases).
  replace (no_sigil re (JoinType_String (joinType j))) with true
    by (symmetry; destruct (joinType j); fixed_text_by sigil_cases).
  done.
Qed.

Lemma select_head_no_sigil (d : bool) fields from joins :
  sigil_free re (fields ++ from :: concat (map join_texts joins)) ->
  no_sigil re
    (write_joins
       ((((EmptyString +:+ (if d then "SELECT DISTINCT " else "SELECT "))
          +:+ Join fields ", ") +:+ " FROM ") +:+ from) joins) = true.
Proof.
  intros H. apply Forall_app in H as [Hf H]. apply Forall_cons in H as [Hfrom Hj].
  apply write_joins_no_sigil; [|done].
  rewrite !no_sigil_app, Hfrom.
  rewrite (no_sigil_Join re fields ", " Hf) by fixed_text_by sigil_cases.
  replace (no_sigil re " FROM ") with true by (symmetry; fixed_text_by sigil_cases).
  replace (no_sigil re (if d then "SELECT DISTINCT " else "SELECT ")) with true
    by (symmetry; destruct d; fixed_text_by sigil_cases).
  done.
Qed.

Lemma order_parts_no_sigil obs :
  sigil_free re (map ob_col obs) -> sigil_free re (order_parts obs).
Proof.
  induction obs as [|o obs IH]; intros H; [constructor|].
  apply Forall_cons in H as [Ho H]. constructor; [|by apply IH].
  rewrite !no_sigil_app, Ho.
  replace (no_sigil re " ") with true by (symmetry; fixed_text_by sigil_cases).
  replace (no_sigil re (OrderDir_String (ob_dir o))) with true
    by (symmetry; destruct (ob_dir o); fixed_text_by sigil_cases).
  done.
Qed.

End ApartTexts.

(** *** INSERT *)

Lemma row_renderings_run row : forall c,
  is_int c -> c + len row <= int_max ->
  Positional.fragments (Positional.row_renderings row c)
  = map (fun k => flatten positional_marker [Ph k]) (run c (List.length row))
  /\ Positional.final_cursor (Positional.row_renderings row c) c = c + len row.
Proof.
  induction row as [|v row IH]; intros c Hc Hle.
  { split; [done|]. unfold Positional.final_cursor, len. simpl. lia. }
  assert (len (v :: row) = 1 + len row) as El by (unfold len; simpl; lia).
  rewrite El in *. pose proof (len_nonneg row).
  assert (iadd c 1 = c + 1) as E by (apply iadd_exact; unfold is_int in *; lia).
  destruct (IH (c + 1)) as [IH1 IH2]; [unfold is_int in *; lia|lia|].
  simpl. rewrite E. split.
  - unfold Positional.fragments in *. simpl. rewrite IH1. f_equal.
    unfold flatten. simpl. by rewrite app_empty_r.
  - unfold Positional.final_cursor in *. simpl map.
    rewrite default_last_cons, IH2. lia.
Qed.

Lemma rows_renderings_segs rows : forall c,
  is_int c -> c + len (concat rows) <= int_max ->
  map Positional.row_text (Positional.rows_renderings rows c)
  = map (flatten positional_marker) (row_segs rows c).
Proof.
  induction rows as [|row rows IH]; intros c Hc Hle; [done|].
  simpl in Hle. rewrite len_app in Hle.
  pose proof (len_nonneg row). pose proof (len_nonneg (concat rows)).
  destruct (row_renderings_run row c Hc ltac:(lia)) as [E1 E2].
  simpl. rewrite E2, IH by (unfold is_int in *; lia). f_equal.
  unfold Positional.row_text. rewrite E1.
  rewrite flatten_cons, flatten_app, flatten_join, map_map, flatten_text.
  simpl seg_text. by normalize_text.
Qed.

Lemma positional_insert_skeleton b :
  1 + len (concat (Positional.ins_values b)) <= int_max ->
  Positional.InsertBuilder_Build b
  = (flatten positional_marker (insert_skeleton b),
     concat (Positional.ins_values b)).
Proof.
  intros Hle. pose proof (len_nonneg (concat (Positional.ins_values b))).
  rewrite (surjective_pairing (Positional.InsertBuilder_Build b)).
  rewrite PositionalFacts.InsertBuilder_Build_values. f_equal.
  rewrite PositionalFacts.InsertBuilder_Build_renderings. simpl fst.
  rewrite rows_renderings_segs by (done || lia).
  unfold insert_skeleton.
  rewrite flatten_cons, flatten_app, flatten_join. simpl seg_text.
  rewrite (flatten_cons _ (Txt _)), flatten_text. simpl seg_text.
  by normalize_text.
Qed.

Lemma row_placeholders rows : forall c,
  concat (map placeholders (row_segs rows c))
  = run c (List.length (concat rows)).
Proof.
  induction rows as [|row rows IH]; intros c; [done|].
  simpl. rewrite placeholders_app, placeholders_join, placeholders_run, IH.
  rewrite length_app, run_app. simpl. by rewrite app_nil_r.
Qed.

Lemma insert_placeholders b :
  placeholders (insert_skeleton b)
  = run 1 (List.length (concat (Positional.ins_values b))).
Proof.
  unfold insert_skeleton.
  rewrite placeholders_Txt, placeholders_app, placeholders_join, row_placeholders.
  simpl. by rewrite app_nil_r.
Qed.

Section ApartInsert.

Variable re : regexp.

Hypothesis sigil_cases : sigil re = "$"%char \/ sigil re = "@"%char.
Hypothesis class_word :
  forall c, class re c = true -> is_word c = true \/ c = "$"%char.
Hypothesis mint_marker :
  forall k, 0 <= k -> is_marker re (positional_marker k) = true.

Lemma row_segs_apart rows : forall c,
  0 <= c ->
  Forall (fun sk => forall rest', head_in_class re rest' = false ->
                      set_apart re positional_marker sk rest' = true)
         (row_segs rows c).
Proof.
  induction rows as [|row rows IH]; intros c Hc; [constructor|].
  simpl. constructor.
  - intros rest' Hr. rewrite set_apart_Txt, set_apart_app.
    replace (no_sigil re "(") with true by (symmetry; fixed_text_by sigil_cases).
    rewrite andb_true_l. apply andb_true_intro. split.
    + apply (set_apart_join re positional_marker).
      * fixed_text_by sigil_cases.
      * intros x. simpl. by apply (not_word_not_class re class_word).
      * by apply (run_set_apart re positional_marker mint_marker).
      * rewrite flatten_text. simpl.
        by apply (not_word_not_class re class_word).
    + rewrite set_apart_Txt. simpl. rewrite andb_true_r. fixed_text_by sigil_cases.
  - apply IH. pose proof (len_nonneg row). lia.
Qed.

Lemma insert_set_apart b :
  sigil_free re (insert_texts b) ->
  set_apart re positional_marker (insert_skeleton b) EmptyString = true.
Proof.
  unfold insert_texts. intros H.
  apply Forall_cons in H as [Ht H]. apply Forall_app in H as [Hc H].
  apply Forall_cons in H as [Ha Hr].
  assert (no_sigil re ", " = true) as Hcomma by fixed_text_by sigil_cases.
  assert (no_sigil re (list_text " RETURNING " (Positional.ins_returning b))
          = true) as Hret.
  { destruct (Positional.ins_returning b) as [|x xs] eqn:E; [done|].
    unfold list_text. rewrite no_sigil_app.
    rewrite (no_sigil_Join re (x :: xs) ", " Hr Hcomma).
    rewrite andb_true_r. fixed_text_by sigil_cases. }
  assert (no_sigil re (Positional.conflict_text (Positional.ins_onConflict b))
          = true) as Hconf.
  { unfold Positional.conflict_text.
    destruct (Positional.ins_onConflict b) as [|a s] eqn:E; [done|].
    rewrite no_sigil_app, Ha, andb_true_r. fixed_text_by sigil_cases. }
  unfold insert_skeleton. rewrite set_apart_Txt.
  apply andb_true_intro. split.
  - unfold Positional.insert_head. rewrite !no_sigil_app, Ht.
    replace (no_sigil re "INSERT INTO ") with true by (symmetry; fixed_text_by sigil_cases).
    replace (no_sigil re " VALUES ") with true by (symmetry; fixed_text_by sigil_cases).
    destruct (Positional.ins_columns b) as [|x xs] eqn:E; [done|].
    rewrite !no_sigil_app.
    rewrite (no_sigil_Join re (x :: xs) ", " Hc Hcomma).
    replace (no_sigil re " (") with true by (symmetry; fixed_text_by sigil_cases).
    replace (no_sigil re ")") with true by (symmetry; fixed_text_by sigil_cases).
    done.
  - rewrite set_apart_app. apply andb_true_intro. split.
    + apply (set_apart_join re positional_marker); try done.
      * intros x. simpl. by apply (not_word_not_class re class_word).
      * by apply row_segs_apart.
      * rewrite app_empty_r. rewrite (flatten_cons _ (Txt _)), flatten_text.
        simpl seg_text. unfold Positional.conflict_text.
        destruct (Positional.ins_onConflict b) as [|a s].
        -- rewrite app_empty_l. unfold list_text.
           destruct (Positional.ins_returning b); [done|].
           simpl. by apply (not_word_not_class re class_word).
        -- simpl. by apply (not_word_not_class re class_word).
    + rewrite !set_apart_Txt. simpl. by rewrite Hconf, Hret.
Qed.

End ApartInsert.

(** ** Statements of both schemes *)

Lemma named_Build_skeleton s :
  1 + len (statement_values s) <= int_max ->
  named_Build s
  = (flatten named_marker (statement_skeleton s),
     named_args 1 (statement_values s)).
Proof.
  intros Hle. destruct s.
  - exact (named_select_skeleton _ _ _ _ _ _ _ _ _ _ Hle).
  - exact (named_update_skeleton _ _ _ _ Hle).
  - exact (named_delete_skeleton _ _ _ Hle).
Qed.

Lemma positional_Build_skeleton s :
  1 + len (statement_values s) <= int_max ->
  positional_Build s
  = (flatten positional_marker (statement_skeleton s), statement_values s).
Proof.
  intros Hle. destruct s.
  - exact (positional_select_skeleton _ _ _ _ _ _ _ _ _ _ Hle).
  - exact (positional_update_skeleton _ _ _ _ Hle).
  - exact (positional_delete_skeleton _ _ _ Hle).
Qed.

Lemma statement_placeholders s :
  placeholders (statement_skeleton s)
  = run 1 (List.length (statement_values s)).
Proof.
  destruct s.
  - exact (select_placeholders _ _ _ _ _ _ _).
  - exact (update_placeholders _ _ _ _).
  - exact (delete_placeholders _ _ _).
Qed.

Section ApartStatement.

Variable re : regexp.
Variable mint : Z -> string.

Hypothesis sigil_cases : sigil re = "$"%char \/ sigil re = "@"%char.
Hypothesis class_word :
  forall c, class re c = true -> is_word c = true \/ c = "$"%char.
Hypothesis mint_marker : forall k, 0 <= k -> is_marker re (mint k) = true.

Lemma statement_set_apart s :
  sigil_free re (statement_texts s) ->
  set_apart re mint (statement_skeleton s) EmptyString = true.
Proof.
  destruct s as [d fields from joins ws gb hs obs limit offset
                |table sets ws rets|table ws rets]; simpl; intros Hfree.
  - unfold select_texts in Hfree.
    apply Forall_app in Hfree as [Hf Hfree].
    apply Forall_cons in Hfree as [Hfrom Hfree].
    apply Forall_app in Hfree as [Hj Hfree].
    apply Forall_app in Hfree as [Hw Hfree].
    apply Forall_app in Hfree as [Hg Hfree].
    apply Forall_app in Hfree as [Hhs Ho].
    apply select_set_apart; try done.
    + apply select_head_no_sigil; [done|].
      apply Forall_app. split; [done|]. by apply Forall_cons.
    + by apply order_parts_no_sigil.
  - apply Forall_cons in Hfree as [Ht Hfree].
    apply Forall_app in Hfree as [Hs Hfree].
    apply Forall_app in Hfree as [Hc Hr].
    apply update_set_apart; try done. by apply Forall_fmap in Hs.
  - apply Forall_cons in Hfree as [Ht Hfree].
    apply Forall_app in Hfree as [Hc Hr].
    by apply delete_set_apart.
Qed.

End ApartStatement.

(** ** The positional debug helper *)

Lemma is_prefix_app a r : is_prefix a (a +:+ r) = true.
Proof.
  induction a as [|c a IH]; [by destruct r|].
  rewrite app_String. simpl. by rewrite bool_decide_eq_true_2, IH.
Qed.

Lemma drop_bytes_app a r : drop_bytes (String.length a) (a +:+ r) = r.
Proof. induction a as [|c a IH]; [by destruct r|]. by rewrite app_String. Qed.

Lemma is_prefix_split a b :
  is_prefix a b = true -> exists t, b = a +:+ t.
Proof.
  revert b. induction a as [|c a IH]; intros b H; [by exists b|].
  destruct b as [|d b]; [done|]. simpl in H.
  apply andb_prop in H as [Hc H]. apply bool_decide_eq_true in Hc as ->.
  destruct (IH b H) as [t ->]. by exists t.
Qed.

(** A run of digits that begins a text made of a run of digits and a rest
    without a digit at its head lies within the first run. *)
Lemma is_prefix_digits a b r :
  all_class is_digit a = true ->
  head_in_class placeholderRe r = false ->
  is_prefix a (b +:+ r) = true -> is_prefix a b = true.
Proof.
  revert a. induction b as [|d b IH]; intros a Ha Hr H.
  - rewrite app_empty_l in H. destruct a as [|c a]; [done|].
    destruct r as [|e r]; [done|]. simpl in *.
    apply andb_prop in H as [Hc _]. apply bool_decide_eq_true in Hc as ->.
    apply andb_prop in Ha as [Ha _]. congruence.
  - destruct a as [|c a]; [done|]. rewrite app_String in H. simpl in *.
    apply andb_prop in H as [Hc H]. apply andb_prop in Ha as [_ Ha].
    rewrite Hc. simpl. by apply IH.
Qed.

Lemma digit_val_nonneg c : is_digit c = true -> 0 <= digit_val c <= 9.
Proof.
  unfold is_digit, digit_val. intros H. apply andb_prop in H as [H1 H2].
  apply N.leb_le in H1, H2. lia.
Qed.

Lemma digits_value_from_ge t : forall acc,
  0 <= acc -> all_class is_digit t = true -> acc <= digits_value_from acc t.
Proof.
  induction t as [|c t IH]; intros acc Hacc Ht; simpl; [lia|].
  simpl in Ht. apply andb_prop in Ht as [Hc Ht].
  pose proof (digit_val_nonneg c Hc).
  etrans; [|apply IH; [lia|done]]. lia.
Qed.

(** The numeral of a number is no beginning of the numeral of a smaller
    one. *)
Lemma itoa_prefix_le j k :
  0 <= j -> 0 <= k -> is_prefix (itoa j) (itoa k) = true -> j <= k.
Proof.
  intros Hj Hk H. destruct (is_prefix_split _ _ H) as [t Ht].
  destruct (itoa_digits j Hj) as (d & ds & Ej & Hdj & Hvj).
  destruct (itoa_digits k Hk) as (e & es & Ek & Hdk & Hvk).
  rewrite <- Ej in Hdj, Hvj. rewrite <- Ek in Hdk, Hvk.
  rewrite Ht in Hdk, Hvk. rewrite all_class_app in Hdk.
  apply andb_prop in Hdk as [_ Hdt].
  unfold digits_value in *. rewrite digits_value_from_app, Hvj in Hvk.
  pose proof (digits_value_from_ge t j Hj Hdt). lia.
Qed.

Lemma positional_marker_not_prefix j k r :
  0 <= k -> k < j ->
  head_in_class placeholderRe r = false ->
  is_prefix (positional_marker j) (positional_marker k +:+ r) = false.
Proof.
  intros Hk Hkj Hr. unfold positional_marker.
  rewrite !app_String, !app_empty_l. simpl.
  destruct (is_prefix (itoa j) (itoa k +:+ r)) eqn:E; [|done].
  exfalso.
  destruct (itoa_digits j ltac:(lia)) as (d & ds & Ej & Hdj & _).
  rewrite <- Ej in Hdj.
  apply is_prefix_digits in E; [|done|done].
  apply itoa_prefix_le in E; lia.
Qed.

(** [Replace1] passes over a text without [$] when it looks for a
    marker. *)
Lemma Replace1_literal s r j new :
  no_sigil placeholderRe s = true ->
  Replace1 (s +:+ r) (positional_marker j) new
  = s +:+ Replace1 r (positional_marker j) new.
Proof.
  intros Hs. induction s as [|c s IH]; [done|].
  simpl in Hs. apply andb_prop in Hs as [Hc Hs].
  apply negb_true_iff, bool_decide_eq_false in Hc. simpl in Hc.
  rewrite !app_String. simpl.
  rewrite bool_decide_eq_false_2 by (intros E; by apply Hc). simpl.
  by rewrite IH.
Qed.

Lemma Replace1_marker j r new :
  Replace1 (positional_marker j +:+ r) (positional_marker j) new = new +:+ r.
Proof.
  unfold positional_marker at 1. rewrite !app_String, app_empty_l.
  change (Replace1 (String "$" (itoa j +:+ r)) (positional_marker j) new)
    with (if is_prefix (positional_marker j) (String "$" (itoa j +:+ r))
          then new +:+ drop_bytes (String.length (positional_marker j))
                        (String "$" (itoa j +:+ r))
          else String "$" (Replace1 (itoa j +:+ r) (positional_marker j) new)).
  change (String "$" (itoa j +:+ r)) with (positional_marker j +:+ r).
  by rewrite is_prefix_app, drop_bytes_app.
Qed.

Lemma digits_no_sigil s :
  all_class is_digit s = true -> no_sigil placeholderRe s = true.
Proof.
  unfold no_sigil. induction s as [|c s IH]; [done|]. simpl in *. intros H.
  apply andb_prop in H as [Hc Hs]. rewrite (IH Hs), andb_true_r.
  apply negb_true_iff, bool_decide_eq_false. intros ->. done.
Qed.

Lemma Replace1_other_marker j k r new :
  0 <= k -> k < j ->
  head_in_class placeholderRe r = false ->
  Replace1 (positional_marker k +:+ r) (positional_marker j) new
  = positional_marker k +:+ Replace1 r (positional_marker j) new.
Proof.
  intros Hk Hkj Hr.
  pose proof (positional_marker_not_prefix j k r Hk Hkj Hr) as Hnp.
  unfold positional_marker at 1 3. rewrite !app_String, !app_empty_l.
  change (Replace1 (String "$" (itoa k +:+ r)) (positional_marker j) new)
    with (if is_prefix (positional_marker j) (String "$" (itoa k +:+ r))
          then new +:+ drop_bytes (String.length (positional_marker j))
                        (String "$" (itoa k +:+ r))
          else String "$" (Replace1 (itoa k +:+ r) (positional_marker j) new)).
  change (String "$" (itoa k +:+ r)) with (positional_marker k +:+ r) at 1.
  rewrite Hnp. f_equal. apply Replace1_literal.
  destruct (itoa_digits k Hk) as (d & ds & E & Hd & _). rewrite E.
  by apply digits_no_sigil.
Qed.

Lemma flatten_ext mint1 mint2 sk :
  (forall k, k ∈ placeholders sk -> mint1 k = mint2 k) ->
  flatten mint1 sk = flatten mint2 sk.
Proof.
  induction sk as [|[s|k] sk IH]; intros H; [done| |].
  - rewrite !flatten_cons. f_equal. by apply IH.
  - rewrite !flatten_cons. simpl. rewrite H by (rewrite placeholders_Ph; left).
    f_equal. apply IH. intros k' Hk'. apply H. rewrite placeholders_Ph. by right.
Qed.

(** What follows a placeholder of a text set apart for [gapRe] begins
    with no digit, whatever is written for the placeholders after it. *)
Lemma gap_head mint sk rest :
  head_in_class gapRe (flatten positional_marker sk +:+ rest) = false ->
  head_in_class placeholderRe (flatten mint sk +:+ rest) = false.
Proof.
  induction sk as [|[s|k] sk IH]; intros H.
  - rewrite flatten_nil, app_empty_l in *. destruct rest as [|c rest]; [done|].
    simpl in *. by apply orb_false_elim in H as [H _].
  - rewrite flatten_cons, app_assoc_s in *. simpl seg_text in *.
    destruct s as [|c s]; [rewrite app_empty_l in *; by apply IH|].
    simpl in *. by apply orb_false_elim in H as [H _].
  - rewrite flatten_cons in H. by vm_compute in H.
Qed.

Lemma gap_marker_nonneg k :
  is_marker gapRe (positional_marker k) = true -> 0 <= k.
Proof. destruct k as [|p|p]; [done|lia|]. by vm_compute. Qed.

Lemma rising_run n : forall c, rising (run c n).
Proof.
  induction n as [|n IH]; intros c; [done|]. simpl. split; [|apply IH].
  apply Forall_forall. intros k Hk. apply run_elem in Hk. lia.
Qed.

(** One step of the debug loop on a text set apart: the marker of the
    highest placeholder not yet replaced is found at its own place. *)
Lemma Replace1_skeleton vs j : forall sk,
  set_apart gapRe positional_marker sk EmptyString = true ->
  rising (placeholders sk) ->
  j ∈ placeholders sk ->
  Replace1 (flatten (partly vs j) sk) (positional_marker j) (literal vs j)
  = flatten (partly vs (j - 1)) sk.
Proof.
  induction sk as [|[s|k] sk IH]; intros Hap Hrise Hj.
  - by apply elem_of_nil in Hj.
  - rewrite set_apart_Txt in Hap. apply andb_prop in Hap as [Hs Hap].
    rewrite !flatten_cons. simpl seg_text.
    rewrite Replace1_literal by done. f_equal. by apply IH.
  - simpl in Hap. apply andb_prop in Hap as [Hap H3].
    apply andb_prop in Hap as [H1 H2]. apply negb_true_iff in H2.
    apply gap_marker_nonneg in H1.
    rewrite placeholders_Ph in *. destruct Hrise as [Hlt Hrise].
    rewrite !flatten_cons. simpl seg_text.
    apply elem_of_cons in Hj as [->|Hj].
    + unfold partly at 1 3.
      rewrite (proj2 (Z.leb_le k k)) by lia.
      rewrite (proj2 (Z.leb_gt k (k - 1))) by lia.
      rewrite Replace1_marker. f_equal.
      apply flatten_ext. intros k' Hk'.
      rewrite Forall_forall in Hlt. apply Hlt in Hk'.
      unfold partly.
      rewrite (proj2 (Z.leb_gt k' k)) by lia.
      by rewrite (proj2 (Z.leb_gt k' (k - 1))) by lia.
    + rewrite Forall_forall in Hlt. pose proof (Hlt j Hj) as Hkj.
      unfold partly at 1 3.
      rewrite (proj2 (Z.leb_le k j)) by lia.
      rewrite (proj2 (Z.leb_le k (j - 1))) by lia.
      rewrite Replace1_other_marker; [|done|done|].
      * f_equal. by apply IH.
      * rewrite <- (app_empty_r (flatten (partly vs j) sk)).
        by apply gap_head.
Qed.

Lemma inline_loop_skeleton vs sk :
  set_apart gapRe positional_marker sk EmptyString = true ->
  placeholders sk = run 1 (List.length vs) ->
  1 + len vs <= int_max ->
  forall i, (i <= List.length vs)%nat ->
    Positional.inline_loop i vs (flatten (partly vs (Z.of_nat i)) sk)
    = flatten (literal vs) sk.
Proof.
  intros Hap Hph Hle. induction i as [|i IH]; intros Hi.
  - cbn [Positional.inline_loop]. apply flatten_ext. intros k Hk.
    rewrite Hph in Hk. apply run_elem in Hk. unfold partly.
    by rewrite (proj2 (Z.leb_gt k _)) by lia.
  - destruct (lookup_lt_is_Some_2 vs i ltac:(lia)) as [v Hv].
    simpl Positional.inline_loop. rewrite Hv.
    rewrite iadd_exact by (unfold is_int, int_min, len in *; lia).
    replace (Z.of_nat i + 1) with (Z.of_nat (S i)) by lia.
    change ("$" +:+ itoa (Z.of_nat (S i))) with (positional_marker (Z.of_nat (S i))).
    assert (formatValue v = literal vs (Z.of_nat (S i))) as ->.
    { unfold literal. replace (Z.to_nat (Z.of_nat (S i) - 1)) with i by lia.
      by rewrite Hv. }
    rewrite Replace1_skeleton; [| done | rewrite Hph; apply rising_run |].
    + replace (Z.of_nat (S i) - 1) with (Z.of_nat i) by lia. apply IH. lia.
    + rewrite Hph. apply run_elem. lia.
Qed.

(** The positional debug loop on a text set apart inlines every value at
    its own placeholder. *)
Lemma inline_skeleton vs sk :
  set_apart gapRe positional_marker sk EmptyString = true ->
  placeholders sk = run 1 (List.length vs) ->
  1 + len vs <= int_max ->
  Positional.inline_loop (List.length vs) vs (flatten positional_marker sk)
  = flatten (literal vs) sk.
Proof.
  intros Hap Hph Hle.
  rewrite <- (inline_loop_skeleton vs sk Hap Hph Hle (List.length vs)) by lia.
  f_equal. apply flatten_ext. intros k Hk. rewrite Hph in Hk.
  apply run_elem in Hk. unfold partly.
  by rewrite (proj2 (Z.leb_le k _)) by lia.
Qed.

Lemma gap_sigil_cases : sigil gapRe = "$"%char \/ sigil gapRe = "@"%char.
Proof. by left. Qed.

Lemma gap_class_word c :
  class gapRe c = true -> is_word c = true \/ c = "$"%char.
Proof.
  simpl. intros H. apply orb_prop in H as [H|H].
  - left. by apply is_digit_is_word.
  - right. by apply bool_decide_eq_true in H.
Qed.

Lemma gap_marker_is_marker k :
  0 <= k -> is_marker gapRe (positional_marker k) = true.
Proof.
  intros Hk. destruct (itoa_digits k Hk) as (d & ds & E & Hd & _).
  unfold positional_marker. rewrite E. simpl in *.
  apply andb_prop in Hd as [Hd Hds]. rewrite Hd. simpl.
  clear -Hds. induction ds as [|c ds IH]; [done|]. simpl in *.
  apply andb_prop in Hds as [Hc Hds]. by rewrite Hc, IH.
Qed.

(** The named debug helper on a text set apart whose map binds
    [p1..pn]. *)
Lemma named_debug_skeleton vs sk :
  set_apart namedParamRe named_marker sk EmptyString = true ->
  placeholders sk = run 1 (List.length vs) ->
  ReplaceAllStringFunc debugParamRe (flatten named_marker sk)
    (Named.debug_callback (named_args 1 vs))
  = flatten (literal vs) sk.
Proof.
  intros Hap Hph. apply (replace_skeleton namedParamRe); [done|].
  intros k Hk. rewrite Hph in Hk. apply run_elem in Hk.
  unfold Named.debug_callback, named_marker, literal. simpl tail1.
  rewrite app_empty_l.
  destruct (lookup_lt_is_Some_2 vs (Z.to_nat (k - 1)) ltac:(lia)) as [v Hv].
  rewrite Hv.
  replace k with (1 + Z.of_nat (Z.to_nat (k - 1))) at 1 by lia.
  by rewrite (named_args_lookup vs 1 _ v Hv).
Qed.

(** ** Reading a rewritten text again *)

Lemma relabel_text re g s :
  ReplaceAllStringFunc re s g
  = concat_strings (map piece_text (map (relabel g) (pieces re s))).
Proof.
  unfold ReplaceAllStringFunc. rewrite map_map. f_equal.
  apply map_ext. by intros [c|m].
Qed.

Lemma is_marker_head re m r :
  is_marker re m = true -> head_in_class re (m +:+ r) = class re (sigil re).
Proof.
  destruct m as [|c [|d ds]]; try done. simpl. intros H.
  apply andb_prop in H as [H _]. apply andb_prop in H as [H _].
  by apply bool_decide_eq_true in H as ->.
Qed.

(** Rewriting every match to a match of the same pattern keeps the cut. *)
Lemma well_cut_relabel re g ps :
  well_cut re ps = true ->
  (forall m, List.In (Match m) ps -> is_marker re (g m) = true) ->
  well_cut re (map (relabel g) ps) = true
  /\ head_in_class re (concat_strings (map piece_text (map (relabel g) ps)))
     = head_in_class re (concat_strings (map piece_text ps)).
Proof.
  induction ps as [|[c|m] ps IH]; intros Hcut Hg; [done| |].
  - simpl in Hcut. apply andb_prop in Hcut as [H1 H2].
    destruct IH as [IH1 IH2]; [done|by intros m Hm; apply Hg; right|].
    split; [|done]. simpl. rewrite IH1, andb_true_r.
    rewrite starts_match_head in *. by rewrite IH2.
  - simpl in Hcut. apply andb_prop in Hcut as [H1 H3].
    apply andb_prop in H1 as [H1 H2].
    destruct IH as [IH1 IH2]; [done|by intros m' Hm; apply Hg; right|].
    assert (is_marker re (g m) = true) as Hgm by (apply Hg; by left).
    split.
    + simpl. by rewrite Hgm, IH1, IH2, H2.
    + simpl. by rewrite !is_marker_head.
Qed.

Lemma pieces_relabel re g s :
  (forall m, List.In (Match m) (pieces re s) -> is_marker re (g m) = true) ->
  pieces re (ReplaceAllStringFunc re s g) = map (relabel g) (pieces re s).
Proof.
  intros Hg. rewrite relabel_text. apply well_cut_pieces.
  by apply well_cut_relabel; [apply pieces_well_cut|].
Qed.

(** Rewriting every match of one pattern to a match of another, in a text
    whose other bytes are not the sigil of the second pattern. *)
Lemma well_cut_relabel_other re1 re2 g ps :
  (forall c, class re2 c = true -> class re1 c = true) ->
  class re2 (sigil re2) = false ->
  well_cut re1 ps = true ->
  (forall c, List.In (Lit c) ps -> c <> sigil re2) ->
  (forall m, List.In (Match m) ps -> is_marker re2 (g m) = true) ->
  well_cut re2 (map (relabel g) ps) = true.
Proof.
  intros Hcls Hsig. induction ps as [|[c|m] ps IH]; intros Hcut Hlit Hg; [done| |].
  - simpl in Hcut. apply andb_prop in Hcut as [H1 H2].
    simpl. rewrite IH; [|done|by intros c' Hc'; apply Hlit; right
                        |by intros m Hm; apply Hg; right].
    rewrite andb_true_r, starts_match_head.
    rewrite bool_decide_eq_false_2; [done|]. apply Hlit. by left.
  - simpl in Hcut. apply andb_prop in Hcut as [H1 H3].
    apply andb_prop in H1 as [H1 H2]. apply negb_true_iff in H2.
    simpl. rewrite IH; [|done|by intros c' Hc'; apply Hlit; right
                        |by intros m' Hm; apply Hg; right].
    rewrite Hg by (by left). simpl. rewrite andb_true_r.
    apply negb_true_iff.
    destruct ps as [|[c|m'] ps]; [done| |].
    + simpl in *. destruct (class re2 c) eqn:E; [|done].
      apply Hcls in E. congruence.
    + simpl. rewrite is_marker_head; [done|]. apply Hg. right. by left.
Qed.

Lemma pieces_literals re s x :
  List.In (Lit x) (pieces re s) -> List.In x (list_ascii_of_string s).
Proof.
  funelim (pieces re s); simp pieces; [done|].
  destruct (starts_match re c r) eqn:E; simpl.
  - intros [H'|H']; [done|]. right.
    apply H in H'. clear -H'.
    induction r as [|d r IH]; [done|]. simpl in *.
    destruct (class re d); [right; by apply IH|done].
  - intros [H'|H']; [left; congruence|right; by apply H0].
Qed.

Lemma no_sigil_chars re s c :
  no_sigil re s = true -> List.In c (list_ascii_of_string s) -> c <> sigil re.
Proof.
  unfold no_sigil. induction s as [|d s IH]; [done|]. simpl.
  intros H [<-|Hc].
  - apply andb_prop in H as [H _]. by apply negb_true_iff, bool_decide_eq_false in H.
  - apply andb_prop in H as [_ H]. by apply IH.
Qed.

(** The callback of [rawPred.ToSQL] on a match whose shifted number fits
    [int]. *)
Lemma shift_marker_exact s c m :
  1 <= c ->
  List.In (Match m) (pieces placeholderRe s) ->
  digits_value (tail1 m) + c - 1 <= int_max ->
  Positional.shift_marker c m
  = positional_marker (digits_value (tail1 m) + c - 1)
  /\ 0 <= digits_value (tail1 m) + c - 1.
Proof.
  intros Hc Hm Hle.
  pose proof (PositionalFacts.marker_digits_nonneg s m Hm) as Hn.
  rewrite PositionalFacts.shift_marker_in_range by lia.
  rewrite wrap64_id by (unfold is_int, int_min; lia).
  split; [done|lia].
Qed.

Lemma index_of_lookup n l : n ∈ l -> l !! Named.index_of n l = Some n.
Proof.
  induction l as [|x l IH]; intros H; [by apply elem_of_nil in H|].
  simpl. destruct (decide (x = n)) as [->|Hne]; [done|].
  apply elem_of_cons in H as [->|H]; [done|]. by apply IH.
Qed.

Lemma omap_relabel_names {A B} (f : string -> A) (f' : string -> B) (h : B -> A)
    g ps :
  (forall m, List.In (Match m) ps -> f (g m) = h (f' m)) ->
  omap (fun p => match p with Lit _ => None | Match m => Some (f m) end)
       (map (relabel g) ps)
  = map h (omap (fun p => match p with Lit _ => None | Match m => Some (f' m) end)
                ps).
Proof.
  induction ps as [|[c|m] ps IH]; intros H; [done| |].
  - simpl. apply IH. intros m Hm. apply H. by right.
  - simpl map at 1.
    change (omap ?F (Match ?x :: ?l)) with (f x :: omap F l) at 1.
    change (omap ?F (Match m :: ps)) with (f' m :: omap F ps).
    rewrite H by (by left). simpl. f_equal. apply IH.
    intros m' Hm. apply H. by right.
Qed.

(** ** The order of [sortedKeys] *)

Lemma ltb_leb a b : String.ltb b a = false <-> String.leb a b = true.
Proof.
  unfold String.ltb, String.leb. rewrite (String.compare_antisym b a).
  by destruct (String.compare a b).
Qed.

Lemma keys_le_cases a b :
  keys_le a b <->
  (String.length b < String.length a)%nat
  \/ (String.length a = String.length b /\ String.le a b).
Proof.
  unfold keys_le, keys_less, String.le.
  destruct (Nat.eqb_spec (String.length b) (String.length a)) as [E|E]; simpl.
  - rewrite ltb_leb. split.
    + intros H. right. split; [done|]. by rewrite H.
    + intros [H|[_ H]]; [lia|]. by apply Is_true_true in H.
  - rewrite Nat.ltb_ge. split; [intros H; left; lia|].
    intros [H|[H _]]; lia.
Qed.

Lemma keys_le_total : Total keys_le.
Proof.
  intros a b. rewrite !keys_le_cases.
  destruct (lt_eq_lt_dec (String.length a) (String.length b)) as [[H|H]|H];
    [right; by left| |left; by left].
  destruct (total String.le a b); [left|right]; right; split; done.
Qed.

Lemma keys_le_trans : Transitive keys_le.
Proof.
  intros a b c. rewrite !keys_le_cases.
  intros [H1|[H1 H1']] [H2|[H2 H2']]; try (left; lia).
  right. split; [lia|]. by etrans.
Qed.

Lemma keys_le_antisymm : AntiSymm (=) keys_le.
Proof.
  intros a b. rewrite !keys_le_cases.
  intros [H1|[H1 H1']] [H2|[H2 H2']]; try lia.
  by apply (anti_symm String.le).
Qed.

Lemma StronglySorted_lookup {A} (R : relation A) l :
  StronglySorted R l ->
  forall i j x y, (i < j)%nat -> l !! i = Some x -> l !! j = Some y -> R x y.
Proof.
  induction 1 as [|a l Hl IH Ha]; intros i j x y Hij Hi Hj; [done|].
  destruct j as [|j]; [lia|]. simpl in Hj.
  destruct i as [|i]; simpl in Hi.
  - simplify_eq. rewrite Forall_forall in Ha. apply Ha.
    by eapply list_elem_of_lookup_2.
  - eapply IH; [|done|done]. lia.
Qed.

(** ** String literals *)

Lemma read_literal_body_quote s :
  read_literal_body (ReplaceAll_quote s +:+ "'") = Some s.
Proof.
  induction s as [|c s IH]; [done|]. simpl.
  destruct (bool_decide (c = "'"%char)) eqn:E.
  - apply bool_decide_eq_true in E as ->.
    rewrite !app_String. simpl. by rewrite IH.
  - rewrite app_String. simpl. rewrite E. by rewrite IH.
Qed.


(** * Further properties of the code *)

(** X1.  A positional predicate built without [Raw], whose column texts
    have no [$], rendered from offset [c]: the markers the matcher reads
    back in the fragment are [c, c + 1, ...] in text order, one for each
    returned value; the values are the predicate's values in the order of
    the text, and the returned offset is [c] plus their number. *)
Theorem positional_markers_number_the_values (q : Condition) (c : Z) :
  0 <= c -> c + len (values q) <= int_max ->
  sigil_free placeholderRe (columns q) ->
  let '(sql, args, next) := Positional.ToSQL (positional_pred q) c in
  Positional.marker_numbers sql = run c (List.length args)
  /\ args = values q
  /\ next = c + len args.
Proof.
  intros Hc Hle Hcols. pose proof (len_nonneg (values q)).
  rewrite positional_skeleton by (done || (unfold is_int, int_min; lia)).
  split_and!; [|done|done].
  rewrite marker_numbers_skeleton.
  - apply skeleton_placeholders.
  - apply (skeleton_set_apart placeholderRe positional_marker
             positional_sigil_cases positional_class_word
             positional_marker_is_marker); done.
Qed.

Lemma positional_markers_number_the_values_witness :
  let q := Junction true
             [Compare OpEq "f.name" (VStr "alice");
              Negation (Among "f.age" [VInt 1; VInt 2; VInt 3]);
              Within "f.created" (VInt 10) (VInt 20)] in
  0 <= 9 /\ 9 + len (values q) <= int_max /\
  sigil_free placeholderRe (columns q) /\
  Positional.ToSQL (positional_pred q) 9
  = ("(f.name = $9 OR NOT (f.age IN ($10, $11, $12)) OR f.created BETWEEN $13 AND $14)",
     [VStr "alice"; VInt 1; VInt 2; VInt 3; VInt 10; VInt 20], 15) /\
  Positional.marker_numbers
    "(f.name = $9 OR NOT (f.age IN ($10, $11, $12)) OR f.created BETWEEN $13 AND $14)"
  = [9; 10; 11; 12; 13; 14].
Proof.
  intros q.
  assert (0 <= 9) as H1 by lia.
  assert (9 + len (values q) <= int_max) as H2 by (by vm_compute).
  assert (sigil_free placeholderRe (columns q)) as H3
    by (repeat constructor).
  pose proof (positional_markers_number_the_values q 9 H1 H2 H3) as H.
  split_and!; [done|done|done|by vm_compute|].
  destruct (Positional.ToSQL (positional_pred q) 9) as [[sql args] next] eqn:E.
  vm_compute in E. injection E as <- <- <-.
  destruct H as (H & _ & _). exact H.
Defined.

(** X2.  A named predicate built without [Raw], whose column texts have
    no [@], rendered from counter [k]: the names of its markers are
    [p(k+1), p(k+2), ...] in text order, all different; the map holds
    exactly these names, each bound to the value at its place; and the
    counter is left at [k] plus the number of values. *)
Theorem named_names_are_fresh (q : Condition) (k : Z) :
  0 <= k -> k + len (values q) <= int_max ->
  sigil_free namedParamRe (columns q) ->
  let '(sql, args, counter) := Named.ToSQL (named_pred q) k in
  Named.marker_names sql = map param_name (run (k + 1) (List.length (values q)))
  /\ NoDup (Named.marker_names sql)
  /\ map (Named.index_map args) (Named.marker_names sql) = values q
  /\ size args = List.length (values q)
  /\ counter = k + len (values q).
Proof.
  intros Hk Hle Hcols. pose proof (len_nonneg (values q)).
  rewrite named_skeleton by (done || (unfold is_int, int_min; lia)).
  assert (Named.marker_names (flatten named_marker (skeleton q (k + 1)))
          = map param_name (run (k + 1) (List.length (values q)))) as E.
  { rewrite marker_names_skeleton.
    - by rewrite skeleton_placeholders.
    - apply (skeleton_set_apart namedParamRe named_marker
               named_sigil_cases named_class_word
               named_marker_is_marker); (done || lia). }
  rewrite E. split_and!; try done.
  - apply param_names_NoDup.
  - apply named_args_values.
  - apply named_args_size.
Qed.

Lemma named_names_are_fresh_witness :
  let q := Junction false
             [Compare OpGte "age" (VInt 18);
              Among "role" [VStr "admin"; VStr "owner"];
              Null true "email"] in
  0 <= 0 /\ 0 + len (values q) <= int_max /\
  sigil_free namedParamRe (columns q) /\
  Named.ToSQL (named_pred q) 0
  = ("(age >= @p1 AND role IN (@p2, @p3) AND email IS NOT NULL)",
     {[ "p1" := VInt 18; "p2" := VStr "admin"; "p3" := VStr "owner" ]}, 3) /\
  Named.marker_names "(age >= @p1 AND role IN (@p2, @p3) AND email IS NOT NULL)"
  = ["p1"; "p2"; "p3"].
Proof.
  intros q.
  assert (0 <= 0) as H1 by lia.
  assert (0 + len (values q) <= int_max) as H2 by (by vm_compute).
  assert (sigil_free namedParamRe (columns q)) as H3 by (repeat constructor).
  pose proof (named_names_are_fresh q 0 H1 H2 H3) as H.
  split_and!; [done|done|done|by vm_compute|].
  destruct (Named.ToSQL (named_pred q) 0) as [[sql args] counter] eqn:E.
  vm_compute in E. injection E as <- <- <-.
  destruct H as (H & _). exact H.
Defined.

(** X3.  The two schemes render the same predicate alike.  For a
    predicate built without [Raw] whose column texts have no [@], the
    named fragment from counter [k] with every marker [@pN] rewritten to
    [$N] is the positional fragment from offset [k + 1]; the values bound
    to the names, taken in text order, are the positional arguments; and
    the positional offset returned is one more than the counter left. *)
Theorem schemes_render_alike (q : Condition) (k : Z) :
  0 <= k -> k + 1 + len (values q) <= int_max ->
  sigil_free namedParamRe (columns q) ->
  let '(nsql, nargs, counter) := Named.ToSQL (named_pred q) k in
  let '(psql, pargs, offset) := Positional.ToSQL (positional_pred q) (k + 1) in
  ReplaceAllStringFunc namedParamRe nsql (fun m => "$" +:+ tail1 (tail1 m)) = psql
  /\ map (Named.index_map nargs) (Named.marker_names nsql) = pargs
  /\ offset = counter + 1.
Proof.
  intros Hk Hle Hcols. pose proof (len_nonneg (values q)).
  rewrite named_skeleton by ((unfold is_int, int_min; lia) || lia).
  rewrite positional_skeleton by ((unfold is_int, int_min; lia) || lia).
  assert (set_apart namedParamRe named_marker (skeleton q (k + 1)) EmptyString
          = true) as Hap.
  { apply (skeleton_set_apart namedParamRe named_marker
             named_sigil_cases named_class_word
             named_marker_is_marker); (done || lia). }
  split_and!.
  - by apply replace_skeleton.
  - rewrite marker_names_skeleton, skeleton_placeholders by done.
    apply named_args_values.
  - lia.
Qed.

Lemma schemes_render_alike_witness :
  let q := Negation (Junction true
             [Matches true "name" "a%"; Within "n" (VInt 1) (VInt 5)]) in
  0 <= 4 /\ 4 + 1 + len (values q) <= int_max /\
  sigil_free namedParamRe (columns q) /\
  Named.ToSQL (named_pred q) 4
  = ("NOT ((name ILIKE @p5 OR n BETWEEN @p6 AND @p7))",
     {[ "p5" := VStr "a%"; "p6" := VInt 1; "p7" := VInt 5 ]}, 7) /\
  Positional.ToSQL (positional_pred q) 5
  = ("NOT ((name ILIKE $5 OR n BETWEEN $6 AND $7))",
     [VStr "a%"; VInt 1; VInt 5], 8) /\
  ReplaceAllStringFunc namedParamRe
    "NOT ((name ILIKE @p5 OR n BETWEEN @p6 AND @p7))"
    (fun m => "$" +:+ tail1 (tail1 m))
  = "NOT ((name ILIKE $5 OR n BETWEEN $6 AND $7))".
Proof.
  intros q.
  assert (0 <= 4) as H1 by lia.
  assert (4 + 1 + len (values q) <= int_max) as H2 by (by vm_compute).
  assert (sigil_free namedParamRe (columns q)) as H3 by (repeat constructor).
  pose proof (schemes_render_alike q 4 H1 H2 H3) as H.
  split_and!; [done|done|done|by vm_compute|by vm_compute|].
  destruct (Named.ToSQL (named_pred q) 4) as [[nsql nargs] counter] eqn:E.
  vm_compute in E. injection E as <- <- <-.
  destruct (Positional.ToSQL (positional_pred q) (4 + 1))
    as [[psql pargs] offset] eqn:E'.
  vm_compute in E'. injection E' as <- <- <-.
  destruct H as (H & _). exact H.
Defined.

(** X4.  What the database layer hands to the driver.  For a named
    SELECT, UPDATE or DELETE whose predicates are built without [Raw] and
    whose field, table, join, column, GROUP BY, ORDER BY and RETURNING
    texts have no [@], [namedToPositional] applied to the result of
    [Build] (the first two lines of [DB.Exec], [DB.QueryRow], [DB.Query],
    [FetchOne] and [FetchAll]) gives exactly what the positional builder
    builds from the same parts, and its arguments are the values of the
    statement in the order of its text. *)
Theorem statement_reaches_driver_positional (s : Statement) :
  sigil_free namedParamRe (statement_texts s) ->
  1 + len (statement_values s) <= int_max ->
  named_driver_input s = positional_Build s
  /\ snd (named_driver_input s) = statement_values s.
Proof.
  intros Hfree Hle. pose proof (len_nonneg (statement_values s)).
  assert (named_driver_input s
          = Named.namedToPositional (fst (named_Build s)) (snd (named_Build s)))
    as -> by (destruct s; unfold named_driver_input, driver_input, named_Build;
              by destruct (Named.Build _)).
  rewrite named_Build_skeleton, positional_Build_skeleton by done.
  simpl fst. simpl snd.
  rewrite bridge_skeleton; [done| | |lia].
  - by apply (statement_set_apart namedParamRe named_marker named_sigil_cases
                named_class_word named_marker_is_marker).
  - apply statement_placeholders.
Qed.

Lemma statement_reaches_driver_positional_witness :
  let s := SelectOf false ["f.uuid"; "b.label"] "foo f"
             [mk_join InnerJoinType "bar b" "f.uuid" "b.foo_uuid"]
             [Junction true [Compare OpEq "f.name" (VStr "alice");
                             Compare OpEq "f.name" (VStr "bob")];
              Null true "b.label"]
             ["f.uuid"] [Compare OpGt "COUNT(*)" (VInt 1)]
             [mk_orderBy "f.name" Asc] (Some 10) (Some 0) in
  sigil_free namedParamRe (statement_texts s) /\
  1 + len (statement_values s) <= int_max /\
  named_Build s
  = ("SELECT f.uuid, b.label FROM foo f INNER JOIN bar b ON f.uuid = b.foo_uuid WHERE (f.name = @p1 OR f.name = @p2) AND b.label IS NOT NULL GROUP BY f.uuid HAVING COUNT(*) > @p3 ORDER BY f.name ASC LIMIT @p4 OFFSET @p5",
     {[ "p1" := VStr "alice"; "p2" := VStr "bob"; "p3" := VInt 1;
        "p4" := VInt 10; "p5" := VInt 0 ]}) /\
  named_driver_input s
  = ("SELECT f.uuid, b.label FROM foo f INNER JOIN bar b ON f.uuid = b.foo_uuid WHERE (f.name = $1 OR f.name = $2) AND b.label IS NOT NULL GROUP BY f.uuid HAVING COUNT(*) > $3 ORDER BY f.name ASC LIMIT $4 OFFSET $5",
     [VStr "alice"; VStr "bob"; VInt 1; VInt 10; VInt 0]).
Proof.
  intros s.
  assert (sigil_free namedParamRe (statement_texts s)) as H1
    by (repeat constructor).
  assert (1 + len (statement_values s) <= int_max) as H2 by (by vm_compute).
  split_and!; [done|done|by vm_compute|].
  destruct (statement_reaches_driver_positional s H1 H2) as [H _].
  rewrite H. by vm_compute.
Defined.

(** X5.  The positional builders number what they bind.  For a positional
    SELECT, UPDATE or DELETE whose predicates are built without [Raw] and
    whose texts have no [$], the markers the matcher reads in the statement
    [Build] returns are [$1, $2, ..., $n] in text order, where [n] is the
    number of arguments returned, and the arguments are the values of the
    statement in the order of its text (for SELECT: of WHERE, of HAVING,
    the LIMIT, the OFFSET; for UPDATE: of SET, then of WHERE). *)
Theorem statement_markers_number_the_arguments (s : Statement) :
  sigil_free placeholderRe (statement_texts s) ->
  1 + len (statement_values s) <= int_max ->
  let '(sql, args) := positional_Build s in
  Positional.marker_numbers sql = run 1 (List.length args)
  /\ args = statement_values s.
Proof.
  intros Hfree Hle.
  rewrite positional_Build_skeleton by done.
  split; [|done].
  rewrite marker_numbers_skeleton; [apply statement_placeholders|].
  by apply (statement_set_apart placeholderRe positional_marker
              positional_sigil_cases positional_class_word
              positional_marker_is_marker).
Qed.

Lemma statement_markers_number_the_arguments_witness :
  let s := UpdateOf "foo"
             [mk_setClause "name" (VStr "charlie");
              mk_setClause "active" (VBool true)]
             [Compare OpEq "uuid" (VStr "d3b2aa81");
              Among "state" [VStr "new"; VStr "open"]]
             ["uuid"] in
  sigil_free placeholderRe (statement_texts s) /\
  1 + len (statement_values s) <= int_max /\
  positional_Build s
  = ("UPDATE foo SET name = $1, active = $2 WHERE uuid = $3 AND state IN ($4, $5) RETURNING uuid",
     [VStr "charlie"; VBool true; VStr "d3b2aa81"; VStr "new"; VStr "open"]) /\
  Positional.marker_numbers
    "UPDATE foo SET name = $1, active = $2 WHERE uuid = $3 AND state IN ($4, $5) RETURNING uuid"
  = [1; 2; 3; 4; 5].
Proof.
  intros s.
  assert (sigil_free placeholderRe (statement_texts s)) as H1
    by (repeat constructor).
  assert (1 + len (statement_values s) <= int_max) as H2 by (by vm_compute).
  pose proof (statement_markers_number_the_arguments s H1 H2) as H.
  split_and!; [done|done|by vm_compute|].
  destruct (positional_Build s) as [sql args] eqn:E.
  vm_compute in E. injection E as <- <-.
  destruct H as [H _]. exact H.
Defined.

(** X6.  The INSERT builder numbers what it binds.  When no table,
    column, ON CONFLICT or RETURNING text has a [$], the markers the
    matcher reads in the statement are [$1, ..., $n] in text order, [n]
    the number of arguments, and the arguments are the values of the rows,
    row after row; a row without values is written [()]. *)
Theorem insert_markers_number_the_arguments (b : Positional.InsertBuilder) :
  sigil_free placeholderRe (insert_texts b) ->
  1 + len (concat (Positional.ins_values b)) <= int_max ->
  let '(sql, args) := Positional.Build b in
  Positional.marker_numbers sql = run 1 (List.length args)
  /\ args = concat (Positional.ins_values b).
Proof.
  intros Hfree Hle.
  unfold Positional.Build, Positional.InsertBuilder_Builder.
  rewrite positional_insert_skeleton by done.
  split; [|done].
  rewrite marker_numbers_skeleton; [apply insert_placeholders|].
  by apply (insert_set_apart placeholderRe positional_sigil_cases
              positional_class_word positional_marker_is_marker).
Qed.

Lemma insert_markers_number_the_arguments_witness :
  let b := Positional.ins_Returning ["uuid"]
             (Positional.ins_OnConflict "DO NOTHING"
                (Positional.ins_Values [VStr "bob"; VInt 2]
                   (Positional.ins_Values [VStr "alice"; VInt 1]
                      (Positional.ins_Columns ["name"; "n"]
                         (Positional.InsertInto "foo"))))) in
  sigil_free placeholderRe (insert_texts b) /\
  1 + len (concat (Positional.ins_values b)) <= int_max /\
  Positional.Build b
  = ("INSERT INTO foo (name, n) VALUES ($1, $2), ($3, $4) ON CONFLICT DO NOTHING RETURNING uuid",
     [VStr "alice"; VInt 1; VStr "bob"; VInt 2]) /\
  Positional.marker_numbers
    "INSERT INTO foo (name, n) VALUES ($1, $2), ($3, $4) ON CONFLICT DO NOTHING RETURNING uuid"
  = [1; 2; 3; 4].
Proof.
  intros b.
  assert (sigil_free placeholderRe (insert_texts b)) as H1 by (repeat constructor).
  assert (1 + len (concat (Positional.ins_values b)) <= int_max) as H2
    by (by vm_compute).
  pose proof (insert_markers_number_the_arguments b H1 H2) as H.
  split_and!; [done|done|by vm_compute|].
  destruct (Positional.Build b) as [sql args] eqn:E.
  vm_compute in E. injection E as <- <-.
  destruct H as [H _]. exact H.
Defined.

(** X7.  The named debug helper inlines every value at its own place.
    For a named SELECT, UPDATE or DELETE whose predicates are built
    without [Raw] and whose texts have no [@], [ToSQL] returns the text of
    the statement with every marker replaced by the SQL literal of the
    value bound to it: the [K]-th marker of the text by the literal of the
    [K]-th value. *)
Theorem named_debug_inlines_every_value (s : Statement) :
  sigil_free namedParamRe (statement_texts s) ->
  1 + len (statement_values s) <= int_max ->
  fst (named_Build s) = flatten named_marker (statement_skeleton s)
  /\ named_debug s
     = flatten (literal (statement_values s)) (statement_skeleton s).
Proof.
  intros Hfree Hle.
  assert (named_debug s
          = ReplaceAllStringFunc debugParamRe (fst (named_Build s))
              (Named.debug_callback (snd (named_Build s))))
    as -> by (destruct s; unfold named_debug, Named.ToSQL_debug, named_Build;
              by destruct (Named.Build _)).
  rewrite named_Build_skeleton by done. simpl fst. simpl snd.
  split; [done|].
  apply named_debug_skeleton; [|apply statement_placeholders].
  by apply (statement_set_apart namedParamRe named_marker named_sigil_cases
              named_class_word named_marker_is_marker).
Qed.

Lemma named_debug_inlines_every_value_witness :
  let s := DeleteOf "foo"
             [Compare OpEq "name" (VStr "O'Brien");
              Among "n" [VInt 1; VInt 2; VInt 3; VInt 4; VInt 5; VInt 6;
                         VInt 7; VInt 8; VInt 9; VInt 10];
              Compare OpEq "gone" VNil] [] in
  sigil_free namedParamRe (statement_texts s) /\
  1 + len (statement_values s) <= int_max /\
  named_debug s
  = "DELETE FROM foo WHERE name = 'O''Brien' AND n IN (1, 2, 3, 4, 5, 6, 7, 8, 9, 10) AND gone = NULL".
Proof.
  intros s.
  assert (sigil_free namedParamRe (statement_texts s)) as H1
    by (repeat constructor).
  assert (1 + len (statement_values s) <= int_max) as H2 by (by vm_compute).
  split_and!; [done|done|].
  destruct (named_debug_inlines_every_value s H1 H2) as [_ H].
  rewrite H. by vm_compute.
Defined.

(** X8.  The positional debug helper inlines every value at its own
    place, also with ten or more arguments.  For a positional SELECT,
    UPDATE or DELETE whose predicates are built without [Raw] and whose
    texts have no [$], [ToSQL] returns the text of the statement with
    every marker [$K] replaced by the SQL literal of the [K]-th argument:
    replacing from the highest number down, [$1] is never taken for the
    beginning of [$10], and a [$] inside an inlined value is never taken
    for a marker. *)
Theorem positional_debug_inlines_every_value (s : Statement) :
  sigil_free placeholderRe (statement_texts s) ->
  1 + len (statement_values s) <= int_max ->
  fst (positional_Build s) = flatten positional_marker (statement_skeleton s)
  /\ positional_debug s
     = flatten (literal (statement_values s)) (statement_skeleton s).
Proof.
  intros Hfree Hle.
  assert (positional_debug s
          = Positional.inline_loop (List.length (snd (positional_Build s)))
              (snd (positional_Build s)) (fst (positional_Build s)))
    as -> by (destruct s; unfold positional_debug, Positional.ToSQL_debug,
                positional_Build; by destruct (Positional.Build _)).
  rewrite positional_Build_skeleton by done. simpl fst. simpl snd.
  split; [done|].
  apply inline_skeleton; [|apply statement_placeholders|done].
  by apply (statement_set_apart gapRe positional_marker gap_sigil_cases
              gap_class_word gap_marker_is_marker).
Qed.

Lemma positional_debug_inlines_every_value_witness :
  let s := DeleteOf "foo"
             [Compare OpEq "price" (VStr "$10 or $1");
              Among "n" [VInt 1; VInt 2; VInt 3; VInt 4; VInt 5; VInt 6;
                         VInt 7; VInt 8; VInt 9; VInt 10];
              Compare OpEq "name" (VStr "O'Brien")] [] in
  sigil_free placeholderRe (statement_texts s) /\
  1 + len (statement_values s) <= int_max /\
  fst (positional_Build s)
  = "DELETE FROM foo WHERE price = $1 AND n IN ($2, $3, $4, $5, $6, $7, $8, $9, $10, $11) AND name = $12" /\
  positional_debug s
  = "DELETE FROM foo WHERE price = '$10 or $1' AND n IN (1, 2, 3, 4, 5, 6, 7, 8, 9, 10) AND name = 'O''Brien'".
Proof.
  intros s.
  assert (sigil_free placeholderRe (statement_texts s)) as H1
    by (repeat constructor).
  assert (1 + len (statement_values s) <= int_max) as H2 by (by vm_compute).
  split_and!; [done|done|by vm_compute|].
  destruct (positional_debug_inlines_every_value s H1 H2) as [_ H].
  rewrite H. by vm_compute.
Defined.

(** X9.  The positional debug helper on an INSERT.  When no table,
    column, ON CONFLICT or RETURNING text has a [$], [ToSQL] returns the
    text of the statement with every marker [$K] replaced by the SQL
    literal of the [K]-th value of the rows, row after row. *)
Theorem insert_debug_inlines_every_value (b : Positional.InsertBuilder) :
  sigil_free placeholderRe (insert_texts b) ->
  1 + len (concat (Positional.ins_values b)) <= int_max ->
  fst (Positional.Build b) = flatten positional_marker (insert_skeleton b)
  /\ Positional.ToSQL_debug b
     = flatten (literal (concat (Positional.ins_values b))) (insert_skeleton b).
Proof.
  intros Hfree Hle.
  unfold Positional.ToSQL_debug, Positional.Build,
    Positional.InsertBuilder_Builder.
  rewrite positional_insert_skeleton by done. simpl fst.
  split; [done|].
  apply inline_skeleton; [|apply insert_placeholders|done].
  by apply (insert_set_apart gapRe gap_sigil_cases gap_class_word
              gap_marker_is_marker).
Qed.

Lemma insert_debug_inlines_every_value_witness :
  let b := Positional.ins_Returning ["uuid"]
             (Positional.ins_Values [VStr "bob"; VBool false]
                (Positional.ins_Values [VStr "alice"; VNil]
                   (Positional.ins_Columns ["name"; "flag"]
                      (Positional.InsertInto "foo")))) in
  sigil_free placeholderRe (insert_texts b) /\
  1 + len (concat (Positional.ins_values b)) <= int_max /\
  Positional.ToSQL_debug b
  = "INSERT INTO foo (name, flag) VALUES ('alice', NULL), ('bob', FALSE) RETURNING uuid".
Proof.
  intros b.
  assert (sigil_free placeholderRe (insert_texts b)) as H1 by (repeat constructor).
  assert (1 + len (concat (Positional.ins_values b)) <= int_max) as H2
    by (by vm_compute).
  split_and!; [done|done|].
  destruct (insert_debug_inlines_every_value b H1 H2) as [_ H].
  rewrite H. by vm_compute.
Defined.

(** X10.  Rendering a positional [Raw] keeps its markers apart and shifts
    compose.  For a fragment [s] and offsets [c1, c2 >= 1] such that every
    marker number of [s], shifted twice, fits [int]: the markers the
    matcher reads in the fragment rendered at [c1] are those of [s], in
    order, each raised by [c1 - 1] (no marker is lost, merged with the text
    after it, or created); and rendering the rendered fragment again at
    [c2] gives the fragment rendered once at [c1 + c2 - 1]. *)
Theorem raw_rendering_reads_back (s : string) (args : list value) (c1 c2 : Z) :
  1 <= c1 -> 1 <= c2 ->
  (forall n, List.In n (Positional.marker_numbers s) ->
             n + c1 + c2 - 2 <= int_max) ->
  let r1 := fst (fst (Positional.ToSQL (Positional.Raw s args) c1)) in
  Positional.marker_numbers r1
  = map (fun n => n + c1 - 1) (Positional.marker_numbers s)
  /\ fst (fst (Positional.ToSQL (Positional.Raw r1 args) c2))
     = fst (fst (Positional.ToSQL (Positional.Raw s args) (c1 + c2 - 1))).
Proof.
  intros Hc1 Hc2 Hfit. simpl.
  assert (forall m, List.In (Match m) (pieces placeholderRe s) ->
            Positional.shift_marker c1 m
            = positional_marker (digits_value (tail1 m) + c1 - 1)
            /\ 0 <= digits_value (tail1 m) + c1 - 1
            /\ digits_value (tail1 m) + c1 + c2 - 2 <= int_max) as Hshift.
  { intros m Hm.
    pose proof (Hfit _ (PositionalFacts.marker_numbers_In s m Hm)) as Hle.
    destruct (shift_marker_exact s c1 m Hc1 Hm ltac:(lia)) as [E Hn].
    by split_and!. }
  assert (pieces placeholderRe
            (ReplaceAllStringFunc placeholderRe s (Positional.shift_marker c1))
          = map (relabel (Positional.shift_marker c1)) (pieces placeholderRe s))
    as Hps.
  { apply pieces_relabel. intros m Hm.
    destruct (Hshift m Hm) as (-> & Hn & _).
    by apply positional_marker_is_marker. }
  split.
  - unfold Positional.marker_numbers. rewrite Hps.
    apply (omap_relabel_names (fun m => digits_value (tail1 m))
             (fun m => digits_value (tail1 m))).
    intros m Hm. destruct (Hshift m Hm) as (-> & Hn & _).
    by apply positional_marker_number.
  - unfold ReplaceAllStringFunc at 1. rewrite Hps, map_map.
    unfold ReplaceAllStringFunc. f_equal.
    apply map_ext_in. intros [c|m] Hm; [done|]. simpl.
    destruct (Hshift m Hm) as (-> & Hn & Hle).
    pose proof (PositionalFacts.marker_digits_nonneg s m Hm) as Hd.
    rewrite PositionalFacts.shift_marker_in_range
      by (rewrite positional_marker_number by done; lia).
    rewrite positional_marker_number by done.
    rewrite PositionalFacts.shift_marker_in_range by lia.
    do 3 f_equal. lia.
Qed.

Lemma raw_rendering_reads_back_witness :
  1 <= 3 /\ 1 <= 5 /\
  (forall n,
     List.In n (Positional.marker_numbers "a = $1 AND b IN ($2, $10) AND c = $1") ->
     n + 3 + 5 - 2 <= int_max) /\
  fst (fst (Positional.ToSQL
              (Positional.Raw "a = $1 AND b IN ($2, $10) AND c = $1" []) 3))
  = "a = $3 AND b IN ($4, $12) AND c = $3" /\
  Positional.marker_numbers "a = $3 AND b IN ($4, $12) AND c = $3"
  = [3; 4; 12; 3] /\
  fst (fst (Positional.ToSQL
              (Positional.Raw "a = $3 AND b IN ($4, $12) AND c = $3" []) 5))
  = "a = $7 AND b IN ($8, $16) AND c = $7".
Proof.
  assert (forall n,
    List.In n (Positional.marker_numbers "a = $1 AND b IN ($2, $10) AND c = $1") ->
    n + 3 + 5 - 2 <= int_max) as Hfit.
  { intros n Hn. vm_compute in Hn.
    destruct Hn as [<-|[<-|[<-|[<-|[]]]]]; unfold int_max; lia. }
  assert (1 <= 3) as H1 by lia. assert (1 <= 5) as H2 by lia.
  destruct (raw_rendering_reads_back "a = $1 AND b IN ($2, $10) AND c = $1" []
              3 5 H1 H2 Hfit) as [Ha Hb].
  split_and!; [done|done|done|by vm_compute| |].
  - etrans; [|etrans; [exact Ha|]]; by vm_compute.
  - etrans; [|etrans; [exact Hb|]]; by vm_compute.
Defined.

(** X11.  Every marker of the bridge's result points at the value of the
    name it replaced.  For a text without [$] and a non-empty map, the
    markers the matcher reads in the text [namedToPositional] returns are
    as many as the [@name] markers of the text given, in the same order,
    and the argument at the position each one names is the value the map
    holds for the name that stood there ([nil] for a name the map does not
    hold), also when a name occurs more than once. *)
Theorem bridge_markers_point_at_values
    (query : string) (named : gmap string value) :
  no_sigil placeholderRe query = true ->
  size named <> 0%nat ->
  len (Named.marker_names query) <= int_max ->
  let '(sql, args) := Named.namedToPositional query named in
  map (fun k => args !! Z.to_nat (k - 1)) (Positional.marker_numbers sql)
  = map (fun n => Some (Named.index_map named n)) (Named.marker_names query).
Proof.
  intros Hfree Hne Hlen.
  rewrite namedToPositional_markers by done.
  set (names := Named.first_occurrences (Named.marker_names query)).
  set (g := fun m => "$" +:+ itoa (Named.position names (tail1 m))).
  assert (forall m, is_marker placeholderRe (g m) = true) as Hg.
  { intros m. apply positional_marker_is_marker. unfold Named.position. lia. }
  assert (pieces placeholderRe (Named.bridge_text query)
          = map (relabel g) (pieces namedParamRe query)) as Hps.
  { unfold Named.bridge_text. fold names. fold g.
    rewrite relabel_text. apply well_cut_pieces.
    apply (well_cut_relabel_other namedParamRe placeholderRe).
    - apply is_digit_is_word.
    - done.
    - apply pieces_well_cut.
    - intros c Hc. apply pieces_literals in Hc.
      by apply (no_sigil_chars placeholderRe query).
    - auto. }
  unfold Positional.marker_numbers. rewrite Hps.
  assert (omap (fun p => match p with
                       | Lit _ => None
                       | Match m => Some (digits_value (tail1 m))
                       end) (map (relabel g) (pieces namedParamRe query))
          = map (Named.position names) (Named.marker_names query)) as ->.
  { unfold Named.marker_names.
    apply (omap_relabel_names (fun m => digits_value (tail1 m)) tail1).
    intros m _. apply positional_marker_number. unfold Named.position. lia. }
  rewrite map_map. apply map_ext_in. intros n Hn.
  unfold Named.position.
  replace (Z.to_nat (Z.of_nat (Named.index_of n names) + 1 - 1))
    with (Named.index_of n names) by lia.
  rewrite list_lookup_fmap, index_of_lookup; [done|].
  apply NamedFacts.first_occurrences_elem. by apply list_elem_of_In.
Qed.

Lemma bridge_markers_point_at_values_witness :
  let named : gmap string value := {[ "a" := VInt 1; "b" := VInt 2 ]} in
  no_sigil placeholderRe "x = @b AND y = @a AND z = @b AND w = @c" = true /\
  size named <> 0%nat /\
  len (Named.marker_names "x = @b AND y = @a AND z = @b AND w = @c") <= int_max /\
  Named.namedToPositional "x = @b AND y = @a AND z = @b AND w = @c" named
  = ("x = $1 AND y = $2 AND z = $1 AND w = $3", [VInt 2; VInt 1; VNil]) /\
  map (fun k => [VInt 2; VInt 1; VNil] !! Z.to_nat (k - 1))
      (Positional.marker_numbers "x = $1 AND y = $2 AND z = $1 AND w = $3")
  = [Some (VInt 2); Some (VInt 1); Some (VInt 2); Some VNil].
Proof.
  intros named.
  assert (no_sigil placeholderRe "x = @b AND y = @a AND z = @b AND w = @c" = true)
    as H1 by (by vm_compute).
  assert (size named <> 0%nat) as H2 by (by vm_compute).
  assert (len (Named.marker_names "x = @b AND y = @a AND z = @b AND w = @c")
          <= int_max) as H3 by (by vm_compute).
  pose proof (bridge_markers_point_at_values
                "x = @b AND y = @a AND z = @b AND w = @c" named H1 H2 H3) as H.
  split_and!; [done|done|done|by vm_compute|].
  destruct (Named.namedToPositional _ named) as [sql args] eqn:E.
  vm_compute in E. injection E as <- <-.
  etrans; [exact H|]. by vm_compute.
Defined.

(** X12.  [sortedKeys] lists the keys of a map, each once, longer keys
    first and keys of the same length in byte order.  The result does not
    depend on the order in which [range] yields the keys, nor on the
    sorting algorithm (any arrangement of the keys that is sorted by the
    comparison is this one); and a key always comes before a shorter key,
    so [p10] comes before its beginning [p1]. *)
Theorem sortedKeys_orders_the_keys (m : gmap string value) :
  sortedKeys m ≡ₚ map fst (map_to_list m)
  /\ NoDup (sortedKeys m)
  /\ (forall k, k ∈ sortedKeys m <-> is_Some (m !! k))
  /\ (forall i j a b, (i < j)%nat ->
        sortedKeys m !! i = Some a -> sortedKeys m !! j = Some b ->
        keys_less a b = true)
  /\ (forall order, order ≡ₚ map fst (map_to_list m) ->
        sortedKeys_ranged order = sortedKeys m)
  /\ (forall l, l ≡ₚ map fst (map_to_list m) ->
        Sorted (fun a b => keys_less b a = false) l -> l = sortedKeys m)
  /\ (forall i j a b,
        sortedKeys m !! i = Some a -> sortedKeys m !! j = Some b ->
        (String.length b < String.length a)%nat -> (i < j)%nat).
Proof.
  pose proof keys_le_total as Htot. pose proof keys_le_trans as Htr.
  pose proof keys_le_antisymm as Has.
  assert (sortedKeys m ≡ₚ map fst (map_to_list m)) as Hperm
    by apply merge_sort_Permutation.
  assert (NoDup (sortedKeys m)) as Hnd.
  { rewrite Hperm. apply NoDup_fst_map_to_list. }
  assert (StronglySorted keys_le (sortedKeys m)) as Hss
    by apply (StronglySorted_merge_sort keys_le).
  assert (forall l, l ≡ₚ map fst (map_to_list m) ->
            Sorted keys_le l -> l = sortedKeys m) as Huniq.
  { intros l Hl Hs. apply (Sorted_unique keys_le); [done| |by rewrite Hl, Hperm].
    apply (Sorted_merge_sort keys_le). }
  split_and!; try done.
  - intros k. rewrite Hperm. rewrite list_elem_of_fmap. split.
    + intros [[k' v] [-> Hkv]]. apply elem_of_map_to_list in Hkv. by eexists.
    + intros [v Hv]. exists (k, v). split; [done|]. by apply elem_of_map_to_list.
  - intros i j a b Hij Hi Hj.
    pose proof (StronglySorted_lookup keys_le _ Hss i j a b Hij Hi Hj) as Hab.
    destruct (keys_less a b) eqn:E; [done|]. exfalso.
    assert (a = b) as -> by (by apply (anti_symm keys_le)).
    apply NoDup_lookup with (i := i) (j := j) (x := b) in Hnd; [lia|done|done].
  - intros order Horder. apply Huniq.
    + unfold sortedKeys_ranged. by rewrite merge_sort_Permutation.
    + apply (Sorted_merge_sort keys_le).
  - intros i j a b Hi Hj Hlen.
    destruct (lt_eq_lt_dec i j) as [[H|H]|H]; [done| |].
    + subst. rewrite Hi in Hj. simplify_eq. lia.
    + pose proof (StronglySorted_lookup keys_le _ Hss j i b a H Hj Hi) as Hba.
      apply keys_le_cases in Hba. lia.
Qed.

Lemma sortedKeys_orders_the_keys_witness :
  let m : gmap string value :=
    {[ "p1" := VInt 1; "p10" := VInt 10; "p2" := VInt 2; "id" := VNil ]} in
  sortedKeys m = ["p10"; "id"; "p1"; "p2"] /\
  sortedKeys_ranged ["p2"; "id"; "p10"; "p1"] = ["p10"; "id"; "p1"; "p2"].
Proof.
  intros m. split; [by vm_compute|].
  destruct (sortedKeys_orders_the_keys m) as (_ & _ & _ & _ & H & _).
  rewrite (H ["p2"; "id"; "p10"; "p1"]); [by vm_compute|].
  vm_compute.
  apply (Permutation_trans
           (l' := ["id"; "p2"; "p10"; "p1"])); [apply perm_swap|].
  apply perm_skip.
  apply (Permutation_trans
           (l' := ["p10"; "p2"; "p1"])); [apply perm_swap|].
  apply perm_skip. apply perm_swap.
Defined.

(** X13.  The literal [formatValue] writes for a string reads back as the
    string.  Read as SQL reads a string literal (a quote, bytes with every
    quote doubled, a closing quote), the literal of [s] is [s] itself: no
    quote in the value ends the literal early, and different strings have
    different literals. *)
Theorem string_literal_reads_back (s : string) :
  read_string_literal (formatValue (VStr s)) = Some s
  /\ forall s', formatValue (VStr s) = formatValue (VStr s') -> s = s'.
Proof.
  assert (forall t, read_string_literal (formatValue (VStr t)) = Some t) as H.
  { intros t. unfold formatValue. rewrite app_String, app_empty_l. simpl.
    apply read_literal_body_quote. }
  split; [apply H|].
  intros s' E. pose proof (H s) as H1. rewrite E, H in H1. congruence.
Qed.
